(** * AgentScheduler: a shallow embedding of [src/scheduler/scheduler.ts]

    The scheduler is a class holding a [Map<string, ScheduledJob>] and a
    [running] flag.  Job records are JavaScript objects: the map, the timer
    callbacks created by [setInterval] and the values handed back to callers
    all refer to the same object.  The embedding therefore keeps an explicit
    object store and lets the map and the timers hold references into it.

    Numbers of the source are IEEE doubles.  The world below computes with
    exact integers in [Z]; module [Double] gives the same expressions as the
    source's arithmetic has them, rounded to the nearest double.  The two
    agree as long as values stay within [MAX_SAFE_INTEGER], and statements
    about the value of a stored number are made within that range.  The
    period of an armed interval is the same in both for every schedule. *)

From Stdlib Require Import ZArith Ascii String List Lia.
From stdpp Require Import base option list gmap strings fin_maps.

Local Open Scope Z_scope.

(** ** Interval parsing: [parseSchedule] *)

Module Schedule.

Definition MAX_SAFE_INTEGER : Z := 2 ^ 53 - 1.

(** [\d] without the unicode flag: the ten ASCII digits. *)
Definition is_digit (c : ascii) : bool :=
  let n := N_of_ascii c in (48 <=? n)%N && (n <=? 57)%N.

Definition digit_val (c : ascii) : Z := Z.of_N (N_of_ascii c) - 48.

(** [(m|h|d)] *)
Definition is_unit (c : ascii) : bool :=
  (Ascii.eqb c "m" || Ascii.eqb c "h" || Ascii.eqb c "d")%char.

(** The greedy scan performed by [\d+]: the longest prefix of digits and
    what follows it. *)
Fixpoint span_digits (cs : list ascii) : list ascii * list ascii :=
  match cs with
  | c :: cs' =>
      if is_digit c
      then let '(ds, rest) := span_digits cs' in (c :: ds, rest)
      else ([], cs)
  | [] => ([], [])
  end.

(** [schedule.match(/^(\d+)(m|h|d)?$/)].  The result is the pair of capture
    groups [(match[1], match[2])]; the second is [None] when the optional
    group did not take part in the match; [None] overall is JavaScript's
    [null].  Giving back digits to the optional group or to [$] can never
    help, since the character after a shorter digit prefix is a digit. *)
Definition regex_match (schedule : string) : option (list ascii * option ascii) :=
  let '(ds, rest) := span_digits (list_ascii_of_string schedule) in
  match ds with
  | [] => None
  | _ :: _ =>
      match rest with
      | [] => Some (ds, None)
      | [u] => if is_unit u then Some (ds, Some u) else None
      | _ => None
      end
  end.

(** [parseInt] on a non-empty string of decimal digits: the exact value.
    The source's number is the double nearest to it, [Double.parseInt],
    which is this value up to [MAX_SAFE_INTEGER]. *)
Definition parseInt (ds : list ascii) : Z :=
  fold_left (fun acc c => acc * 10 + digit_val c) ds 0.

(** The products are exact here and rounded in [Double.parseSchedule];
    the two are equal up to [MAX_SAFE_INTEGER]. *)
Definition parseSchedule (schedule : string) : Z :=
  match regex_match schedule with
  | None => 60000
  | Some (ds, g2) =>
      let value := parseInt ds in
      let unit := match g2 with Some u => u | None => "m"%char end in
      if Ascii.eqb unit "m" then value * 60 * 1000
      else if Ascii.eqb unit "h" then value * 60 * 60 * 1000
      else if Ascii.eqb unit "d" then value * 24 * 60 * 60 * 1000
      else value * 60 * 1000
  end.

(** *** The grammar as the specification words it

    "One or more decimal digits optionally followed by a single unit
    letter", with the value read positionally. *)

Definition unit_suffix (u : option ascii) : list ascii :=
  match u with Some c => [c] | None => [] end.

Definition Grammar (s : string) (ds : list ascii) (u : option ascii) : Prop :=
  ds <> [] /\
  Forall (fun c => is_digit c = true) ds /\
  (u = None \/ u = Some "m"%char \/ u = Some "h"%char \/ u = Some "d"%char) /\
  list_ascii_of_string s = ds ++ unit_suffix u.

Fixpoint decimal_value (ds : list ascii) : Z :=
  match ds with
  | [] => 0
  | c :: cs => digit_val c * 10 ^ Z.of_nat (length cs) + decimal_value cs
  end.

Definition unit_ms (u : option ascii) : Z :=
  match u with
  | None => 60000
  | Some c =>
      if Ascii.eqb c "h" then 3600000
      else if Ascii.eqb c "d" then 86400000
      else 60000
  end.

End Schedule.

Import Schedule.

(** ** Data model: [core/types.ts] *)

Inductive JobStatus := Pending | Running | Completed | Failed | Cancelled.

#[global] Instance JobStatus_eq_dec : EqDecision JobStatus.
Proof. solve_decision. Defined.

(** References: job objects, [NodeJS.Timeout] handles and arrays live in
    stores of the runtime and are named by allocation counters, so that a
    reference is never handed out twice.  A handle is an object and so is
    truthy whatever its number: [if (job.intervalId)] tests for presence. *)
Definition loc := nat.
Definition Timeout := nat.
Definition aref := nat.

(** The caller's [() => Promise<void>], kept by reference. *)
Inductive Action := ActionRef (n : nat).

Record ScheduledJob := {
  id : string;
  name : string;
  schedule : string;
  action : Action;
  enabled : bool;
  lastRun : option Z;
  nextRun : option Z;
  status : JobStatus;
  intervalId : option Timeout
}.

#[global] Instance ScheduledJob_inhabited : Inhabited ScheduledJob :=
  populate {| id := ""; name := ""; schedule := ""; action := ActionRef 0;
              enabled := false; lastRun := None; nextRun := None;
              status := Pending; intervalId := None |}.

(** Field assignments [job.f = v]. *)
Definition set_enabled (b : bool) (j : ScheduledJob) : ScheduledJob :=
  {| id := id j; name := name j; schedule := schedule j; action := action j;
     enabled := b; lastRun := lastRun j; nextRun := nextRun j;
     status := status j; intervalId := intervalId j |}.

Definition set_lastRun (t : option Z) (j : ScheduledJob) : ScheduledJob :=
  {| id := id j; name := name j; schedule := schedule j; action := action j;
     enabled := enabled j; lastRun := t; nextRun := nextRun j;
     status := status j; intervalId := intervalId j |}.

Definition set_nextRun (t : option Z) (j : ScheduledJob) : ScheduledJob :=
  {| id := id j; name := name j; schedule := schedule j; action := action j;
     enabled := enabled j; lastRun := lastRun j; nextRun := t;
     status := status j; intervalId := intervalId j |}.

Definition set_status (st : JobStatus) (j : ScheduledJob) : ScheduledJob :=
  {| id := id j; name := name j; schedule := schedule j; action := action j;
     enabled := enabled j; lastRun := lastRun j; nextRun := nextRun j;
     status := st; intervalId := intervalId j |}.

Definition set_intervalId (h : option Timeout) (j : ScheduledJob) : ScheduledJob :=
  {| id := id j; name := name j; schedule := schedule j; action := action j;
     enabled := enabled j; lastRun := lastRun j; nextRun := nextRun j;
     status := status j; intervalId := h |}.

(** ** The runtime around the scheduler *)

(** An interval armed by [setInterval(callback, after)], with the period it
    repeats at.  The callback of [startJob] closes over the job object
    only. *)
Record Timer := { t_job : loc; t_period : Z }.

(** What the world outside can see the scheduler do. *)
Inductive Effect :=
  | Invoked (a : Action)            (* [job.action()] was called *)
  | ConsoleError (job_id : string). (* [console.error(`Job ${job.id} failed:`, error)] *)

Record World := {
  jobs : list (string * loc);        (* [this.jobs], in insertion order *)
  running : bool;                    (* [this.running] *)
  objects : gmap loc ScheduledJob;   (* job objects *)
  next_loc : loc;
  timers : gmap Timeout Timer;       (* intervals that are armed *)
  next_timeout : Timeout;
  arrays : gmap aref (list loc);     (* arrays handed to callers *)
  next_aref : aref;
  inflight : list loc;               (* callbacks suspended at [await] *)
  clock : Z;                         (* what [Date.now()] reads *)
  effects : list Effect
}.

Definition with_jobs (f : list (string * loc) -> list (string * loc)) (w : World) : World :=
  {| jobs := f (jobs w); running := running w; objects := objects w;
     next_loc := next_loc w; timers := timers w; next_timeout := next_timeout w;
     arrays := arrays w; next_aref := next_aref w; inflight := inflight w;
     clock := clock w; effects := effects w |}.

Definition with_running (b : bool) (w : World) : World :=
  {| jobs := jobs w; running := b; objects := objects w;
     next_loc := next_loc w; timers := timers w; next_timeout := next_timeout w;
     arrays := arrays w; next_aref := next_aref w; inflight := inflight w;
     clock := clock w; effects := effects w |}.

Definition with_objects (f : gmap loc ScheduledJob -> gmap loc ScheduledJob)
    (n : loc) (w : World) : World :=
  {| jobs := jobs w; running := running w; objects := f (objects w);
     next_loc := n; timers := timers w; next_timeout := next_timeout w;
     arrays := arrays w; next_aref := next_aref w; inflight := inflight w;
     clock := clock w; effects := effects w |}.

Definition with_timers (f : gmap Timeout Timer -> gmap Timeout Timer)
    (n : Timeout) (w : World) : World :=
  {| jobs := jobs w; running := running w; objects := objects w;
     next_loc := next_loc w; timers := f (timers w); next_timeout := n;
     arrays := arrays w; next_aref := next_aref w; inflight := inflight w;
     clock := clock w; effects := effects w |}.

Definition with_arrays (f : gmap aref (list loc) -> gmap aref (list loc))
    (n : aref) (w : World) : World :=
  {| jobs := jobs w; running := running w; objects := objects w;
     next_loc := next_loc w; timers := timers w; next_timeout := next_timeout w;
     arrays := f (arrays w); next_aref := n; inflight := inflight w;
     clock := clock w; effects := effects w |}.

Definition with_inflight (f : list loc -> list loc) (w : World) : World :=
  {| jobs := jobs w; running := running w; objects := objects w;
     next_loc := next_loc w; timers := timers w; next_timeout := next_timeout w;
     arrays := arrays w; next_aref := next_aref w; inflight := f (inflight w);
     clock := clock w; effects := effects w |}.

Definition with_clock (t : Z) (w : World) : World :=
  {| jobs := jobs w; running := running w; objects := objects w;
     next_loc := next_loc w; timers := timers w; next_timeout := next_timeout w;
     arrays := arrays w; next_aref := next_aref w; inflight := inflight w;
     clock := t; effects := effects w |}.

Definition with_effect (e : Effect) (w : World) : World :=
  {| jobs := jobs w; running := running w; objects := objects w;
     next_loc := next_loc w; timers := timers w; next_timeout := next_timeout w;
     arrays := arrays w; next_aref := next_aref w; inflight := inflight w;
     clock := clock w; effects := effects w ++ [e] |}.

(** A call either returns or throws; the world is threaded through. *)
Inductive Completion (A : Type) :=
  | Normal (a : A)
  | Throw (err : string).
Arguments Normal {A} a.
Arguments Throw {A} err.

Definition M (A : Type) : Type := World -> Completion A * World.

#[global] Instance M_ret : MRet M := fun A a w => (Normal a, w).

#[global] Instance M_bind : MBind M := fun A B f m w =>
  match m w with
  | (Normal a, w') => f a w'
  | (Throw e, w') => (Throw e, w')
  end.

Definition gets {A} (f : World -> A) : M A := fun w => (Normal (f w), w).
Definition modify (f : World -> World) : M unit := fun w => (Normal tt, f w).

Fixpoint for_each {A} (xs : list A) (body : A -> M unit) : M unit :=
  match xs with
  | [] => mret tt
  | x :: xs' => body x ;; for_each xs' body
  end.

(** *** [Map<string, ScheduledJob>]: insertion-ordered, keys unique *)

Fixpoint map_get (k : string) (m : list (string * loc)) : option loc :=
  match m with
  | [] => None
  | (k', v) :: m' => if String.eqb k k' then Some v else map_get k m'
  end.

(** [Map.prototype.set] keeps the position of a key that is present and
    appends a new one. *)
Fixpoint map_set (k : string) (v : loc) (m : list (string * loc)) : list (string * loc) :=
  match m with
  | [] => [(k, v)]
  | (k', v') :: m' =>
      if String.eqb k k' then (k, v) :: m' else (k', v') :: map_set k v m'
  end.

Fixpoint map_delete (k : string) (m : list (string * loc)) : list (string * loc) :=
  match m with
  | [] => []
  | (k', v') :: m' =>
      if String.eqb k k' then m' else (k', v') :: map_delete k m'
  end.

Definition map_values (m : list (string * loc)) : list loc := map snd m.

(** *** Primitives of the runtime *)

(** [Date.now()].  The clock moves between events ([Tick]), not within
    the synchronous body of a method. *)
Definition date_now : M Z := gets clock.

Definition new_object (j : ScheduledJob) : M loc := fun w =>
  let l := next_loc w in
  (Normal l, with_objects (insert l j) (S l) w).

(** Reading a field of [job].  The methods only read through references
    taken from the map, which always point to an object ([wf_stored]); the
    default value stands for a read that cannot happen. *)
Definition load (job : loc) : M ScheduledJob :=
  gets (fun w => objects w !!! job).

(** Writing a field of [job]. *)
Definition store (job : loc) (f : ScheduledJob -> ScheduledJob) : M unit :=
  modify (fun w => with_objects (alter f job) (next_loc w) w).

(** [setInterval(callback, after)] of Node: a delay outside
    [1 .. TIMEOUT_MAX] is replaced by 1 ms before the interval is armed. *)
Definition TIMEOUT_MAX : Z := 2 ^ 31 - 1.

Definition timer_delay (after : Z) : Z :=
  if (1 <=? after) && (after <=? TIMEOUT_MAX) then after else 1.

Definition setInterval (job : loc) (after : Z) : M Timeout := fun w =>
  let h := next_timeout w in
  (Normal h,
   with_timers (insert h {| t_job := job; t_period := timer_delay after |})
     (S h) w).

Definition clearInterval (h : Timeout) : M unit :=
  modify (fun w => with_timers (delete h) (next_timeout w) w).

Definition new_array (xs : list loc) : M aref := fun w =>
  let a := next_aref w in
  (Normal a, with_arrays (insert a xs) (S a) w).

Definition array_read (a : aref) : M (list loc) :=
  gets (fun w => default [] (arrays w !! a)).

Definition emit (e : Effect) : M unit := modify (with_effect e).

(** [this.jobs.delete(k)]: tells whether the key was there. *)
Definition jobs_delete (k : string) : M bool := fun w =>
  (Normal (bool_decide (is_Some (map_get k (jobs w)))),
   with_jobs (map_delete k) w).

(** ** The class [AgentScheduler] *)

Module AgentScheduler.

(** The sum is exact here and rounded in [Double.calculateNextRun]; the
    two are equal where [exact_nextRun] holds. *)
Definition calculateNextRun (schedule : string) : M Z :=
  now ← date_now;
  mret (now + parseSchedule schedule).

(** The two phases of the [async] callback given to [setInterval]: up to the
    [await], and the continuation once the promise has settled.  A call of
    [job.action()] either throws on the spot or returns a promise. *)
Inductive CallResult := ThrewSync | ReturnedPromise.
Inductive Settlement := Fulfilled | Rejected.

Definition timer_callback (job : loc) (call : CallResult) : M unit :=
  j ← load job;
  if negb (enabled j) then mret tt
  else
    store job (set_status Running) ;;
    emit (Invoked (action j)) ;;
    match call with
    | ReturnedPromise => modify (with_inflight (fun ls => ls ++ [job]))
    | ThrewSync =>
        store job (set_status Failed) ;;
        emit (ConsoleError (id j))
    end.

Definition timer_callback_resume (job : loc) (o : Settlement) : M unit :=
  match o with
  | Fulfilled =>
      store job (set_status Completed) ;;
      now ← date_now;
      store job (set_lastRun (Some now))
  | Rejected =>
      store job (set_status Failed) ;;
      j ← load job;
      emit (ConsoleError (id j))
  end.

Definition startJob (job : loc) : M unit :=
  j ← load job;
  match intervalId j with
  | Some h => clearInterval h
  | None => mret tt
  end ;;
  let interval := parseSchedule (schedule j) in
  h ← setInterval job interval;
  store job (set_intervalId (Some h)) ;;
  now ← date_now;
  store job (set_nextRun (Some (now + interval))).

Definition addJob (id0 name0 schedule0 : string) (action0 : Action) : M loc :=
  next ← calculateNextRun schedule0;
  job ← new_object {| id := id0; name := name0; schedule := schedule0;
                      action := action0; enabled := true; lastRun := None;
                      nextRun := Some next; status := Pending;
                      intervalId := None |};
  modify (with_jobs (map_set id0 job)) ;;
  r ← gets running;
  (if (r : bool) then startJob job else mret tt) ;;
  mret job.

Definition removeJob (id0 : string) : M bool :=
  found ← gets (fun w => map_get id0 (jobs w));
  match found with
  | None => mret false
  | Some job =>
      j ← load job;
      match intervalId j with
      | Some h => clearInterval h
      | None => mret tt
      end ;;
      jobs_delete id0
  end.

Definition start : M unit :=
  modify (with_running true) ;;
  values ← gets (fun w => map_values (jobs w));
  for_each values (fun job =>
    j ← load job;
    if enabled j then startJob job else mret tt).

Definition stop : M unit :=
  modify (with_running false) ;;
  values ← gets (fun w => map_values (jobs w));
  for_each values (fun job =>
    j ← load job;
    match intervalId j with
    | Some h => clearInterval h ;; store job (set_intervalId None)
    | None => mret tt
    end).

Definition enableJob (id0 : string) : M bool :=
  found ← gets (fun w => map_get id0 (jobs w));
  match found with
  | None => mret false
  | Some job =>
      store job (set_enabled true) ;;
      r ← gets running;
      (if (r : bool) then startJob job else mret tt) ;;
      mret true
  end.

Definition disableJob (id0 : string) : M bool :=
  found ← gets (fun w => map_get id0 (jobs w));
  match found with
  | None => mret false
  | Some job =>
      store job (set_enabled false) ;;
      j ← load job;
      match intervalId j with
      | Some h => clearInterval h ;; store job (set_intervalId None)
      | None => mret tt
      end ;;
      mret true
  end.

Definition getJob (id0 : string) : M (option loc) :=
  gets (fun w => map_get id0 (jobs w)).

Definition getAllJobs : M aref :=
  values ← gets (fun w => map_values (jobs w));
  new_array values.

(** [Array.prototype.filter] builds a new array; the predicate reads
    [j.status] of each element. *)
Definition getJobsByStatus (st : JobStatus) : M aref :=
  all ← getAllJobs;
  xs ← array_read all;
  kept ← gets (fun w =>
            filter (fun job => status (objects w !!! job) = st) xs);
  new_array kept.

End AgentScheduler.

Import AgentScheduler.

(** ** Traces: what can happen to a scheduler *)

Inductive MethodCall :=
  | CallAddJob (id0 name0 schedule0 : string) (action0 : Action)
  | CallRemoveJob (id0 : string)
  | CallStart
  | CallStop
  | CallEnableJob (id0 : string)
  | CallDisableJob (id0 : string)
  | CallGetJob (id0 : string)
  | CallGetAllJobs
  | CallGetJobsByStatus (st : JobStatus).

Definition call (c : MethodCall) (w : World) : World :=
  match c with
  | CallAddJob i n s a => snd (addJob i n s a w)
  | CallRemoveJob i => snd (removeJob i w)
  | CallStart => snd (start w)
  | CallStop => snd (stop w)
  | CallEnableJob i => snd (enableJob i w)
  | CallDisableJob i => snd (disableJob i w)
  | CallGetJob i => snd (getJob i w)
  | CallGetAllJobs => snd (getAllJobs w)
  | CallGetJobsByStatus st => snd (getJobsByStatus st w)
  end.

Inductive Event :=
  | Call (c : MethodCall)               (* the host calls a method *)
  | Tick (d : Z)                        (* the clock moves *)
  | Fire (h : Timeout) (r : CallResult) (* an armed interval fires *)
  | Settle (k : nat) (o : Settlement)   (* an awaited promise settles *)
  | ArrayWrite (a : aref) (xs : list loc). (* the host edits an array it was given *)

Definition exec (e : Event) (w : World) : World :=
  match e with
  | Call c => call c w
  | Tick d => with_clock (clock w + d) w
  | Fire h r =>
      match timers w !! h with
      | Some t => snd (timer_callback (t_job t) r w)
      | None => w
      end
  | Settle k o =>
      match inflight w !! k with
      | Some job =>
          snd (timer_callback_resume job o (with_inflight (delete k) w))
      | None => w
      end
  | ArrayWrite a xs =>
      match arrays w !! a with
      | Some _ => with_arrays (insert a xs) (next_aref w) w
      | None => w
      end
  end.

Definition run (tr : list Event) (w : World) : World :=
  fold_left (fun w e => exec e w) tr w.

(** [new AgentScheduler()] at time [t0]. *)
Definition initial (t0 : Z) : World :=
  {| jobs := []; running := false; objects := ∅; next_loc := 0%nat;
     timers := ∅; next_timeout := 0%nat; arrays := ∅; next_aref := 0%nat;
     inflight := []; clock := t0; effects := [] |}.

Inductive reachable : World -> Prop :=
  | reachable_initial t0 : reachable (initial t0)
  | reachable_exec e w : reachable w -> reachable (exec e w).

(** *** Views of a world *)

(** The job behind a key, as [getJob] gives it. *)
Definition job_of (w : World) (k : string) : option ScheduledJob :=
  l ← map_get k (jobs w); objects w !! l.

(** [job] has an armed interval: its [intervalId] names an interval of the
    runtime whose callback runs for [job]. *)
Definition armed (w : World) (job : loc) : Prop :=
  exists j h t,
    objects w !! job = Some j /\ intervalId j = Some h /\
    timers w !! h = Some t /\ t_job t = job.

(** The intervals of the runtime whose callback runs for [job]. *)
Definition timers_of (w : World) (job : loc) : list (Timeout * Timer) :=
  filter (fun ht => t_job (snd ht) = job) (map_to_list (timers w)).

(** What a caller can observe of the registry: the flag and the jobs in
    order, without the timer handle. *)
Definition observable (w : World) : bool * list (string * option ScheduledJob) :=
  (running w,
   map (fun kl => (fst kl, set_intervalId None <$> objects w !! snd kl)) (jobs w)).


(** *** The two timer transitions of the class, as world transformers

    [arm] is what [startJob] does to the world and [disarm] is the shared
    body of [stop] and [disableJob]; the lemmas [startJob_eq] and
    [disarm_eq] tie them to the code. *)

Definition arm (job : loc) (w : World) : World :=
  let j := objects w !!! job in
  let h := next_timeout w in
  let p := parseSchedule (schedule j) in
  with_objects
    (fun m => alter (set_nextRun (Some (clock w + p))) job
                (alter (set_intervalId (Some h)) job m))
    (next_loc w)
    (with_timers
       (fun m => <[h := {| t_job := job; t_period := timer_delay p |}]>
                   (match intervalId j with
                    | Some h0 => delete h0 m
                    | None => m
                    end))
       (S h) w).

Definition disarm (job : loc) (w : World) : World :=
  match intervalId (objects w !!! job) with
  | Some h =>
      with_objects (alter (set_intervalId None) job) (next_loc w)
        (with_timers (delete h) (next_timeout w) w)
  | None => w
  end.

(** The loops of [start] and [stop] and the remaining methods, written as
    world transformers ([start_eq], [stop_eq], [addJob_eq], ...). *)

Definition start_step (w : World) (job : loc) : World :=
  if enabled (objects w !!! job) then arm job w else w.

Definition started (w : World) : World :=
  fold_left start_step (map_values (jobs w)) (with_running true w).

Definition stopped (w : World) : World :=
  fold_left (fun w job => disarm job w) (map_values (jobs w))
    (with_running false w).

Definition new_job (id0 name0 schedule0 : string) (action0 : Action) (now : Z)
    : ScheduledJob :=
  {| id := id0; name := name0; schedule := schedule0; action := action0;
     enabled := true; lastRun := None;
     nextRun := Some (now + parseSchedule schedule0);
     status := Pending; intervalId := None |}.

Definition added (id0 name0 schedule0 : string) (action0 : Action) (w : World)
    : World :=
  let job := next_loc w in
  let w1 := with_jobs (map_set id0 job)
              (with_objects (insert job (new_job id0 name0 schedule0 action0 (clock w)))
                 (S job) w) in
  if running w then arm job w1 else w1.

Definition removed (id0 : string) (job : loc) (w : World) : World :=
  with_jobs (map_delete id0)
    (match intervalId (objects w !!! job) with
     | Some h => with_timers (delete h) (next_timeout w) w
     | None => w
     end).

Definition enabled_job (job : loc) (w : World) : World :=
  let w1 := with_objects (alter (set_enabled true) job) (next_loc w) w in
  if running w then arm job w1 else w1.

Definition disabled_job (job : loc) (w : World) : World :=
  disarm job (with_objects (alter (set_enabled false) job) (next_loc w) w).

(** ** Well-formed worlds *)

Record wf (w : World) : Prop := {
  (* keys of the map are unique *)
  wf_keys : NoDup (map fst (jobs w));
  (* a stored reference points to an object carrying its key *)
  wf_stored : forall k l, (k, l) ∈ jobs w ->
    exists j, objects w !! l = Some j /\ id j = k;
  (* the handle kept by a stored job names an armed interval of that job *)
  wf_handle : forall k l j h, (k, l) ∈ jobs w ->
    objects w !! l = Some j -> intervalId j = Some h ->
    exists t, timers w !! h = Some t /\ t_job t = l;
  (* an armed interval is the one its job object remembers *)
  wf_timers : forall h t, timers w !! h = Some t ->
    exists j, objects w !! t_job t = Some j /\ intervalId j = Some h;
  (* allocation counters are ahead of everything handed out *)
  wf_fresh_timer : forall h t, timers w !! h = Some t -> (h < next_timeout w)%nat;
  wf_fresh_handle : forall l j h, objects w !! l = Some j ->
    intervalId j = Some h -> (h < next_timeout w)%nat;
  wf_fresh_loc : forall l j, objects w !! l = Some j -> (l < next_loc w)%nat
}.

(** Arm/disarm parity of the stored jobs, against a given running flag. *)
Definition parity (r : bool) (w : World) : Prop :=
  forall k l j, (k, l) ∈ jobs w -> objects w !! l = Some j ->
    (is_Some (intervalId j) <-> r = true /\ enabled j = true).

(** A field update that leaves [id] and [intervalId] alone; it is quiet when
    it leaves [enabled] alone as well, as the timer callback's updates of
    [status] and [lastRun] do. *)
Definition keeps_handle (f : ScheduledJob -> ScheduledJob) : Prop :=
  forall j, id (f j) = id j /\ intervalId (f j) = intervalId j.

Definition quiet (f : ScheduledJob -> ScheduledJob) : Prop :=
  keeps_handle f /\ forall j, enabled (f j) = enabled j.

(** [w'] differs from [w] in the registry by such an update of one object. *)
Definition field_update (P : (ScheduledJob -> ScheduledJob) -> Prop)
    (job : loc) (w w' : World) : Prop :=
  jobs w' = jobs w /\ running w' = running w /\ timers w' = timers w /\
  next_timeout w' = next_timeout w /\ next_loc w' = next_loc w /\
  exists f, P f /\ objects w' = alter f job (objects w).

(** How the objects of [w'] relate to those of [w] during the loop of
    [start] (handles only appear, and only on enabled jobs, at or above
    [n0]) and during the loop of [stop] (handles only disappear). *)
Definition arming (n0 : Timeout) (w w' : World) : Prop :=
  forall l j', objects w' !! l = Some j' ->
    exists j, objects w !! l = Some j /\ enabled j' = enabled j /\
      (intervalId j' = intervalId j \/
       (enabled j = true /\ exists h, intervalId j' = Some h /\ (n0 <= h)%nat)).

(** Intervals armed before the loop began are only ever taken away. *)
Definition timers_grow (w w' : World) : Prop :=
  (next_timeout w <= next_timeout w')%nat /\
  forall h t, timers w' !! h = Some t -> (h < next_timeout w)%nat ->
    timers w !! h = Some t.

Definition disarming (w w' : World) : Prop :=
  forall l j', objects w' !! l = Some j' ->
    exists j, objects w !! l = Some j /\ enabled j' = enabled j /\
      (intervalId j' = intervalId j \/ intervalId j' = None).

Definition armed_from (n0 : Timeout) (l : loc) (w : World) : Prop :=
  forall j, objects w !! l = Some j -> enabled j = true ->
    exists h, intervalId j = Some h /\ (n0 <= h)%nat.

Definition unarmed (l : loc) (w : World) : Prop :=
  forall j, objects w !! l = Some j -> intervalId j = None.

(** What [start] does to the observable part of a job: [nextRun] is
    recomputed for the stored jobs that are enabled. *)
Definition rearmed_view (now : Z) (stored : bool) (o : ScheduledJob) : ScheduledJob :=
  if stored && enabled o
  then set_nextRun (Some (now + parseSchedule (schedule o))) o
  else o.

(** The state of the registry proper: the map, the flag, the job objects
    and the armed intervals. *)
Definition registry (w : World)
    : list (string * loc) * bool * gmap loc ScheduledJob * gmap Timeout Timer :=
  (jobs w, running w, objects w, timers w).

(** Array references handed out so far are behind the allocation counter. *)
Definition arrays_fresh (w : World) : Prop :=
  forall a xs, arrays w !! a = Some xs -> (a < next_aref w)%nat.

(** ** Further properties of worlds *)

(** Every armed interval repeats with the period its job's schedule gives. *)
Definition periods_ok (w : World) : Prop :=
  forall h t, timers w !! h = Some t ->
    exists j, objects w !! t_job t = Some j /\
              t_period t = timer_delay (parseSchedule (schedule j)).

(** A property of every job object of the store, stored in the map or not. *)
Definition all_objects (Q : ScheduledJob -> Prop) (w : World) : Prop :=
  forall l j, objects w !! l = Some j -> Q j.

(** Every object of [w] is still there in [w'], related by [P]. *)
Definition evolves (P : ScheduledJob -> ScheduledJob -> Prop) (w w' : World) : Prop :=
  forall l j, objects w !! l = Some j ->
    exists j', objects w' !! l = Some j' /\ P j j'.

(** The fields no code path assigns after [addJob] built the object. *)
Definition same_identity (j j' : ScheduledJob) : Prop :=
  id j' = id j /\ name j' = name j /\ schedule j' = schedule j /\
  action j' = action j.

(** The fields only the timer callback assigns. *)
Definition same_outcome (j j' : ScheduledJob) : Prop :=
  status j' = status j /\ lastRun j' = lastRun j.

(** What the status and the timestamps of a job can look like. *)
Definition status_ok (j : ScheduledJob) : Prop :=
  status j <> Cancelled /\
  (status j = Pending -> lastRun j = None) /\
  (status j = Completed -> is_Some (lastRun j)) /\
  is_Some (nextRun j).

(** Every armed interval runs for a job that is in the registry. *)
Definition no_leak (w : World) : Prop :=
  forall h t, timers w !! h = Some t -> exists k, (k, t_job t) ∈ jobs w.

(** Hosts that never call [addJob] on an id that is present while the
    scheduler is running. *)
Definition guarded (e : Event) (w : World) : bool :=
  match e with
  | Call (CallAddJob i _ _ _) =>
      negb (bool_decide (is_Some (map_get i (jobs w)))) || negb (running w)
  | _ => true
  end.

Inductive reachable_guarded : World -> Prop :=
  | reachable_guarded_initial t0 : reachable_guarded (initial t0)
  | reachable_guarded_exec e w :
      reachable_guarded w -> guarded e w = true ->
      reachable_guarded (exec e w).

(** A character the grammar of schedules has no use for. *)
Definition foreign (c : ascii) : bool := negb (is_digit c) && negb (is_unit c).

Fixpoint all_guarded (tr : list Event) (w : World) : bool :=
  match tr with
  | [] => true
  | e :: tr' => guarded e w && all_guarded tr' (exec e w)
  end.

(** Every armed interval runs for a job object that is enabled. *)
Definition armed_enabled (w : World) : Prop :=
  forall h t j, timers w !! h = Some t -> objects w !! t_job t = Some j ->
    enabled j = true.

(** What [enableJob] does to the observable part of the job it names. *)
Definition enable_view (r : bool) (now : Z) (o : ScheduledJob) : ScheduledJob :=
  if r
  then set_nextRun (Some (now + parseSchedule (schedule o))) (set_enabled true o)
  else set_enabled true o.

(** ** The numbers as the source computes them

    [parseSchedule] and [calculateNextRun] in IEEE double arithmetic.  All
    values that occur are integers or infinite, so a number is an integer
    or an infinity, and every operation rounds its exact result to the
    nearest double, ties to even. *)

Module Double.

Inductive Number := Finite (z : Z) | PosInfinity | NegInfinity.

(** The double nearest to a non-negative integer. *)
Definition round_nonneg (z : Z) : Number :=
  if z <? 2 ^ 53 then Finite z
  else
    let e := Z.log2 z - 52 in
    let q := z / 2 ^ e in
    let r := z mod 2 ^ e in
    let half := 2 ^ (e - 1) in
    let q' := if (half <? r) || ((r =? half) && Z.odd q) then q + 1 else q in
    if 2 ^ 1024 <=? q' * 2 ^ e then PosInfinity else Finite (q' * 2 ^ e).

Definition round (z : Z) : Number :=
  if z <? 0
  then match round_nonneg (- z) with
       | Finite v => Finite (- v)
       | _ => NegInfinity
       end
  else round_nonneg z.

(** [a * c] for a positive integer constant [c]. *)
Definition mul (a : Number) (c : Z) : Number :=
  match a with
  | Finite x => round (x * c)
  | PosInfinity => PosInfinity
  | NegInfinity => NegInfinity
  end.

(** [x + b] for an integer [x] that is a double, such as a time value. *)
Definition add (x : Z) (b : Number) : Number :=
  match b with
  | Finite y => round (x + y)
  | PosInfinity => PosInfinity
  | NegInfinity => NegInfinity
  end.

(** [parseInt] on a string of decimal digits, as V8 computes it: the double
    nearest to the decimal value. *)
Definition parseInt (ds : list ascii) : Number := round (Schedule.parseInt ds).

Definition parseSchedule (schedule : string) : Number :=
  match regex_match schedule with
  | None => Finite 60000
  | Some (ds, g2) =>
      let value := parseInt ds in
      let unit := match g2 with Some u => u | None => "m"%char end in
      if Ascii.eqb unit "m" then mul (mul value 60) 1000
      else if Ascii.eqb unit "h" then mul (mul (mul value 60) 60) 1000
      else if Ascii.eqb unit "d" then mul (mul (mul (mul value 24) 60) 60) 1000
      else mul (mul value 60) 1000
  end.

(** [Date.now() + this.parseSchedule(schedule)], with [now] what [Date.now()]
    returned. *)
Definition calculateNextRun (now : Z) (schedule : string) : Number :=
  add now (parseSchedule schedule).

(** The period Node arms for a delay. *)
Definition delay (after : Number) : Z :=
  match after with
  | Finite z => timer_delay z
  | PosInfinity | NegInfinity => 1
  end.

(** A number that is at least [2 ^ 53]. *)
Definition huge (a : Number) : Prop :=
  match a with
  | Finite v => 2 ^ 53 <= v
  | PosInfinity => True
  | NegInfinity => False
  end.

(** How a number of the source relates to the exact value of the same
    expression: equal while the exact value is below [2 ^ 53], and at
    least [2 ^ 53] otherwise. *)
Definition tracks (exact : Z) (a : Number) : Prop :=
  (exact < 2 ^ 53 /\ a = Finite exact) \/ (2 ^ 53 <= exact /\ huge a).

End Double.

(** Where integers are doubles and double arithmetic on them is exact. *)
Definition safe_integer (z : Z) : Prop :=
  - MAX_SAFE_INTEGER <= z <= MAX_SAFE_INTEGER.

(** [now + parseSchedule schedule] is computed exactly by the source. *)
Definition exact_nextRun (now : Z) (schedule : string) : Prop :=
  safe_integer now /\ parseSchedule schedule <= MAX_SAFE_INTEGER /\
  now + parseSchedule schedule <= MAX_SAFE_INTEGER.
(** * Interval parsing *)

Section Parsing.

Local Open Scope char_scope.

Lemma span_digits_app (ds rest : list ascii) :
  Forall (fun c => is_digit c = true) ds ->
  (forall c rest', rest = c :: rest' -> is_digit c = false) ->
  span_digits (ds ++ rest) = (ds, rest).
Proof.
  intros Hds Hrest. induction Hds as [|c ds Hc _ IH]; cbn [app span_digits].
  - destruct rest as [|c rest']; [reflexivity|].
    cbn [span_digits]. by rewrite (Hrest c rest').
  - by rewrite Hc, IH.
Qed.

Lemma span_digits_inv (cs ds rest : list ascii) :
  span_digits cs = (ds, rest) ->
  cs = ds ++ rest /\ Forall (fun c => is_digit c = true) ds.
Proof.
  revert ds rest. induction cs as [|c cs IH]; intros ds rest; cbn [span_digits].
  - intros [= <- <-]. by split.
  - destruct (is_digit c) eqn:Hc.
    + destruct (span_digits cs) as [ds' rest'] eqn:Hsp.
      intros [= <- <-]. destruct (IH _ _ eq_refl) as [-> Hall].
      split; [reflexivity | by constructor].
    + intros [= <- <-]. by split.
Qed.

Lemma is_unit_inv (c : ascii) :
  is_unit c = true -> c = "m" \/ c = "h" \/ c = "d".
Proof.
  unfold is_unit. intros H.
  apply orb_true_iff in H as [H|H]; [apply orb_true_iff in H as [H|H]|];
    apply Ascii.eqb_eq in H; auto.
Qed.

Lemma regex_match_sound (s : string) ds u :
  regex_match s = Some (ds, u) -> Grammar s ds u.
Proof.
  unfold regex_match, Grammar.
  destruct (span_digits (list_ascii_of_string s)) as [ds' rest] eqn:Hsp.
  apply span_digits_inv in Hsp as [-> Hall].
  destruct ds' as [|d ds']; [done|].
  destruct rest as [|c [|c' rest]]; [| |done].
  - intros [= <- <-]. repeat split; auto.
  - destruct (is_unit c) eqn:Hu; [|done].
    intros [= <- <-]. repeat split; auto.
    apply is_unit_inv in Hu as [->| [->| ->]]; auto.
Qed.

Lemma regex_match_complete (s : string) ds u :
  Grammar s ds u -> regex_match s = Some (ds, u).
Proof.
  intros (Hne & Hall & Hu & Hs). unfold regex_match.
  rewrite Hs, span_digits_app; [| done |].
  - destruct ds; [done|].
    destruct Hu as [->| [->| [->| ->]]]; reflexivity.
  - intros c rest' Hrest.
    destruct Hu as [->| [->| [->| ->]]]; simpl in Hrest;
      try discriminate; injection Hrest as <- _; reflexivity.
Qed.

Lemma regex_match_None (s : string) :
  regex_match s = None <-> ~ exists ds u, Grammar s ds u.
Proof.
  split.
  - intros Hnone (ds & u & HG).
    apply regex_match_complete in HG. congruence.
  - intros Hno. destruct (regex_match s) as [[ds u]|] eqn:Hm; [|done].
    exfalso. apply Hno. exists ds, u. by apply regex_match_sound.
Qed.

Lemma parseInt_fold (ds : list ascii) (acc : Z) :
  fold_left (fun a c => a * 10 + digit_val c) ds acc
  = acc * 10 ^ Z.of_nat (length ds) + decimal_value ds.
Proof.
  revert acc. induction ds as [|c ds IH]; intros acc.
  - simpl. lia.
  - cbn [fold_left decimal_value length]. rewrite IH.
    rewrite Nat2Z.inj_succ, Z.pow_succ_r by lia. ring.
Qed.

Lemma parseInt_decimal_value (ds : list ascii) :
  parseInt ds = decimal_value ds.
Proof. unfold parseInt. rewrite parseInt_fold. lia. Qed.

Lemma digit_val_range (c : ascii) :
  is_digit c = true -> 0 <= digit_val c <= 9.
Proof.
  unfold is_digit, digit_val. intros H.
  apply andb_true_iff in H as [H1 H2].
  apply N.leb_le in H1, H2. lia.
Qed.

Lemma decimal_value_nonneg (ds : list ascii) :
  Forall (fun c => is_digit c = true) ds -> 0 <= decimal_value ds.
Proof.
  induction 1 as [|c ds Hc _ IH]; simpl; [lia|].
  apply digit_val_range in Hc.
  assert (0 <= 10 ^ Z.of_nat (length ds)) by (apply Z.pow_nonneg; lia).
  nia.
Qed.

Lemma parseSchedule_matched (s : string) ds u :
  Grammar s ds u -> parseSchedule s = decimal_value ds * unit_ms u.
Proof.
  intros HG. pose proof HG as (_ & _ & Hu & _).
  unfold parseSchedule. rewrite (regex_match_complete _ _ _ HG).
  rewrite parseInt_decimal_value.
  destruct Hu as [->| [->| [->| ->]]]; simpl; lia.
Qed.

Lemma parseSchedule_nonneg (s : string) : 0 <= parseSchedule s.
Proof.
  destruct (regex_match s) as [[ds u]|] eqn:Hm.
  - apply regex_match_sound in Hm.
    rewrite (parseSchedule_matched _ _ _ Hm).
    destruct Hm as (_ & Hall & Hu & _).
    apply decimal_value_nonneg in Hall.
    destruct Hu as [->| [->| [->| ->]]]; simpl; lia.
  - unfold parseSchedule. rewrite Hm. lia.
Qed.

End Parsing.

(** * Double arithmetic against exact arithmetic *)

Section Doubles.

Import Double.

Lemma round_small (z : Z) :
  - 2 ^ 53 < z < 2 ^ 53 -> round z = Finite z.
Proof.
  intros Hz. unfold round, round_nonneg.
  destruct (Z.ltb_spec z 0).
  - destruct (Z.ltb_spec (- z) (2 ^ 53)); [|lia]. f_equal. lia.
  - destruct (Z.ltb_spec z (2 ^ 53)); [done|lia].
Qed.

Lemma round_huge (z : Z) : 2 ^ 53 <= z -> huge (round z).
Proof.
  intros Hz. unfold round, round_nonneg.
  destruct (Z.ltb_spec z 0); [lia|].
  destruct (Z.ltb_spec z (2 ^ 53)); [lia|].
  set (e := Z.log2 z - 52). cbv zeta.
  assert (Hlog : 53 <= Z.log2 z) by (apply Z.log2_le_pow2; lia).
  assert (He : 1 <= e) by (unfold e; lia).
  assert (Hq : 2 ^ 52 <= z / 2 ^ e).
  { apply Z.div_le_lower_bound; [apply Z.pow_pos_nonneg; lia|].
    rewrite Z.mul_comm, <- Z.pow_add_r by lia.
    replace (52 + e) with (Z.log2 z) by (unfold e; lia).
    apply Z.log2_spec. lia. }
  assert (Hpow : 2 <= 2 ^ e).
  { change 2 with (2 ^ 1) at 1. apply Z.pow_le_mono_r; lia. }
  assert (Hq' : forall b : bool,
            2 ^ 53 <= (if b then z / 2 ^ e + 1 else z / 2 ^ e) * 2 ^ e).
  { intros b. change (2 ^ 53) with (2 ^ 52 * 2). destruct b; nia. }
  match goal with |- context [if ?b then z / 2 ^ e + 1 else z / 2 ^ e] =>
    specialize (Hq' b); destruct (Z.leb_spec (2 ^ 1024)
      ((if b then z / 2 ^ e + 1 else z / 2 ^ e) * 2 ^ e)) end; [done|].
  exact Hq'.
Qed.

Lemma tracks_round (z : Z) : 0 <= z -> tracks z (round z).
Proof.
  intros Hz. destruct (Z.lt_ge_cases z (2 ^ 53)).
  - left. split; [done|]. apply round_small. lia.
  - right. split; [done|]. by apply round_huge.
Qed.

Lemma tracks_mul (x : Z) (a : Number) (c : Z) :
  0 <= x -> 1 <= c -> tracks x a -> tracks (x * c) (mul a c).
Proof.
  intros Hx Hc [[Hlt ->]|[Hge Hhuge]].
  - cbn [mul]. apply tracks_round. nia.
  - right. split; [nia|].
    destruct a as [v| |]; cbn [mul huge] in *; [|done|done].
    apply round_huge. nia.
Qed.

Lemma tracks_exact (x : Z) (a : Number) :
  tracks x a -> x <= MAX_SAFE_INTEGER -> a = Finite x.
Proof.
  intros [[_ ->]|[Hge _]] Hle; [done|].
  unfold MAX_SAFE_INTEGER in Hle. lia.
Qed.

Lemma tracks_delay (x : Z) (a : Number) :
  tracks x a -> delay a = timer_delay x.
Proof.
  intros [[_ ->]|[Hge Hhuge]]; [done|].
  assert (Hpow : 2 ^ 31 - 1 < 2 ^ 53) by reflexivity.
  assert (Hx : timer_delay x = 1).
  { unfold timer_delay, TIMEOUT_MAX.
    destruct (Z.leb_spec x (2 ^ 31 - 1)); [lia|]. by rewrite andb_false_r. }
  rewrite Hx. destruct a as [v| |]; cbn [delay huge] in *; [|done|done].
  unfold timer_delay, TIMEOUT_MAX.
  destruct (Z.leb_spec v (2 ^ 31 - 1)); [lia|]. by rewrite andb_false_r.
Qed.

(** The source's [parseSchedule] follows the exact one: it is the same
    number below [2 ^ 53], and at least [2 ^ 53] where the exact one is. *)
Lemma parseSchedule_tracks (s : string) :
  tracks (Schedule.parseSchedule s) (Double.parseSchedule s).
Proof.
  unfold Schedule.parseSchedule, Double.parseSchedule, Double.parseInt.
  destruct (regex_match s) as [[ds g2]|] eqn:Hm; [|by left].
  apply regex_match_sound in Hm as (_ & Hall & _).
  apply decimal_value_nonneg in Hall. rewrite <- parseInt_decimal_value in Hall.
  pose proof Hall as Hv.
  pose proof (tracks_round _ Hv) as Ht.
  destruct (Ascii.eqb _ "m"); [|destruct (Ascii.eqb _ "h");
                                 [|destruct (Ascii.eqb _ "d")]].
  all: repeat (apply tracks_mul; [nia|lia|]); exact Ht.
Qed.

Lemma parseSchedule_exact (s : string) :
  Schedule.parseSchedule s <= MAX_SAFE_INTEGER ->
  Double.parseSchedule s = Finite (Schedule.parseSchedule s).
Proof. apply tracks_exact, parseSchedule_tracks. Qed.

(** The period Node arms for the source's delay is the one the world
    arms, for every schedule. *)
Lemma parseSchedule_delay (s : string) :
  delay (Double.parseSchedule s) = timer_delay (Schedule.parseSchedule s).
Proof. apply tracks_delay, parseSchedule_tracks. Qed.

Lemma calculateNextRun_exact (now : Z) (s : string) :
  exact_nextRun now s ->
  Double.calculateNextRun now s = Finite (now + Schedule.parseSchedule s).
Proof.
  intros ([Hlo Hhi] & Hp & Hsum). unfold Double.calculateNextRun.
  rewrite (parseSchedule_exact _ Hp). cbn [add].
  pose proof (parseSchedule_nonneg s).
  apply round_small. unfold MAX_SAFE_INTEGER in *. lia.
Qed.

Lemma timer_delay_range (after : Z) : 1 <= timer_delay after <= TIMEOUT_MAX.
Proof.
  unfold timer_delay.
  destruct (Z.leb_spec 1 after), (Z.leb_spec after TIMEOUT_MAX);
    cbn [andb]; unfold TIMEOUT_MAX in *; lia.
Qed.

Lemma timer_delay_in_range (after : Z) :
  1 <= after <= TIMEOUT_MAX -> timer_delay after = after.
Proof.
  intros [H1 H2]. unfold timer_delay.
  destruct (Z.leb_spec 1 after), (Z.leb_spec after TIMEOUT_MAX); [done|lia..].
Qed.

End Doubles.

(** * The methods as world transformers *)

#[local] Set Warnings "-clear-no-such-hyp".

Ltac wsimpl :=
  cbn [jobs running objects next_loc timers next_timeout arrays next_aref
       inflight clock effects with_jobs with_running with_objects with_timers
       with_arrays with_inflight with_clock with_effect fst snd] in *.

Lemma startJob_eq (job : loc) (w : World) :
  startJob job w = (Normal tt, arm job w).
Proof.
  unfold startJob, arm, mbind, M_bind, load, gets.
  destruct (intervalId (objects w !!! job)); reflexivity.
Qed.

Lemma for_each_fold {A} (g : World -> A -> World) (body : A -> M unit) xs w :
  (forall x w', body x w' = (Normal tt, g w' x)) ->
  for_each xs body w = (Normal tt, fold_left g xs w).
Proof.
  intros Hbody. revert w. induction xs as [|x xs IH]; intros w; [done|].
  cbn [for_each fold_left]. unfold mbind, M_bind. by rewrite Hbody, IH.
Qed.

Lemma disarm_eq (job : loc) (w : World) :
  (j ← load job;
   match intervalId j with
   | Some h => clearInterval h ;; store job (set_intervalId None)
   | None => mret tt
   end) w = (Normal tt, disarm job w).
Proof.
  unfold disarm, mbind, M_bind, load, gets.
  destruct (intervalId (objects w !!! job)); reflexivity.
Qed.

Lemma start_eq (w : World) : start w = (Normal tt, started w).
Proof.
  unfold start, started, mbind at 1 2, M_bind, modify, gets.
  apply for_each_fold. intros job w'.
  unfold start_step, mbind, M_bind, load, gets.
  destruct (enabled (objects w' !!! job)); [apply startJob_eq | reflexivity].
Qed.

Lemma stop_eq (w : World) : stop w = (Normal tt, stopped w).
Proof.
  unfold stop, stopped, mbind at 1 2, M_bind, modify, gets.
  apply for_each_fold. intros job w'. apply disarm_eq.
Qed.

Lemma addJob_eq id0 name0 schedule0 action0 (w : World) :
  addJob id0 name0 schedule0 action0 w
  = (Normal (next_loc w), added id0 name0 schedule0 action0 w).
Proof.
  unfold addJob, added, calculateNextRun, mbind, M_bind, mret, M_ret,
    date_now, gets, new_object, modify.
  cbv beta iota zeta. wsimpl. destruct (running w); [|reflexivity].
  by rewrite startJob_eq.
Qed.

Lemma removeJob_eq id0 (w : World) :
  removeJob id0 w
  = match map_get id0 (jobs w) with
    | Some job => (Normal true, removed id0 job w)
    | None => (Normal false, w)
    end.
Proof.
  unfold removeJob, removed, mbind, M_bind, load, gets, jobs_delete.
  destruct (map_get id0 (jobs w)) as [job|] eqn:Hget; [|reflexivity].
  assert (Hd : bool_decide (is_Some (map_get id0 (jobs w))) = true).
  { apply bool_decide_eq_true_2. rewrite Hget. eauto. }
  destruct (intervalId (objects w !!! job)); unfold clearInterval, modify,
    mret, M_ret; cbv beta iota zeta; wsimpl; by rewrite Hd.
Qed.

Lemma enableJob_eq id0 (w : World) :
  enableJob id0 w
  = match map_get id0 (jobs w) with
    | Some job => (Normal true, enabled_job job w)
    | None => (Normal false, w)
    end.
Proof.
  unfold enableJob, enabled_job, mbind, M_bind, gets, store, modify.
  destruct (map_get id0 (jobs w)) as [job|]; [|reflexivity].
  cbv beta iota zeta. wsimpl. destruct (running w); [|reflexivity].
  by rewrite startJob_eq.
Qed.

Lemma disableJob_eq id0 (w : World) :
  disableJob id0 w
  = match map_get id0 (jobs w) with
    | Some job => (Normal true, disabled_job job w)
    | None => (Normal false, w)
    end.
Proof.
  unfold disableJob, disabled_job, disarm, mbind, M_bind, mret, M_ret,
    store, load, clearInterval, modify, gets.
  destruct (map_get id0 (jobs w)) as [job|]; [|reflexivity].
  cbv beta iota zeta. wsimpl.
  destruct (intervalId _); reflexivity.
Qed.

(** ** Arming an interval *)

Section Arm.

Variables (job : loc) (w : World) (j : ScheduledJob).
Hypothesis Hjob : objects w !! job = Some j.

Let armed_job : ScheduledJob :=
  set_nextRun (Some (clock w + parseSchedule (schedule j)))
    (set_intervalId (Some (next_timeout w)) j).

Lemma arm_objects (l : loc) :
  objects (arm job w) !! l
  = if decide (job = l) then Some armed_job else objects w !! l.
Proof.
  unfold arm. wsimpl. rewrite (lookup_total_correct _ _ _ Hjob).
  destruct (decide (job = l)) as [<-|Hne].
  - by rewrite !lookup_alter_eq, Hjob.
  - by rewrite !lookup_alter_ne.
Qed.

Lemma arm_timers (h : Timeout) (t : Timer) :
  timers (arm job w) !! h = Some t <->
  (h = next_timeout w /\
   t = {| t_job := job;
          t_period := timer_delay (parseSchedule (schedule j)) |}) \/
  (h <> next_timeout w /\ intervalId j <> Some h /\ timers w !! h = Some t).
Proof.
  unfold arm. wsimpl. rewrite (lookup_total_correct _ _ _ Hjob).
  rewrite lookup_insert_Some.
  destruct (intervalId j) as [h0|].
  - rewrite lookup_delete_Some. naive_solver.
  - naive_solver.
Qed.

Lemma arm_frame :
  jobs (arm job w) = jobs w /\ running (arm job w) = running w /\
  next_loc (arm job w) = next_loc w /\
  next_timeout (arm job w) = S (next_timeout w) /\
  arrays (arm job w) = arrays w /\ next_aref (arm job w) = next_aref w /\
  inflight (arm job w) = inflight w /\ clock (arm job w) = clock w /\
  effects (arm job w) = effects w.
Proof. by repeat split. Qed.

(** Arming keeps a world well formed, provided the handle the job already
    holds, if armed at all, is armed for this very job. *)
Lemma arm_wf :
  wf w ->
  (forall h0 t, intervalId j = Some h0 -> timers w !! h0 = Some t -> t_job t = job) ->
  wf (arm job w).
Proof.
  intros Hwf Hown. destruct arm_frame as (Hj & _ & Hl & Ht & _).
  split.
  - rewrite Hj. apply Hwf.
  - intros k l Hin. rewrite Hj in Hin. rewrite arm_objects.
    destruct (wf_stored _ Hwf k l Hin) as (j' & Hl' & Hid).
    case_decide as Heq; [|eauto].
    subst l. exists armed_job. split; [done|]. simpl. congruence.
  - intros k l j' h Hin. rewrite Hj in Hin. rewrite arm_objects.
    case_decide as Heq.
    + subst l. intros [= <-] [= <-].
      exists {| t_job := job;
                t_period := timer_delay (parseSchedule (schedule j)) |}.
      split; [|reflexivity]. apply arm_timers. by left.
    + intros Hl' Hh.
      destruct (wf_handle _ Hwf k l j' h Hin Hl' Hh) as (t & Hth & Htl).
      exists t. split; [|done]. apply arm_timers. right.
      split; [|split; [|done]].
      * apply (wf_fresh_timer _ Hwf) in Hth. lia.
      * intros Hh0. apply Heq. rewrite <- Htl. symmetry. by eapply Hown.
  - intros h t Hth. apply arm_timers in Hth as [[-> ->]|(Hne & Hne0 & Hth)].
    + exists armed_job. rewrite arm_objects. simpl.
      by rewrite decide_True.
    + destruct (wf_timers _ Hwf h t Hth) as (j' & Hl' & Hh).
      rewrite arm_objects. case_decide as Heq; [|eauto].
      rewrite <- Heq in Hl'. congruence.
  - intros h t Hth. rewrite Ht.
    apply arm_timers in Hth as [[-> _]|(_ & _ & Hth)]; [lia|].
    apply (wf_fresh_timer _ Hwf) in Hth. lia.
  - intros l j' h. rewrite arm_objects, Ht. case_decide.
    + intros [= <-] [= <-]. lia.
    + intros Hl' Hh. pose proof (wf_fresh_handle _ Hwf _ _ _ Hl' Hh). lia.
  - intros l j'. rewrite arm_objects, Hl. case_decide.
    + subst l. intros _. by eapply wf_fresh_loc.
    + by apply wf_fresh_loc.
Qed.

End Arm.

(** ** The insertion-ordered map *)

Section JsMap.

Implicit Types (k : string) (l : loc) (m : list (string * loc)).

Lemma map_get_elem k l m : map_get k m = Some l -> (k, l) ∈ m.
Proof.
  induction m as [|[k' l'] m IH]; cbn [map_get]; [done|].
  destruct (String.eqb_spec k k') as [->|Hne].
  - intros [= ->]. left.
  - intros Hget. right. auto.
Qed.

Lemma map_get_None k m : map_get k m = None <-> k ∉ map fst m.
Proof.
  induction m as [|[k' l'] m IH]; cbn [map_get map fst].
  - split; [intros _; apply not_elem_of_nil | done].
  - rewrite not_elem_of_cons.
    destruct (String.eqb_spec k k') as [->|Hne]; [|rewrite IH]; naive_solver.
Qed.

Lemma map_set_keys k l m k' :
  k' ∈ map fst (map_set k l m) -> k' = k \/ k' ∈ map fst m.
Proof.
  induction m as [|[k0 l0] m IH]; cbn [map_set map fst].
  - intros Hin. apply list_elem_of_singleton in Hin. by left.
  - destruct (String.eqb_spec k k0) as [->|Hne]; cbn [map fst];
      rewrite !elem_of_cons; naive_solver.
Qed.

Lemma map_set_NoDup k l m :
  NoDup (map fst m) -> NoDup (map fst (map_set k l m)).
Proof.
  induction m as [|[k0 l0] m IH]; cbn [map_set map fst].
  - intros _. apply NoDup_singleton.
  - intros Hnd. apply NoDup_cons in Hnd as [Hnotin Hnd].
    destruct (String.eqb_spec k k0) as [->|Hne]; cbn [map fst];
      apply NoDup_cons; split; auto.
    intros Hin. apply map_set_keys in Hin as [->|Hin]; done.
Qed.

Lemma map_set_elem k l m k' l' :
  NoDup (map fst m) -> (k', l') ∈ map_set k l m ->
  (k' = k /\ l' = l) \/ (k' <> k /\ (k', l') ∈ m).
Proof.
  induction m as [|[k0 l0] m IH]; cbn [map_set map fst].
  - intros _ Hin. apply list_elem_of_singleton in Hin as [= -> ->]. by left.
  - intros Hnd. apply NoDup_cons in Hnd as [Hnotin Hnd].
    destruct (String.eqb_spec k k0) as [->|Hne]; intros Hin;
      apply elem_of_cons in Hin as [[= -> ->]|Hin].
    + by left.
    + right. split; [|by right]. intros ->. apply Hnotin.
      apply (list_elem_of_fmap_2 fst) in Hin. exact Hin.
    + right. split; [done|left].
    + destruct (IH Hnd Hin) as [?|[? ?]]; [by left|right; split; [done|by right]].
Qed.

Lemma map_get_set k l m k' :
  map_get k' (map_set k l m) = if decide (k' = k) then Some l else map_get k' m.
Proof.
  induction m as [|[k0 l0] m IH]; cbn [map_set map_get].
  - destruct (String.eqb_spec k' k); by case_decide.
  - destruct (String.eqb_spec k k0) as [->|Hne]; cbn [map_get].
    + destruct (String.eqb_spec k' k0); by case_decide.
    + rewrite IH. destruct (String.eqb_spec k' k0) as [->|?]; [|done].
      by rewrite decide_False.
Qed.

Lemma map_delete_keys k m k' :
  k' ∈ map fst (map_delete k m) -> k' ∈ map fst m.
Proof.
  induction m as [|[k0 l0] m IH]; cbn [map_delete map fst]; [done|].
  destruct (String.eqb_spec k k0) as [->|Hne]; cbn [map fst];
    rewrite !elem_of_cons; naive_solver.
Qed.

Lemma map_delete_NoDup k m :
  NoDup (map fst m) -> NoDup (map fst (map_delete k m)).
Proof.
  induction m as [|[k0 l0] m IH]; cbn [map_delete map fst]; [done|].
  intros Hnd. apply NoDup_cons in Hnd as [Hnotin Hnd].
  destruct (String.eqb_spec k k0) as [->|Hne]; [done|].
  cbn [map fst]. apply NoDup_cons. split; [|auto].
  intros Hin. by apply map_delete_keys in Hin.
Qed.

Lemma map_delete_elem k m k' l' :
  NoDup (map fst m) -> (k', l') ∈ map_delete k m ->
  k' <> k /\ (k', l') ∈ m.
Proof.
  induction m as [|[k0 l0] m IH]; cbn [map_delete map fst].
  - intros _ Hin. by apply elem_of_nil in Hin.
  - intros Hnd. apply NoDup_cons in Hnd as [Hnotin Hnd].
    destruct (String.eqb_spec k k0) as [->|Hne]; intros Hin.
    + split; [|by right]. intros ->. apply Hnotin.
      apply (list_elem_of_fmap_2 fst) in Hin. exact Hin.
    + apply elem_of_cons in Hin as [[= -> ->]|Hin].
      * split; [done|left].
      * destruct (IH Hnd Hin). split; [done|by right].
Qed.

End JsMap.

(** ** Well-formedness is kept by every transition *)

Lemma wf_ext (w w' : World) :
  jobs w' = jobs w -> objects w' = objects w -> timers w' = timers w ->
  next_timeout w' = next_timeout w -> next_loc w' = next_loc w ->
  wf w -> wf w'.
Proof.
  intros Hj Ho Ht Hnt Hnl [H1 H2 H3 H4 H5 H6 H7].
  split; rewrite ?Hj, ?Ho, ?Ht, ?Hnt, ?Hnl; assumption.
Qed.

Lemma parity_ext r (w w' : World) :
  jobs w' = jobs w -> objects w' = objects w -> parity r w -> parity r w'.
Proof. unfold parity. intros -> ->. auto. Qed.

Lemma field_update_weaken (P Q : (ScheduledJob -> ScheduledJob) -> Prop) job w w' :
  (forall f, P f -> Q f) -> field_update P job w w' -> field_update Q job w w'.
Proof.
  intros HPQ (? & ? & ? & ? & ? & f & Hf & ?).
  repeat split; try done. exists f. auto.
Qed.

Lemma field_update_lookup job w w' l j' :
  field_update keeps_handle job w w' -> objects w' !! l = Some j' ->
  exists j, objects w !! l = Some j /\ id j' = id j /\
            intervalId j' = intervalId j.
Proof.
  intros (_ & _ & _ & _ & _ & f & Hq & Ho). rewrite Ho.
  intros [[-> (j & Hl & ->)]|[_ Hl]]%lookup_alter_Some.
  - exists j. destruct (Hq j) as (? & ?). auto.
  - exists j'. auto.
Qed.

Lemma field_update_lookup_2 job w w' l j :
  field_update keeps_handle job w w' -> objects w !! l = Some j ->
  exists j', objects w' !! l = Some j' /\ id j' = id j /\
             intervalId j' = intervalId j.
Proof.
  intros (_ & _ & _ & _ & _ & f & Hq & Ho) Hl. rewrite Ho.
  destruct (decide (job = l)) as [->|Hne].
  - exists (f j). rewrite lookup_alter_eq, Hl.
    destruct (Hq j) as (? & ?). auto.
  - exists j. by rewrite lookup_alter_ne.
Qed.

Lemma field_update_wf job w w' :
  field_update keeps_handle job w w' -> wf w -> wf w'.
Proof.
  intros Hq Hwf. pose proof Hq as (Hj & _ & Ht & Hnt & Hnl & _).
  split; rewrite ?Hj, ?Ht, ?Hnt, ?Hnl.
  - apply Hwf.
  - intros k l Hin. destruct (wf_stored _ Hwf k l Hin) as (j & Hl & Hid).
    destruct (field_update_lookup_2 _ _ _ _ _ Hq Hl) as (j' & Hl' & Hid' & _).
    exists j'. split; congruence.
  - intros k l j' h Hin Hl' Hh.
    destruct (field_update_lookup _ _ _ _ _ Hq Hl') as (j & Hl & _ & Hi).
    eapply (wf_handle _ Hwf); eauto. congruence.
  - intros h t Hth. destruct (wf_timers _ Hwf h t Hth) as (j & Hl & Hh).
    destruct (field_update_lookup_2 _ _ _ _ _ Hq Hl) as (j' & Hl' & _ & Hi).
    exists j'. split; congruence.
  - apply Hwf.
  - intros l j' h Hl' Hh.
    destruct (field_update_lookup _ _ _ _ _ Hq Hl') as (j & Hl & _ & Hi).
    eapply (wf_fresh_handle _ Hwf); eauto. congruence.
  - intros l j' Hl'.
    destruct (field_update_lookup _ _ _ _ _ Hq Hl') as (j & Hl & _).
    by eapply (wf_fresh_loc _ Hwf).
Qed.

Lemma quiet_update_parity job r w w' :
  field_update quiet job w w' -> parity r w -> parity r w'.
Proof.
  intros (Hj & _ & _ & _ & _ & f & [Hk He] & Ho) Hp k l j' Hin.
  rewrite Hj in Hin. rewrite Ho.
  intros [[-> (j & Hl & ->)]|[_ Hl]]%lookup_alter_Some; [|by eapply Hp].
  rewrite He. destruct (Hk j) as [_ ->]. by eapply Hp.
Qed.

(** The handle of a stored job, when armed at all, is armed for that job. *)
Lemma wf_own_handle (w : World) k l j :
  wf w -> (k, l) ∈ jobs w -> objects w !! l = Some j ->
  forall h t, intervalId j = Some h -> timers w !! h = Some t -> t_job t = l.
Proof.
  intros Hwf Hin Hl h t Hh Hth.
  destruct (wf_handle _ Hwf k l j h Hin Hl Hh) as (t' & Hth' & Htl).
  congruence.
Qed.

(** Two stored references to one object carry the same key. *)
Lemma wf_stored_inj (w : World) k k' l :
  wf w -> (k, l) ∈ jobs w -> (k', l) ∈ jobs w -> k = k'.
Proof.
  intros Hwf Hin Hin'.
  destruct (wf_stored _ Hwf k l Hin) as (j & Hl & Hid).
  destruct (wf_stored _ Hwf k' l Hin') as (j' & Hl' & Hid').
  congruence.
Qed.

(** ** Disarming an interval *)

Section Disarm.

Variables (job : loc) (w : World) (j : ScheduledJob).
Hypothesis Hjob : objects w !! job = Some j.

Lemma disarm_objects (l : loc) :
  objects (disarm job w) !! l
  = if decide (job = l) then Some (set_intervalId None j) else objects w !! l.
Proof.
  unfold disarm. rewrite (lookup_total_correct _ _ _ Hjob).
  destruct (intervalId j) as [h|] eqn:Hh; wsimpl.
  - destruct (decide (job = l)) as [<-|Hne].
    + by rewrite lookup_alter_eq, Hjob.
    + by rewrite lookup_alter_ne.
  - case_decide as Heq; [|done]. subst l. rewrite Hjob. f_equal.
    destruct j. simpl in *. by subst.
Qed.

Lemma disarm_timers (h : Timeout) (t : Timer) :
  timers (disarm job w) !! h = Some t <->
  intervalId j <> Some h /\ timers w !! h = Some t.
Proof.
  unfold disarm. rewrite (lookup_total_correct _ _ _ Hjob).
  destruct (intervalId j) as [h0|]; wsimpl.
  - rewrite lookup_delete_Some. naive_solver.
  - naive_solver.
Qed.

Lemma disarm_frame :
  jobs (disarm job w) = jobs w /\ running (disarm job w) = running w /\
  next_loc (disarm job w) = next_loc w /\
  next_timeout (disarm job w) = next_timeout w /\
  arrays (disarm job w) = arrays w /\ next_aref (disarm job w) = next_aref w /\
  inflight (disarm job w) = inflight w /\ clock (disarm job w) = clock w /\
  effects (disarm job w) = effects w.
Proof. unfold disarm. destruct (intervalId _); by repeat split. Qed.

Lemma disarm_wf :
  wf w ->
  (forall h0 t, intervalId j = Some h0 -> timers w !! h0 = Some t -> t_job t = job) ->
  wf (disarm job w).
Proof.
  intros Hwf Hown. destruct disarm_frame as (Hj & _ & Hl & Ht & _).
  split; rewrite ?Hj, ?Hl, ?Ht.
  - apply Hwf.
  - intros k l Hin. rewrite disarm_objects.
    destruct (wf_stored _ Hwf k l Hin) as (j' & Hl' & Hid).
    case_decide as Heq; [|eauto].
    subst l. eexists. split; [done|]. simpl. congruence.
  - intros k l j' h Hin. rewrite disarm_objects.
    case_decide as Heq; [by intros [= <-]|].
    intros Hl' Hh.
    destruct (wf_handle _ Hwf k l j' h Hin Hl' Hh) as (t & Hth & Htl).
    exists t. split; [|done]. apply disarm_timers. split; [|done].
    intros Hh0. apply Heq. rewrite <- Htl. symmetry. by eapply Hown.
  - intros h t [Hne Hth]%disarm_timers.
    destruct (wf_timers _ Hwf h t Hth) as (j' & Hl' & Hh).
    rewrite disarm_objects. case_decide as Heq; [|eauto].
    rewrite <- Heq in Hl'. congruence.
  - intros h t [_ Hth]%disarm_timers. by eapply wf_fresh_timer.
  - intros l j' h. rewrite disarm_objects. case_decide.
    + by intros [= <-].
    + by apply wf_fresh_handle.
  - intros l j'. rewrite disarm_objects. case_decide.
    + subst l. intros _. by eapply wf_fresh_loc.
    + by apply wf_fresh_loc.
Qed.

End Disarm.

(** [disarm] on a reference that points nowhere changes nothing. *)
Lemma disarm_dangling job w : objects w !! job = None -> disarm job w = w.
Proof.
  intros Hnone. unfold disarm.
  by rewrite lookup_total_alt, Hnone.
Qed.

(** ** [addJob] *)

Section Added.

Variables (id0 name0 schedule0 : string) (action0 : Action) (w : World).

Let job : loc := next_loc w.
Let j0 : ScheduledJob := new_job id0 name0 schedule0 action0 (clock w).
Let w1 : World :=
  with_jobs (map_set id0 job) (with_objects (insert job j0) (S job) w).

Lemma added_unfold :
  added id0 name0 schedule0 action0 w = if running w then arm job w1 else w1.
Proof. reflexivity. Qed.

Lemma registered_wf : wf w -> wf w1.
Proof.
  intros Hwf.
  assert (Hfresh : objects w !! job = None).
  { destruct (objects w !! job) as [j|] eqn:Hl; [|done].
    apply (wf_fresh_loc _ Hwf) in Hl. unfold job in Hl. lia. }
  assert (Hold : forall l j, objects w !! l = Some j -> l <> job).
  { intros l j Hl ->. congruence. }
  split; unfold w1; wsimpl.
  - apply map_set_NoDup, Hwf.
  - intros k l [[-> ->]|[Hne Hin]]%map_set_elem; [| |apply Hwf].
    + exists j0. by rewrite lookup_insert_eq.
    + destruct (wf_stored _ Hwf k l Hin) as (j & Hl & Hid).
      exists j. rewrite lookup_insert_ne; [done|].
      intros Heq. by apply (Hold l j).
  - intros k l j h [[-> ->]|[Hne Hin]]%map_set_elem; [| |apply Hwf].
    + rewrite lookup_insert_eq. by intros [= <-].
    + destruct (wf_stored _ Hwf k l Hin) as (j' & Hl & Hid).
      rewrite lookup_insert_ne; [|intros Heq; by apply (Hold l j')].
      by apply (wf_handle _ Hwf k).
  - intros h t Hth. destruct (wf_timers _ Hwf h t Hth) as (j & Hl & Hh).
    exists j. rewrite lookup_insert_ne; [done|].
    intros Heq. by apply (Hold (t_job t) j).
  - apply Hwf.
  - intros l j h [[<- <-]|[Hne Hl]]%lookup_insert_Some; [done|].
    by apply (wf_fresh_handle _ Hwf l j).
  - intros l j [[<- <-]|[Hne Hl]]%lookup_insert_Some; [lia|].
    apply (wf_fresh_loc _ Hwf) in Hl. lia.
Qed.

Lemma registered_lookup : objects w1 !! job = Some j0.
Proof. unfold w1. wsimpl. apply lookup_insert_eq. Qed.

Lemma added_wf : wf w -> wf (added id0 name0 schedule0 action0 w).
Proof.
  intros Hwf. rewrite added_unfold.
  destruct (running w); [|by apply registered_wf].
  apply (arm_wf _ _ _ registered_lookup); [by apply registered_wf|].
  intros h0 t [=].
Qed.

Lemma registered_parity r :
  wf w -> parity r w ->
  forall k l j, (k, l) ∈ jobs w1 -> l <> job -> objects w1 !! l = Some j ->
    (is_Some (intervalId j) <-> r = true /\ enabled j = true).
Proof.
  intros Hwf Hp k l j Hin Hne. unfold w1 in *. wsimpl.
  rewrite lookup_insert_ne by done. intros Hl.
  apply map_set_elem in Hin as [[-> ->]|[_ Hin]]; [done| |apply Hwf].
  by eapply Hp.
Qed.

Lemma added_parity :
  wf w -> parity (running w) w ->
  parity (running w) (added id0 name0 schedule0 action0 w).
Proof.
  intros Hwf Hp. rewrite added_unfold.
  destruct (running w) eqn:Hr.
  - intros k l j. destruct (arm_frame job w1) as (-> & _).
    rewrite (arm_objects _ _ _ registered_lookup).
    case_decide as Heq.
    + intros _ [= <-]. simpl. split; [done|eauto].
    + intros Hin Hl. eapply registered_parity; eauto.
  - intros k l j Hin Hl. destruct (decide (l = job)) as [->|Hne].
    + rewrite registered_lookup in Hl. injection Hl as <-. simpl.
      split; [by intros [? [=]]|by intros [[=] _]].
    + eapply registered_parity; eauto.
Qed.

End Added.

(** ** [removeJob] *)

Lemma removed_wf id0 job (w : World) :
  map_get id0 (jobs w) = Some job -> wf w -> wf (removed id0 job w).
Proof.
  intros Hget Hwf. apply map_get_elem in Hget as Hin0.
  destruct (wf_stored _ Hwf _ _ Hin0) as (j0 & Hl0 & Hid0).
  assert (Hsub : forall k l, (k, l) ∈ map_delete id0 (jobs w) ->
            (k, l) ∈ jobs w /\ l <> job).
  { intros k l [Hne Hin]%map_delete_elem; [|apply Hwf].
    split; [done|]. intros ->. apply Hne.
    by apply (wf_stored_inj w k id0 job). }
  assert (Hobj : objects (removed id0 job w) = objects w).
  { unfold removed. by destruct (intervalId _). }
  assert (Hnt : next_timeout (removed id0 job w) = next_timeout w).
  { unfold removed. by destruct (intervalId _). }
  assert (Hnl : next_loc (removed id0 job w) = next_loc w).
  { unfold removed. by destruct (intervalId _). }
  assert (Hjobs : jobs (removed id0 job w) = map_delete id0 (jobs w)).
  { unfold removed. by destruct (intervalId _). }
  assert (Htm : forall h t, timers (removed id0 job w) !! h = Some t <->
            intervalId j0 <> Some h /\ timers w !! h = Some t).
  { intros h t. unfold removed.
    rewrite (lookup_total_correct _ _ _ Hl0).
    destruct (intervalId j0) as [h0|]; wsimpl.
    - rewrite lookup_delete_Some. naive_solver.
    - naive_solver. }
  split; rewrite ?Hobj, ?Hnt, ?Hnl, ?Hjobs.
  - apply map_delete_NoDup, Hwf.
  - intros k l [Hin _]%Hsub. by apply (wf_stored _ Hwf).
  - intros k l j h [Hin Hne]%Hsub Hl Hh.
    destruct (wf_handle _ Hwf k l j h Hin Hl Hh) as (t & Hth & Htl).
    exists t. split; [|done]. apply Htm. split; [|done].
    intros Hh0. apply Hne. rewrite <- Htl.
    by apply (wf_own_handle w id0 job j0 Hwf Hin0 Hl0 h t).
  - intros h t [_ Hth]%Htm. by apply (wf_timers _ Hwf).
  - intros h t [_ Hth]%Htm. by eapply wf_fresh_timer.
  - apply Hwf.
  - apply Hwf.
Qed.

Lemma removed_parity r id0 job (w : World) :
  wf w -> parity r w -> parity r (removed id0 job w).
Proof.
  intros Hwf Hp k l j.
  assert (Hobj : objects (removed id0 job w) = objects w).
  { unfold removed. by destruct (intervalId _). }
  assert (Hjobs : jobs (removed id0 job w) = map_delete id0 (jobs w)).
  { unfold removed. by destruct (intervalId _). }
  rewrite Hobj, Hjobs.
  intros [_ Hin]%map_delete_elem Hl; [|apply Hwf]. exact (Hp k l j Hin Hl).
Qed.

(** ** [enableJob] and [disableJob] *)

Lemma set_enabled_update b job (w : World) :
  field_update keeps_handle job w
    (with_objects (alter (set_enabled b) job) (next_loc w) w).
Proof. repeat split; try done. exists (set_enabled b). by split. Qed.

Section Toggle.

Variables (k : string) (job : loc) (w : World) (j : ScheduledJob).
Hypothesis Hwf : wf w.
Hypothesis Hin : (k, job) ∈ jobs w.
Hypothesis Hjob : objects w !! job = Some j.

Let flagged (b : bool) : World :=
  with_objects (alter (set_enabled b) job) (next_loc w) w.

Lemma flagged_wf b : wf (flagged b).
Proof. eapply field_update_wf; [apply set_enabled_update | done]. Qed.

Lemma flagged_lookup b l :
  objects (flagged b) !! l
  = if decide (job = l) then Some (set_enabled b j) else objects w !! l.
Proof.
  unfold flagged. wsimpl. destruct (decide (job = l)) as [<-|Hne].
  - by rewrite lookup_alter_eq, Hjob.
  - by rewrite lookup_alter_ne.
Qed.

Lemma flagged_own b h t :
  intervalId (set_enabled b j) = Some h -> timers (flagged b) !! h = Some t ->
  t_job t = job.
Proof. apply (wf_own_handle w k job j Hwf Hin Hjob). Qed.

Lemma enabled_job_wf : wf (enabled_job job w).
Proof.
  unfold enabled_job. fold (flagged true).
  destruct (running w); [|apply flagged_wf].
  apply (arm_wf _ _ (set_enabled true j)); [|apply flagged_wf|apply flagged_own].
  by rewrite flagged_lookup, decide_True.
Qed.

Lemma enabled_job_parity :
  parity (running w) w -> parity (running w) (enabled_job job w).
Proof.
  intros Hp k' l j'. unfold enabled_job. fold (flagged true).
  assert (Hl0 : objects (flagged true) !! job = Some (set_enabled true j))
    by (by rewrite flagged_lookup, decide_True).
  destruct (running w) eqn:Hr.
  - destruct (arm_frame job (flagged true)) as (-> & _).
    rewrite (arm_objects _ _ _ Hl0). case_decide as Heq.
    + intros _ [= <-]. simpl. split; [done|eauto].
    + rewrite flagged_lookup, decide_False by done.
      intros Hin' Hl. exact (Hp k' l j' Hin' Hl).
  - rewrite flagged_lookup. case_decide as Heq.
    + intros _ [= <-]. simpl. subst l.
      rewrite (Hp k job j Hin Hjob). naive_solver.
    + intros Hin' Hl. exact (Hp k' l j' Hin' Hl).
Qed.

Lemma disabled_job_wf : wf (disabled_job job w).
Proof.
  unfold disabled_job. fold (flagged false).
  apply (disarm_wf _ _ (set_enabled false j));
    [|apply flagged_wf|apply flagged_own].
  by rewrite flagged_lookup, decide_True.
Qed.

Lemma disabled_job_parity r : parity r w -> parity r (disabled_job job w).
Proof.
  intros Hp k' l j'. unfold disabled_job. fold (flagged false).
  assert (Hl0 : objects (flagged false) !! job = Some (set_enabled false j))
    by (by rewrite flagged_lookup, decide_True).
  destruct (disarm_frame job (flagged false)) as (-> & _).
  rewrite (disarm_objects _ _ _ Hl0). case_decide as Heq.
  - intros _ [= <-]. simpl. split; [by intros [? [=]]|by intros [_ [=]]].
  - rewrite flagged_lookup, decide_False by done.
    intros Hin' Hl. exact (Hp k' l j' Hin' Hl).
Qed.

End Toggle.

(** ** The loops of [start] and [stop] *)

Lemma fold_left_loop {A} (g : World -> A -> World)
    (I : World -> Prop) (R : World -> World -> Prop) (Q : A -> World -> Prop)
    (xs : list A) :
  (forall w, R w w) ->
  (forall w1 w2 w3, R w1 w2 -> R w2 w3 -> R w1 w3) ->
  (forall w w' x, R w w' -> Q x w -> Q x w') ->
  (forall w x, x ∈ xs -> I w -> I (g w x) /\ R w (g w x) /\ Q x (g w x)) ->
  forall w, I w ->
    I (fold_left g xs w) /\ R w (fold_left g xs w) /\
    forall x, x ∈ xs -> Q x (fold_left g xs w).
Proof.
  intros Hrefl Htrans Hmono. induction xs as [|x xs IH]; intros Hstep w HI.
  - cbn. repeat split; auto. intros x Hx. by apply elem_of_nil in Hx.
  - cbn [fold_left]. destruct (Hstep w x) as (HI' & HR' & HQ'); [left|done|].
    destruct (IH (fun w y Hy => Hstep w y (list_elem_of_further _ _ _ Hy))
                 (g w x) HI') as (HI'' & HR'' & HQ'').
    split; [done|]. split; [by eapply Htrans|].
    intros y [->|Hy]%elem_of_cons; [by eapply Hmono | auto].
Qed.

Lemma fold_left_preserves {A B} (p : World -> B) (g : World -> A -> World) xs w :
  (forall w' x, p (g w' x) = p w') -> p (fold_left g xs w) = p w.
Proof.
  intros Hstep. revert w. induction xs as [|x xs IH]; intros w; [done|].
  cbn [fold_left]. by rewrite IH, Hstep.
Qed.

Lemma start_step_frame (w : World) job :
  let w' := start_step w job in
  jobs w' = jobs w /\ running w' = running w /\ next_loc w' = next_loc w /\
  arrays w' = arrays w /\ next_aref w' = next_aref w /\
  inflight w' = inflight w /\ clock w' = clock w /\ effects w' = effects w.
Proof. unfold start_step. destruct (enabled _); by repeat split. Qed.

Lemma started_frame (w : World) :
  jobs (started w) = jobs w /\ running (started w) = true /\
  next_loc (started w) = next_loc w /\
  arrays (started w) = arrays w /\ next_aref (started w) = next_aref w /\
  inflight (started w) = inflight w /\ clock (started w) = clock w /\
  effects (started w) = effects w.
Proof.
  unfold started. repeat split.
  all: match goal with |- ?p (fold_left _ _ _) = _ =>
         rewrite (fold_left_preserves p) end; try done.
  all: intros w' x; apply (start_step_frame w' x).
Qed.

Lemma stopped_frame (w : World) :
  jobs (stopped w) = jobs w /\ running (stopped w) = false /\
  next_loc (stopped w) = next_loc w /\
  next_timeout (stopped w) = next_timeout w /\
  arrays (stopped w) = arrays w /\ next_aref (stopped w) = next_aref w /\
  inflight (stopped w) = inflight w /\ clock (stopped w) = clock w /\
  effects (stopped w) = effects w.
Proof.
  unfold stopped. repeat split.
  all: match goal with |- ?p (fold_left _ _ _) = _ =>
         rewrite (fold_left_preserves p) end; try done.
  all: intros w' x; apply (disarm_frame x w').
Qed.

Lemma arming_refl n0 w : arming n0 w w.
Proof. intros l j Hl. exists j. auto. Qed.

Lemma arming_trans n0 w1 w2 w3 :
  arming n0 w1 w2 -> arming n0 w2 w3 -> arming n0 w1 w3.
Proof.
  intros H12 H23 l j3 Hl3.
  destruct (H23 l j3 Hl3) as (j2 & Hl2 & He2 & Hi2).
  destruct (H12 l j2 Hl2) as (j1 & Hl1 & He1 & Hi1).
  exists j1. split; [done|]. split; [congruence|].
  destruct Hi2 as [Hi2|[Hen (h & Hh & Hle)]].
  - rewrite Hi2. destruct Hi1 as [?|[? ?]]; [by left|right]. eauto.
  - right. split; [congruence|eauto].
Qed.

Lemma armed_from_mono n0 w w' l :
  arming n0 w w' -> armed_from n0 l w -> armed_from n0 l w'.
Proof.
  intros Harm Hq j' Hl' Hen'.
  destruct (Harm l j' Hl') as (j & Hl & He & Hi).
  destruct Hi as [Hi|[_ ?]]; [|done].
  rewrite Hi. apply Hq; congruence.
Qed.

Lemma disarming_refl w : disarming w w.
Proof. intros l j Hl. exists j. auto. Qed.

Lemma disarming_trans w1 w2 w3 :
  disarming w1 w2 -> disarming w2 w3 -> disarming w1 w3.
Proof.
  intros H12 H23 l j3 Hl3.
  destruct (H23 l j3 Hl3) as (j2 & Hl2 & He2 & Hi2).
  destruct (H12 l j2 Hl2) as (j1 & Hl1 & He1 & Hi1).
  exists j1. split; [done|]. split; [congruence|].
  destruct Hi2 as [Hi2|Hi2]; [|by right].
  rewrite Hi2. exact Hi1.
Qed.

Lemma unarmed_mono w w' l : disarming w w' -> unarmed l w -> unarmed l w'.
Proof.
  intros Hd Hq j' Hl'.
  destruct (Hd l j' Hl') as (j & Hl & _ & [Hi|Hi]); [|done].
  rewrite Hi. by apply Hq.
Qed.

Lemma elem_map_values (m : list (string * loc)) l :
  l ∈ map_values m <-> exists k, (k, l) ∈ m.
Proof.
  unfold map_values. change (map snd m) with (snd <$> m).
  rewrite list_elem_of_fmap. split.
  - intros ([k l'] & -> & Hin). by exists k.
  - intros (k & Hin). by exists (k, l).
Qed.

Lemma timers_grow_refl w : timers_grow w w.
Proof. split; [lia|auto]. Qed.

Lemma timers_grow_trans w1 w2 w3 :
  timers_grow w1 w2 -> timers_grow w2 w3 -> timers_grow w1 w3.
Proof.
  intros [Hn12 H12] [Hn23 H23]. split; [lia|].
  intros h t Hth Hlt. apply H12; [|done]. apply H23; [done|lia].
Qed.

Lemma started_loop (w : World) :
  wf w ->
  wf (started w) /\
  arming (next_timeout w) w (started w) /\
  timers_grow w (started w) /\
  forall k l, (k, l) ∈ jobs w -> armed_from (next_timeout w) l (started w).
Proof.
  intros Hwf. set (n0 := next_timeout w).
  pose (I := fun w' : World =>
    wf w' /\ jobs w' = jobs w /\ (n0 <= next_timeout w')%nat).
  pose (R := fun w1 w2 : World => arming n0 w1 w2 /\ timers_grow w1 w2).
  destruct (fold_left_loop start_step I R (armed_from n0)
              (map_values (jobs w)))
    with (w := with_running true w) as ((Hwf' & _) & [Harm Hgrow] & Hq).
  - intros w'. split; [apply arming_refl | apply timers_grow_refl].
  - intros w1 w2 w3 [? ?] [? ?].
    split; [by eapply arming_trans | by eapply timers_grow_trans].
  - intros w1 w2 x [? _]. by apply armed_from_mono.
  - intros w' x [k Hin]%elem_map_values (Hwf' & Hj & Hn).
    rewrite <- Hj in Hin.
    destruct (wf_stored _ Hwf' k x Hin) as (j & Hl & _).
    unfold start_step. rewrite (lookup_total_correct _ _ _ Hl).
    destruct (enabled j) eqn:Hen.
    + destruct (arm_frame x w') as (Hj' & _ & _ & Hnt & _).
      split; [split; [|split]|split; [split|]].
      * apply (arm_wf x w' j Hl Hwf').
        apply (wf_own_handle w' k x j Hwf' Hin Hl).
      * congruence.
      * lia.
      * intros l j'. rewrite (arm_objects x w' j Hl). case_decide as Heq.
        -- subst l. intros [= <-]. exists j. split; [done|]. split; [done|].
           right. split; [done|]. simpl. eauto.
        -- intros Hl'. exists j'. auto.
      * split; [lia|]. intros h t Hth Hlt.
        apply (arm_timers x w' j Hl) in Hth as [[-> _]|(_ & _ & Hth)];
          [lia|done].
      * intros j'. rewrite (arm_objects x w' j Hl), decide_True by done.
        intros [= <-] _. simpl. eauto.
    + split; [done|].
      split; [split; [apply arming_refl | apply timers_grow_refl]|].
      intros j' Hl'. congruence.
  - split; [|split; [done|unfold n0; done]].
    eapply wf_ext; [..|exact Hwf]; done.
  - split; [exact Hwf'|]. split; [exact Harm|]. split; [exact Hgrow|].
    intros k l Hin. apply Hq. apply elem_map_values. eauto.
Qed.

Lemma started_wf (w : World) : wf w -> wf (started w).
Proof. intros Hwf. by destruct (started_loop w Hwf). Qed.

Lemma started_parity (w : World) :
  wf w -> parity (running w) w -> parity true (started w).
Proof.
  intros Hwf Hp k l j'. destruct (started_loop w Hwf) as (_ & Harm & _ & Hq).
  destruct (started_frame w) as (-> & _). intros Hin Hl'.
  destruct (Harm l j' Hl') as (j & Hl & He & Hi). split.
  - intros Hsome. split; [done|]. rewrite He.
    destruct Hi as [Hi|[? _]]; [|done].
    rewrite Hi in Hsome. by apply (Hp k l j Hin Hl).
  - intros [_ Hen]. destruct (Hq k l Hin j' Hl' Hen) as (h & -> & _). eauto.
Qed.

Lemma stopped_loop (w : World) :
  wf w ->
  wf (stopped w) /\ disarming w (stopped w) /\
  forall k l, (k, l) ∈ jobs w -> unarmed l (stopped w).
Proof.
  intros Hwf.
  pose (I := fun w' : World => wf w' /\ jobs w' = jobs w).
  destruct (fold_left_loop (fun w' job => disarm job w') I disarming unarmed
              (map_values (jobs w)) disarming_refl disarming_trans
              (fun w1 w2 x => unarmed_mono w1 w2 x))
    with (w := with_running false w) as ((Hwf' & _) & Hd & Hq).
  - intros w' x [k Hin]%elem_map_values (Hwf' & Hj).
    rewrite <- Hj in Hin.
    destruct (wf_stored _ Hwf' k x Hin) as (j & Hl & _).
    destruct (disarm_frame x w') as (Hj' & _).
    split; [split|split].
    + apply (disarm_wf x w' j Hl Hwf').
      apply (wf_own_handle w' k x j Hwf' Hin Hl).
    + congruence.
    + intros l j'. rewrite (disarm_objects x w' j Hl). case_decide as Heq.
      * subst l. intros [= <-]. exists j. split; [done|]. split; [done|].
        by right.
      * intros Hl'. exists j'. auto.
    + intros j'. rewrite (disarm_objects x w' j Hl), decide_True by done.
      by intros [= <-].
  - split; [|done]. eapply wf_ext; [..|exact Hwf]; done.
  - split; [exact Hwf'|]. split; [exact Hd|].
    intros k l Hin. apply Hq. apply elem_map_values. eauto.
Qed.

Lemma stopped_wf (w : World) : wf w -> wf (stopped w).
Proof. intros Hwf. by destruct (stopped_loop w Hwf). Qed.

Lemma stopped_parity (w : World) : wf w -> parity false (stopped w).
Proof.
  intros Hwf k l j'. destruct (stopped_loop w Hwf) as (_ & _ & Hq).
  destruct (stopped_frame w) as (-> & _). intros Hin Hl'.
  rewrite (Hq k l Hin j' Hl'). split; [by intros [? [=]]|by intros [[=] _]].
Qed.

(** ** Timer callbacks *)

Lemma timer_callback_update job r (w : World) :
  field_update quiet job w (snd (timer_callback job r w)).
Proof.
  unfold timer_callback, mbind, M_bind, mret, M_ret, load, store, emit,
    modify, gets.
  cbv beta iota zeta.
  destruct (enabled (objects w !!! job)); cbn [negb].
  - destruct r; cbv beta iota zeta; do 5 (split; [done|]); wsimpl.
    + rewrite alter_alter_eq. eexists. split; [|reflexivity]. by split.
    + eexists. split; [|reflexivity]. by split.
  - wsimpl. do 5 (split; [done|]). exists (fun j => j).
    split; [by split|]. symmetry. by apply alter_id.
Qed.

Lemma timer_callback_resume_update job o (w : World) :
  field_update quiet job w (snd (timer_callback_resume job o w)).
Proof.
  unfold timer_callback_resume, mbind, M_bind, mret, M_ret, load, store, emit,
    date_now, modify, gets.
  destruct o; cbv beta iota zeta; do 5 (split; [done|]); wsimpl.
  - rewrite alter_alter_eq. eexists. split; [|reflexivity]. by split.
  - eexists. split; [|reflexivity]. by split.
Qed.

(** ** The invariant of reachable worlds *)

Lemma call_inv c (w : World) :
  wf w -> parity (running w) w ->
  wf (call c w) /\ parity (running (call c w)) (call c w).
Proof.
  intros Hwf Hp. destruct c as [i n s a|i| | |i|i|i| |st]; cbn [call].
  - rewrite addJob_eq. cbn [snd].
    assert (Hr : running (added i n s a w) = running w).
    { unfold added. destruct (running w) eqn:E; exact E. }
    rewrite Hr. split; [by apply added_wf | by apply added_parity].
  - rewrite removeJob_eq.
    destruct (map_get i (jobs w)) as [job|] eqn:Hget; [|done]. cbn [snd].
    assert (Hr : running (removed i job w) = running w).
    { unfold removed. by destruct (intervalId _). }
    rewrite Hr. split; [by apply removed_wf | by apply removed_parity].
  - rewrite start_eq. cbn [snd]. destruct (started_frame w) as (_ & -> & _).
    split; [by apply started_wf | by apply started_parity].
  - rewrite stop_eq. cbn [snd]. destruct (stopped_frame w) as (_ & -> & _).
    split; [by apply stopped_wf | by apply stopped_parity].
  - rewrite enableJob_eq.
    destruct (map_get i (jobs w)) as [job|] eqn:Hget; [|done]. cbn [snd].
    apply map_get_elem in Hget.
    destruct (wf_stored _ Hwf _ _ Hget) as (j & Hl & _).
    assert (Hr : running (enabled_job job w) = running w).
    { unfold enabled_job. destruct (running w) eqn:E; exact E. }
    rewrite Hr.
    split; [by eapply enabled_job_wf | by eapply enabled_job_parity].
  - rewrite disableJob_eq.
    destruct (map_get i (jobs w)) as [job|] eqn:Hget; [|done]. cbn [snd].
    apply map_get_elem in Hget.
    destruct (wf_stored _ Hwf _ _ Hget) as (j & Hl & _).
    assert (Hr : running (disabled_job job w) = running w).
    { unfold disabled_job.
      by destruct (disarm_frame job
        (with_objects (alter (set_enabled false) job) (next_loc w) w))
        as (_ & -> & _). }
    rewrite Hr.
    split; [by eapply disabled_job_wf | by eapply disabled_job_parity].
  - done.
  - split; [by eapply wf_ext; [..|exact Hwf] | by eapply parity_ext].
  - split; [by eapply wf_ext; [..|exact Hwf] | by eapply parity_ext].
Qed.

Lemma exec_inv e (w : World) :
  wf w -> parity (running w) w ->
  wf (exec e w) /\ parity (running (exec e w)) (exec e w).
Proof.
  intros Hwf Hp. destruct e as [c|d|h r|k o|a xs]; cbn [exec].
  - by apply call_inv.
  - split; [by eapply wf_ext; [..|exact Hwf] | by eapply parity_ext].
  - destruct (timers w !! h) as [t|]; [|done].
    pose proof (timer_callback_update (t_job t) r w) as Hu.
    pose proof Hu as (_ & -> & _). split.
    + eapply field_update_wf; [|exact Hwf].
      eapply field_update_weaken; [|exact Hu]. by intros f [? _].
    + by eapply quiet_update_parity.
  - destruct (inflight w !! k) as [job|]; [|done].
    pose proof (timer_callback_resume_update job o
                  (with_inflight (delete k) w)) as Hu.
    pose proof Hu as (_ & -> & _). split.
    + eapply field_update_wf.
      * eapply field_update_weaken; [|exact Hu]. by intros f [? _].
      * by eapply wf_ext; [..|exact Hwf].
    + eapply quiet_update_parity; [exact Hu|]. by eapply parity_ext.
  - destruct (arrays w !! a); [|done].
    split; [by eapply wf_ext; [..|exact Hwf] | by eapply parity_ext].
Qed.

Lemma initial_wf t0 : wf (initial t0).
Proof.
  split; cbn.
  - constructor.
  - intros k l Hin. by apply elem_of_nil in Hin.
  - intros k l j h Hin. by apply elem_of_nil in Hin.
  - intros h t. by rewrite lookup_empty.
  - intros h t. by rewrite lookup_empty.
  - intros l j h. by rewrite lookup_empty.
  - intros l j. by rewrite lookup_empty.
Qed.

Lemma reachable_inv (w : World) :
  reachable w -> wf w /\ parity (running w) w.
Proof.
  induction 1 as [t0|e w _ [Hwf Hp]].
  - split; [apply initial_wf|].
    intros k l j Hin. by apply elem_of_nil in Hin.
  - by apply exec_inv.
Qed.

(** ** What [start] does to the observable state *)


Lemma start_step_view (w : World) x l :
  set_intervalId None <$> objects (start_step w x) !! l
  = rearmed_view (clock w) (bool_decide (l = x))
      <$> (set_intervalId None <$> objects w !! l).
Proof.
  unfold start_step.
  destruct (objects w !! x) as [j|] eqn:Hx.
  - rewrite (lookup_total_correct _ _ _ Hx).
    destruct (enabled j) eqn:Hen.
    + rewrite (arm_objects x w j Hx). case_decide as Heq.
      * subst l. rewrite Hx, bool_decide_eq_true_2 by done. cbn.
        unfold rearmed_view. cbn. by rewrite Hen.
      * rewrite bool_decide_eq_false_2 by congruence.
        by destruct (objects w !! l).
    + destruct (objects w !! l) as [j'|] eqn:Hl; [|done]. cbn.
      unfold rearmed_view. cbn. case_bool_decide as Heq; [|done].
      subst l. assert (j' = j) as -> by congruence. by rewrite Hen.
  - rewrite lookup_total_alt, Hx. cbn.
    destruct (objects w !! l) as [j'|] eqn:Hl; [|done]. cbn.
    unfold rearmed_view. case_bool_decide as Heq; [congruence|done].
Qed.

Lemma start_loop_view ls (w : World) l :
  set_intervalId None <$> objects (fold_left start_step ls w) !! l
  = rearmed_view (clock w) (bool_decide (l ∈ ls))
      <$> (set_intervalId None <$> objects w !! l).
Proof.
  revert w. induction ls as [|x ls IH]; intros w.
  - cbn [fold_left]. rewrite bool_decide_eq_false_2 by apply not_elem_of_nil.
    by destruct (objects w !! l).
  - cbn [fold_left]. rewrite IH, start_step_view.
    destruct (start_step_frame w x) as (_ & _ & _ & _ & _ & _ & -> & _).
    destruct (objects w !! l) as [j|]; [|done]. cbn. f_equal.
    unfold rearmed_view. cbn.
    destruct (decide (l = x)) as [->|Hne].
    + rewrite (bool_decide_eq_true_2 (x = x)) by done.
      rewrite (bool_decide_eq_true_2 (x ∈ x :: ls)) by left.
      destruct (bool_decide (x ∈ ls)), j as [? ? ? ? [] ? ? ? ?]; reflexivity.
    + rewrite (bool_decide_eq_false_2 (l = x)) by done. cbn.
      assert (Hiff : l ∈ ls <-> l ∈ x :: ls).
      { rewrite elem_of_cons. naive_solver. }
      by rewrite (bool_decide_ext _ _ Hiff).
Qed.

Lemma started_observable (w : World) :
  observable (started w)
  = (true,
     map (fun kl => (fst kl, rearmed_view (clock w) true
                               <$> (set_intervalId None <$> objects w !! snd kl)))
       (jobs w)).
Proof.
  unfold observable. destruct (started_frame w) as (-> & -> & _).
  f_equal. apply map_ext_in. intros [k l] Hin%list_elem_of_In. cbn [fst snd].
  f_equal. unfold started. rewrite start_loop_view. wsimpl.
  rewrite bool_decide_eq_true_2; [done|].
  apply elem_map_values. eauto.
Qed.

(** * The specification's claims *)

Lemma reachable_run tr t0 : reachable (run tr (initial t0)).
Proof.
  unfold run. generalize (reachable_initial t0). generalize (initial t0).
  induction tr as [|e tr IH]; intros w Hw; [done|].
  cbn [fold_left]. apply IH. by constructor.
Qed.

Lemma wf_armed (w : World) k l j :
  wf w -> (k, l) ∈ jobs w -> objects w !! l = Some j ->
  (armed w l <-> is_Some (intervalId j)).
Proof.
  intros Hwf Hin Hl. split.
  - intros (j' & h & t & Hl' & Hh & _). assert (j' = j) as -> by congruence.
    eauto.
  - intros [h Hh].
    destruct (wf_handle _ Hwf k l j h Hin Hl Hh) as (t & Hth & Htl).
    by exists j, h, t.
Qed.

(** C1 (arm/disarm parity).  In every world reachable from a new scheduler
    by any sequence of method calls (whatever the ids), clock movements,
    timer firings and promise settlements, a job stored in the registry has
    an armed interval exactly when the registry is running and the job is
    enabled. *)
Theorem arm_disarm_parity (w : World) (k : string) (l : loc) (j : ScheduledJob) :
  reachable w -> (k, l) ∈ jobs w -> objects w !! l = Some j ->
  (armed w l <-> running w = true /\ enabled j = true).
Proof.
  intros [Hwf Hp]%reachable_inv Hin Hl.
  rewrite (wf_armed w k l j Hwf Hin Hl). exact (Hp k l j Hin Hl).
Qed.

Lemma arm_disarm_parity_witness :
  let w := run [Call (CallAddJob "j1" "Job1" "1m" (ActionRef 0));
                Call CallStart;
                Call (CallDisableJob "j1");
                Call (CallEnableJob "j1")] (initial 0) in
  armed w 0%nat <->
  running w = true /\ enabled (objects w !!! 0%nat) = true.
Proof.
  intros w. apply (arm_disarm_parity w "j1" 0%nat (objects w !!! 0%nat)).
  - apply reachable_run.
  - vm_compute. left.
  - vm_compute. reflexivity.
Defined.

(** C2, as the code has it (interval parsing).  [parseSchedule], computed
    in doubles as the source computes it, is the function of the grammar
    [^(\d+)(m|h|d)?$] within the integers a double holds exactly: a string
    outside the grammar, the empty string included, gives 60000; a string
    of the grammar with digits [ds] and optional unit [u] gives the decimal
    value of [ds] times 60000 when the unit is missing or [m], times
    3600000 for [h] and times 86400000 for [d], provided that product is at
    most [MAX_SAFE_INTEGER]; and the six entries of the specification's
    table hold.  Within that range it is the exact function
    [Schedule.parseSchedule] that the world computes with. *)
Theorem parseSchedule_grammar (s : string) :
  ((~ exists ds u, Grammar s ds u) ->
     Double.parseSchedule s = Double.Finite 60000) /\
  (forall ds u, Grammar s ds u ->
     decimal_value ds * unit_ms u <= MAX_SAFE_INTEGER ->
     Double.parseSchedule s = Double.Finite (decimal_value ds * unit_ms u)) /\
  (unit_ms None = 60000 /\ unit_ms (Some "m"%char) = 60000 /\
   unit_ms (Some "h"%char) = 3600000 /\ unit_ms (Some "d"%char) = 86400000) /\
  (Double.parseSchedule "5m" = Double.Finite 300000 /\
   Double.parseSchedule "2h" = Double.Finite 7200000 /\
   Double.parseSchedule "1d" = Double.Finite 86400000 /\
   Double.parseSchedule "10" = Double.Finite 600000 /\
   Double.parseSchedule "abc" = Double.Finite 60000 /\
   Double.parseSchedule "" = Double.Finite 60000) /\
  (parseSchedule s <= MAX_SAFE_INTEGER ->
     Double.parseSchedule s = Double.Finite (parseSchedule s)).
Proof.
  split; [|split; [|split; [|split]]].
  - intros Hno%regex_match_None. unfold Double.parseSchedule. by rewrite Hno.
  - intros ds u HG Hle. rewrite <- (parseSchedule_matched _ _ _ HG) in *.
    by apply parseSchedule_exact.
  - by repeat split.
  - by repeat split.
  - apply parseSchedule_exact.
Qed.

Lemma parseSchedule_grammar_witness :
  Double.parseSchedule "12.5" = Double.Finite 60000 /\
  Double.parseSchedule "12h" = Double.Finite 43200000 /\
  Double.parseSchedule "150119987579" = Double.Finite 9007199254740000.
Proof.
  split; [|split].
  - apply (proj1 (parseSchedule_grammar "12.5")).
    apply regex_match_None. reflexivity.
  - apply (proj1 (proj2 (parseSchedule_grammar "12h"))
             ["1"; "2"]%char (Some "h"%char)).
    + apply regex_match_sound. reflexivity.
    + vm_compute. discriminate.
  - apply (proj2 (proj2 (proj2 (proj2
             (parseSchedule_grammar "150119987579"))))).
    vm_compute. discriminate.
Defined.

(** C2 as the specification states it does not hold for every string of
    the grammar: the digits of ["150119987579016"], with no unit, denote a
    value whose product with 60000 is 9007199254740960000, which no double
    holds, and the source returns 9007199254740960256. *)
Lemma parseSchedule_grammar_counterexample :
  let s := "150119987579016"%string in
  let ds := list_ascii_of_string s in
  Grammar s ds None /\
  decimal_value ds * unit_ms None = 9007199254740960000 /\
  Double.parseSchedule s = Double.Finite 9007199254740960256 /\
  Double.parseSchedule s <> Double.Finite (decimal_value ds * unit_ms None).
Proof.
  intros s ds. split; [|split; [|split]].
  - apply regex_match_sound. reflexivity.
  - reflexivity.
  - reflexivity.
  - intros H. vm_compute in H. discriminate H.
Qed.

(** C10 (zero intervals).  [parseSchedule] never returns a negative
    duration; a string of the grammar whose digits denote zero, such as
    ["0"], ["0m"], ["0h"] and ["0d"], gives 0 and not the 60000 fallback;
    and for a schedule whose interval is 0, [addJob] stores a job whose
    [nextRun] is the current time. *)
Theorem parseSchedule_zero (s : string) :
  0 <= parseSchedule s /\
  (forall ds u, Grammar s ds u -> decimal_value ds = 0 -> parseSchedule s = 0) /\
  (parseSchedule "0" = 0 /\ parseSchedule "0m" = 0 /\
   parseSchedule "0h" = 0 /\ parseSchedule "0d" = 0) /\
  (parseSchedule s = 0 ->
   forall (w : World) id0 name0 action0,
     nextRun <$> objects (snd (addJob id0 name0 s action0 w)) !! next_loc w
     = Some (Some (clock w))).
Proof.
  split; [apply parseSchedule_nonneg|]. split; [|split; [by repeat split|]].
  - intros ds u HG Hzero. rewrite (parseSchedule_matched _ _ _ HG), Hzero. lia.
  - intros Hzero w id0 name0 action0. rewrite addJob_eq. cbn [snd].
    rewrite added_unfold.
    assert (Hl : objects
              (with_jobs (map_set id0 (next_loc w))
                 (with_objects
                    (insert (next_loc w) (new_job id0 name0 s action0 (clock w)))
                    (S (next_loc w)) w)) !! next_loc w
            = Some (new_job id0 name0 s action0 (clock w)))
      by apply registered_lookup.
    destruct (running w).
    + rewrite (arm_objects _ _ _ Hl), decide_True by done. cbn.
      rewrite Hzero. do 2 f_equal. lia.
    + rewrite Hl. cbn. rewrite Hzero. do 2 f_equal. lia.
Qed.

Lemma parseSchedule_zero_witness :
  parseSchedule "000d" = 0 /\
  nextRun <$> objects (snd (addJob "j" "J" "0h" (ActionRef 0) (initial 42)))
                !! 0%nat = Some (Some 42).
Proof.
  split.
  - apply (proj1 (proj2 (parseSchedule_zero "000d"))
             ["0"; "0"; "0"]%char (Some "d"%char)).
    + apply regex_match_sound. reflexivity.
    + reflexivity.
  - apply (proj2 (proj2 (proj2 (parseSchedule_zero "0h"))) eq_refl
             (initial 42) "j" "J" (ActionRef 0)).
Defined.

(** C3 (one firing).  When the interval [h] armed for a job fires: if the
    job is disabled at that moment the world is left as it was, so there is
    neither a status change nor an invocation; otherwise the status becomes
    [Running], the action is invoked and the callback waits for it.  When
    the promise is fulfilled the status becomes [Completed] and [lastRun]
    the time read then; when the action fails, on the spot or through its
    promise, the status becomes [Failed], [lastRun] keeps its value and the
    failure is logged.  Neither phase of the callback ever throws. *)
Theorem timer_firing (w : World) (h : Timeout) (t : Timer) (j : ScheduledJob) :
  timers w !! h = Some t -> objects w !! t_job t = Some j ->
  (enabled j = false -> forall r, exec (Fire h r) w = w) /\
  (enabled j = true ->
     (let w1 := exec (Fire h ReturnedPromise) w in
      objects w1 !! t_job t = Some (set_status Running j) /\
      effects w1 = effects w ++ [Invoked (action j)] /\
      inflight w1 = inflight w ++ [t_job t]) /\
     (let w1 := exec (Fire h ThrewSync) w in
      objects w1 !! t_job t = Some (set_status Failed j) /\
      effects w1 = effects w ++ [Invoked (action j); ConsoleError (id j)] /\
      inflight w1 = inflight w)) /\
  (forall w' k j',
     inflight w' !! k = Some (t_job t) -> objects w' !! t_job t = Some j' ->
     (let w2 := exec (Settle k Fulfilled) w' in
      objects w2 !! t_job t
      = Some (set_lastRun (Some (clock w')) (set_status Completed j')) /\
      effects w2 = effects w') /\
     (let w2 := exec (Settle k Rejected) w' in
      objects w2 !! t_job t = Some (set_status Failed j') /\
      lastRun <$> objects w2 !! t_job t = Some (lastRun j') /\
      effects w2 = effects w' ++ [ConsoleError (id j')])) /\
  (forall r w', fst (timer_callback (t_job t) r w') = Normal tt) /\
  (forall o w', fst (timer_callback_resume (t_job t) o w') = Normal tt).
Proof.
  intros Hth Hl. set (job := t_job t) in *.
  assert (Hcb : forall r, exec (Fire h r) w = snd (timer_callback job r w)).
  { intros r. cbn [exec]. by rewrite Hth. }
  split; [|split; [|split; [|split]]].
  - intros Hen r. rewrite Hcb.
    unfold timer_callback, mbind, M_bind, load, gets.
    by rewrite (lookup_total_correct _ _ _ Hl), Hen.
  - intros Hen. rewrite !Hcb.
    unfold timer_callback, mbind, M_bind, mret, M_ret, load, store, emit,
      modify, gets.
    rewrite (lookup_total_correct _ _ _ Hl), Hen.
    cbv beta iota zeta. cbn [negb]. wsimpl. split.
    + split; [|done]. by rewrite lookup_alter_eq, Hl.
    + split; [|split; [by rewrite <- app_assoc|done]].
      by rewrite !lookup_alter_eq, Hl.
  - intros w' k j' Hk Hl'. cbn [exec]. rewrite Hk.
    unfold timer_callback_resume, mbind, M_bind, mret, M_ret, load, store,
      emit, date_now, modify, gets.
    cbv beta iota zeta. wsimpl. split.
    + split; [|done]. by rewrite !lookup_alter_eq, Hl'.
    + rewrite lookup_total_alter_eq, !lookup_alter_eq, Hl'. by cbn.
  - intros r w'.
    unfold timer_callback, mbind, M_bind, mret, M_ret, load, store, emit,
      modify, gets.
    by destruct (enabled _), r.
  - intros o w'. by destruct o.
Qed.

Lemma timer_firing_witness :
  let w := run [Call (CallAddJob "j1" "Job1" "1m" (ActionRef 7));
                Call CallStart] (initial 1000) in
  status <$> objects (exec (Fire 0%nat ReturnedPromise) w) !! 0%nat
  = Some Running /\
  effects (exec (Fire 0%nat ReturnedPromise) w) = [Invoked (ActionRef 7)].
Proof.
  intros w.
  destruct (timer_firing w 0%nat {| t_job := 0%nat; t_period := 60000 |}
              (objects w !!! 0%nat))
    as (_ & Hfire & _).
  - vm_compute. reflexivity.
  - vm_compute. reflexivity.
  - destruct (Hfire eq_refl) as [(Hobj & Heff & _) _].
    split.
    + change (objects (exec (Fire 0%nat ReturnedPromise) w) !! 0%nat
              = Some (set_status Running (objects w !!! 0%nat))) in Hobj.
      rewrite Hobj. reflexivity.
    + change (effects (exec (Fire 0%nat ReturnedPromise) w)
              = effects w ++ [Invoked (action (objects w !!! 0%nat))]) in Heff.
      rewrite Heff. reflexivity.
Defined.




(** C8 (unknown ids).  For an id that is not in the registry, [removeJob],
    [enableJob] and [disableJob] return [false] and [getJob] returns
    nothing; each of them returns normally and leaves the world as it
    was. *)
Theorem unknown_id (w : World) (id0 : string) :
  id0 ∉ map fst (jobs w) ->
  removeJob id0 w = (Normal false, w) /\
  enableJob id0 w = (Normal false, w) /\
  disableJob id0 w = (Normal false, w) /\
  getJob id0 w = (Normal None, w).
Proof.
  intros Hget%map_get_None.
  rewrite removeJob_eq, enableJob_eq, disableJob_eq.
  unfold getJob, gets. by rewrite Hget.
Qed.

Lemma unknown_id_witness :
  let w := run [Call (CallAddJob "j1" "Job1" "1m" (ActionRef 0));
                Call CallStart] (initial 0) in
  removeJob "nope" w = (Normal false, w) /\
  enableJob "nope" w = (Normal false, w) /\
  disableJob "nope" w = (Normal false, w) /\
  getJob "nope" w = (Normal None, w).
Proof.
  intros w. apply (unknown_id w "nope").
  vm_compute. intros Hin.
  apply list_elem_of_singleton in Hin. discriminate Hin.
Defined.

(** C4, as the code has it ([addJob] on an id that is present).  The call
    does not fail: it returns normally with a new job object, distinct from
    the one stored so far, and the entry of [id0] now refers to the new
    object, which carries the arguments of the call; its [nextRun] is the
    current time plus the interval of the schedule where these and their
    sum are within the integers a double holds exactly.  The keys of the
    registry and their order are unchanged, and so is the job behind every
    other key. *)
Theorem addJob_duplicate_overwrites
    (w : World) (id0 name0 schedule0 : string) (action0 : Action) (old : loc) :
  reachable w -> map_get id0 (jobs w) = Some old ->
  let w' := snd (addJob id0 name0 schedule0 action0 w) in
  let job := next_loc w in
  fst (addJob id0 name0 schedule0 action0 w) = Normal job /\
  job <> old /\
  map_get id0 (jobs w') = Some job /\
  map fst (jobs w') = map fst (jobs w) /\
  (forall k, k <> id0 -> job_of w' k = job_of w k) /\
  exists j, objects w' !! job = Some j /\
    id j = id0 /\ name j = name0 /\ schedule j = schedule0 /\
    action j = action0 /\ enabled j = true /\ status j = Pending /\
    lastRun j = None /\
    (exact_nextRun (clock w) schedule0 ->
       nextRun j = Some (clock w + parseSchedule schedule0) /\
       Double.calculateNextRun (clock w) schedule0
       = Double.Finite (clock w + parseSchedule schedule0)).
Proof.
  intros [Hwf _]%reachable_inv Hget. cbv zeta.
  rewrite addJob_eq. cbn [fst snd]. rewrite added_unfold.
  pose proof (registered_lookup id0 name0 schedule0 action0 w) as Hl.
  set (j0 := new_job id0 name0 schedule0 action0 (clock w)) in *.
  set (w1 := with_jobs _ _) in *.
  assert (Hlt : forall k l, map_get k (jobs w) = Some l -> l <> next_loc w).
  { intros k l Hk%map_get_elem.
    destruct (wf_stored _ Hwf k l Hk) as (j & Hj & _).
    apply (wf_fresh_loc _ Hwf) in Hj. lia. }
  assert (Hkeys : forall m, map_get id0 m = Some old ->
            map fst (map_set id0 (next_loc w) m) = map fst m).
  { induction m as [|[k' l'] m IH]; cbn [map_get map_set map fst]; [done|].
    destruct (String.eqb_spec id0 k') as [->|Hne]; [done|].
    intros Hm. cbn [map fst]. by rewrite IH. }
  assert (Hjobs : jobs (if running w then arm (next_loc w) w1 else w1)
                  = map_set id0 (next_loc w) (jobs w))
    by (by destruct (running w)).
  assert (Hother : forall l, l <> next_loc w ->
            objects (if running w then arm (next_loc w) w1 else w1) !! l
            = objects w !! l).
  { intros l Hne. destruct (running w).
    - rewrite (arm_objects _ _ _ Hl), decide_False by done.
      unfold w1. wsimpl. by rewrite lookup_insert_ne.
    - unfold w1. wsimpl. by rewrite lookup_insert_ne. }
  split_and!.
  - done.
  - intros Heq. by apply (Hlt id0 old).
  - by rewrite Hjobs, map_get_set, decide_True.
  - rewrite Hjobs. by apply Hkeys.
  - intros k Hne. unfold job_of. rewrite Hjobs, map_get_set, decide_False by done.
    destruct (map_get k (jobs w)) as [l|] eqn:Hk; [|done]. cbn.
    apply Hother. by apply (Hlt k).
  - destruct (running w).
    + eexists. rewrite (arm_objects _ _ _ Hl), decide_True by done.
      split_and!; try reflexivity.
      intros Hex. split; [reflexivity|]. by apply calculateNextRun_exact.
    + exists j0. split_and!; try reflexivity; [exact Hl|].
      intros Hex. split; [reflexivity|]. by apply calculateNextRun_exact.
Qed.

Lemma addJob_duplicate_overwrites_witness :
  let w := run [Call (CallAddJob "a" "first" "1m" (ActionRef 1))] (initial 0) in
  let w' := snd (addJob "a" "second" "2h" (ActionRef 2) w) in
  fst (addJob "a" "second" "2h" (ActionRef 2) w) = Normal 1%nat /\
  map_get "a" (jobs w') = Some 1%nat /\
  map fst (jobs w') = map fst (jobs w) /\
  nextRun <$> objects w' !! 1%nat = Some (Some 7200000).
Proof.
  intros w w'.
  destruct (addJob_duplicate_overwrites w "a" "second" "2h" (ActionRef 2) 0%nat)
    as (H1 & _ & H3 & H4 & _ & j & Hj & Hfields).
  - apply reachable_run.
  - reflexivity.
  - split; [exact H1|]. split; [exact H3|]. split; [exact H4|].
    destruct Hfields as (_ & _ & _ & _ & _ & _ & _ & Hnext).
    destruct Hnext as [Hnext _]; [repeat split; vm_compute; discriminate|].
    change (objects w' !! 1%nat = Some j) in Hj.
    rewrite Hj. cbn [fmap option_fmap option_map].
    by rewrite Hnext.
Defined.

(** C4 as the specification states it does not hold: on a registry that
    already has a job under ["a"], [addJob] with id ["a"] raises nothing
    and the job behind ["a"] is no longer the one that was there. *)
Lemma addJob_duplicate_counterexample :
  let w := run [Call (CallAddJob "a" "first" "1m" (ActionRef 1))] (initial 0) in
  let w' := snd (addJob "a" "second" "2h" (ActionRef 2) w) in
  is_Some (map_get "a" (jobs w)) /\
  (forall e, fst (addJob "a" "second" "2h" (ActionRef 2) w) <> Throw e) /\
  job_of w' "a" <> job_of w "a" /\
  ~ ((exists e, fst (addJob "a" "second" "2h" (ActionRef 2) w) = Throw e) /\
     job_of w' "a" = job_of w "a").
Proof.
  intros w w'. split; [by exists 0%nat|].
  assert (Hret : forall e,
            fst (addJob "a" "second" "2h" (ActionRef 2) w) <> Throw e).
  { intros e He. vm_compute in He. discriminate He. }
  assert (Hjob : job_of w' "a" <> job_of w "a").
  { intros He. vm_compute in He. discriminate He. }
  split; [exact Hret|]. split; [exact Hjob|].
  intros [_ He]. by apply Hjob.
Qed.

(** ** [start] twice *)








(** ** [stop] *)

Lemma stop_loop_view ls (w : World) l :
  set_intervalId None <$> objects (fold_left (fun w job => disarm job w) ls w) !! l
  = set_intervalId None <$> objects w !! l.
Proof.
  apply (fold_left_preserves
           (fun w => set_intervalId None <$> objects w !! l)).
  intros w' x. destruct (objects w' !! x) as [j|] eqn:Hx.
  - rewrite (disarm_objects x w' j Hx). case_decide as Heq; [|done].
    subst l. by rewrite Hx.
  - by rewrite disarm_dangling.
Qed.

Lemma stop_loop_shrink ls (w : World) h t :
  timers (fold_left (fun w job => disarm job w) ls w) !! h = Some t ->
  timers w !! h = Some t.
Proof.
  revert w. induction ls as [|x ls IH]; intros w; [done|].
  cbn [fold_left]. intros Hth%IH. revert Hth. unfold disarm.
  destruct (intervalId _); wsimpl; [|done].
  by intros [_ ?]%lookup_delete_Some.
Qed.

(** C7 ([stop]).  On a reachable world [stop] returns normally, sets the
    running flag to false and keeps the registry's entries; each stored job
    keeps every field but its timer handle, which is cleared; no interval
    remains armed for a stored job, and the handle a job held is no longer
    armed. *)
Theorem stop_frame (w : World) :
  reachable w ->
  let w' := snd (stop w) in
  fst (stop w) = Normal tt /\
  running w' = false /\
  jobs w' = jobs w /\
  (forall k l j, (k, l) ∈ jobs w -> objects w !! l = Some j ->
     objects w' !! l = Some (set_intervalId None j) /\
     timers_of w' l = [] /\
     (forall h, intervalId j = Some h -> timers w' !! h = None)).
Proof.
  intros [Hwf _]%reachable_inv. cbv zeta. rewrite stop_eq. cbn [fst snd].
  destruct (stopped_frame w) as (Hj & Hr & _).
  destruct (stopped_loop w Hwf) as (Hwf' & _ & Hq).
  split_and!; try done.
  intros k l j Hin Hl.
  assert (Hin' : (k, l) ∈ jobs (stopped w)) by (by rewrite Hj).
  destruct (wf_stored _ Hwf' k l Hin') as (j' & Hl' & _).
  pose proof (Hq k l Hin j' Hl') as Hnone.
  assert (Hnotimer : forall h t,
            timers (stopped w) !! h = Some t -> t_job t <> l).
  { intros h t Hth Htl.
    destruct (wf_timers _ Hwf' h t Hth) as (j'' & Hl'' & Hh'').
    rewrite Htl in Hl''. congruence. }
  split_and!.
  - pose proof (stop_loop_view (map_values (jobs w)) (with_running false w) l)
      as Hview.
    fold (stopped w) in Hview. wsimpl. rewrite Hl', Hl in Hview.
    cbn [fmap option_fmap option_map] in Hview.
    assert (Hv : set_intervalId None j' = set_intervalId None j) by congruence.
    rewrite <- Hv. f_equal. destruct j'. cbn in Hnone. by subst.
  - destruct (timers_of (stopped w) l) as [|[h t] rest] eqn:Hts; [done|].
    assert (Hht : (h, t) ∈ timers_of (stopped w) l) by (rewrite Hts; left).
    apply list_elem_of_filter in Hht as [Htl Hht%elem_of_map_to_list].
    by destruct (Hnotimer h t Hht).
  - intros h Hh.
    destruct (timers (stopped w) !! h) as [t|] eqn:Hth; [|done].
    exfalso. apply (Hnotimer h t Hth).
    apply stop_loop_shrink in Hth.
    by apply (wf_own_handle w k l j Hwf Hin Hl h t).
Qed.

Lemma stop_frame_witness :
  let w := run [Call (CallAddJob "j1" "Job1" "1m" (ActionRef 0));
                Call CallStart;
                Fire 0%nat ReturnedPromise] (initial 0) in
  running (snd (stop w)) = false /\
  status <$> objects (snd (stop w)) !! 0%nat = Some Running /\
  timers (snd (stop w)) !! 0%nat = None.
Proof.
  intros w. destruct (stop_frame w) as (_ & Hr & _ & Hjobs).
  - apply reachable_run.
  - destruct (Hjobs "j1" 0%nat (objects w !!! 0%nat)) as (Hobj & _ & Hh).
    + vm_compute. left.
    + vm_compute. reflexivity.
    + split; [exact Hr|]. split.
      * etrans; [exact (f_equal (fmap status) Hobj)|].
        vm_compute. reflexivity.
      * apply Hh. vm_compute. reflexivity.
Defined.

(** ** Arrays handed to callers *)

Lemma getAllJobs_eq (w : World) :
  getAllJobs w
  = (Normal (next_aref w),
     with_arrays (insert (next_aref w) (map_values (jobs w)))
       (S (next_aref w)) w).
Proof. reflexivity. Qed.

Lemma getJobsByStatus_eq st (w : World) :
  getJobsByStatus st w
  = (Normal (S (next_aref w)),
     with_arrays
       (insert (S (next_aref w))
          (filter (fun l => status (objects w !!! l) = st)
             (map_values (jobs w))))
       (S (S (next_aref w)))
       (with_arrays (insert (next_aref w) (map_values (jobs w)))
          (S (next_aref w)) w)).
Proof.
  unfold getJobsByStatus, getAllJobs, mbind, M_bind, new_array,
    array_read, gets.
  cbv beta iota zeta. wsimpl. by rewrite lookup_insert_eq.
Qed.

Lemma arrays_frame_call c (w : World) :
  match c with
  | CallGetAllJobs | CallGetJobsByStatus _ => True
  | _ => arrays (call c w) = arrays w /\ next_aref (call c w) = next_aref w
  end.
Proof.
  destruct c as [i n s a|i| | |i|i|i| |st]; cbn [call]; try done.
  - rewrite addJob_eq. cbn [snd]. unfold added. by destruct (running w).
  - rewrite removeJob_eq. destruct (map_get i (jobs w)); [|done].
    cbn [snd]. unfold removed. by destruct (intervalId _).
  - rewrite start_eq. cbn [snd].
    by destruct (started_frame w) as (_ & _ & _ & -> & -> & _).
  - rewrite stop_eq. cbn [snd].
    by destruct (stopped_frame w) as (_ & _ & _ & _ & -> & -> & _).
  - rewrite enableJob_eq. destruct (map_get i (jobs w)); [|done].
    cbn [snd]. unfold enabled_job. by destruct (running w).
  - rewrite disableJob_eq. destruct (map_get i (jobs w)) as [job|]; [|done].
    cbn [snd]. unfold disabled_job.
    by destruct (disarm_frame job
         (with_objects (alter (set_enabled false) job) (next_loc w) w))
      as (_ & _ & _ & _ & -> & -> & _).
Qed.

Lemma arrays_fresh_exec e (w : World) :
  arrays_fresh w -> arrays_fresh (exec e w).
Proof.
  intros Hfresh. destruct e as [c|d|h r|k o|a xs]; cbn [exec].
  - pose proof (arrays_frame_call c w) as Hc.
    destruct c;
      lazymatch type of Hc with
      | _ /\ _ => destruct Hc as [Ha Hn]; unfold arrays_fresh;
                  rewrite Ha, Hn; exact Hfresh
      | _ => idtac
      end.
    + intros a xs. cbn [call]. rewrite getAllJobs_eq. wsimpl.
      intros [[<- _]|[_ Ha]]%lookup_insert_Some; [lia|].
      apply Hfresh in Ha. lia.
    + intros a xs. cbn [call]. rewrite getJobsByStatus_eq. wsimpl.
      intros [[<- _]|[_ [[<- _]|[_ Ha]]%lookup_insert_Some]]%lookup_insert_Some;
        [lia|lia|].
      apply Hfresh in Ha. lia.
  - exact Hfresh.
  - destruct (timers w !! h) as [t|]; [|done].
    unfold timer_callback, mbind, M_bind, mret, M_ret, load, store, emit,
      modify, gets.
    cbv beta iota zeta. by destruct (enabled _), r.
  - destruct (inflight w !! k) as [job|]; [|done]. by destruct o.
  - destruct (arrays w !! a) as [ys|] eqn:Ha; [|done].
    intros b zs. cbn. intros [[<- _]|[_ Hb]]%lookup_insert_Some.
    + by apply (Hfresh a ys).
    + by apply (Hfresh b zs).
Qed.

Lemma reachable_arrays_fresh (w : World) : reachable w -> arrays_fresh w.
Proof.
  induction 1 as [t0|e w _ IH].
  - intros a xs. cbn. by rewrite lookup_empty.
  - by apply arrays_fresh_exec.
Qed.

(** C9 (snapshots).  [getAllJobs] returns a new array, one that no caller
    holds yet, filled with the registry's jobs in order, and the call leaves
    the registry as it was.  Whatever the caller then writes into that
    array, the registry stays as it was and a later [getAllJobs] still
    returns the registry's jobs.  [getJobsByStatus st] returns a new array
    holding the snapshot filtered to the jobs whose status is [st], and
    leaves the registry as it was. *)
Theorem getAllJobs_snapshot (w : World) :
  reachable w ->
  let a := next_aref w in
  let w' := snd (getAllJobs w) in
  fst (getAllJobs w) = Normal a /\
  arrays w !! a = None /\
  arrays w' !! a = Some (map_values (jobs w)) /\
  registry w' = registry w /\
  (forall xs,
     let w'' := exec (ArrayWrite a xs) w' in
     arrays w'' !! a = Some xs /\
     registry w'' = registry w /\
     exists a2, fst (getAllJobs w'') = Normal a2 /\ a2 <> a /\
       arrays (snd (getAllJobs w'')) !! a2 = Some (map_values (jobs w))) /\
  (forall st,
     let w2 := snd (getJobsByStatus st w) in
     exists b, fst (getJobsByStatus st w) = Normal b /\
       arrays w !! b = None /\
       arrays w2 !! b
       = Some (filter (fun l => status (objects w !!! l) = st)
                 (map_values (jobs w))) /\
       (forall l, l ∈ default [] (arrays w2 !! b) <->
          exists k j, (k, l) ∈ jobs w /\ objects w !! l = Some j /\
                      status j = st) /\
       registry w2 = registry w).
Proof.
  intros Hreach. pose proof (reachable_arrays_fresh w Hreach) as Hfresh.
  destruct (reachable_inv w Hreach) as [Hwf _].
  assert (Hnew : forall b, (next_aref w <= b)%nat -> arrays w !! b = None).
  { intros b Hle. destruct (arrays w !! b) as [xs|] eqn:Hb; [|done].
    apply Hfresh in Hb. lia. }
  cbv zeta. rewrite getAllJobs_eq. cbn [fst snd]. split_and!.
  - reflexivity.
  - by apply Hnew.
  - wsimpl. by rewrite lookup_insert_eq.
  - reflexivity.
  - intros xs. cbn [exec]. wsimpl. rewrite lookup_insert_eq. split_and!.
    + wsimpl. by rewrite lookup_insert_eq.
    + reflexivity.
    + exists (S (next_aref w)). rewrite getAllJobs_eq. cbn [fst snd].
      split_and!; [reflexivity|lia|].
      wsimpl. by rewrite lookup_insert_eq.
  - intros st. exists (S (next_aref w)).
    rewrite getJobsByStatus_eq. cbn [fst snd]. wsimpl.
    rewrite lookup_insert_eq. split_and!.
    + reflexivity.
    + apply Hnew. lia.
    + reflexivity.
    + intros l. cbn [default from_option]. unfold Datatypes.id.
      rewrite list_elem_of_filter, elem_map_values. split.
      * intros [Hst [k Hin]].
        destruct (wf_stored _ Hwf k l Hin) as (j & Hl & _).
        exists k, j. by rewrite (lookup_total_correct _ _ _ Hl) in Hst.
      * intros (k & j & Hin & Hl & Hst).
        rewrite (lookup_total_correct _ _ _ Hl). eauto.
    + reflexivity.
Qed.

Lemma getAllJobs_snapshot_witness :
  let w := run [Call (CallAddJob "j1" "Job1" "1m" (ActionRef 0));
                Call (CallAddJob "j2" "Job2" "2h" (ActionRef 1))] (initial 0) in
  arrays (snd (getAllJobs w)) !! 0%nat = Some [0%nat; 1%nat] /\
  registry (exec (ArrayWrite 0%nat []) (snd (getAllJobs w))) = registry w.
Proof.
  intros w. destruct (getAllJobs_snapshot w) as (_ & _ & Ha & _ & Hw & _).
  - apply reachable_run.
  - split; [exact Ha|]. exact (proj1 (proj2 (Hw []))).
Defined.

(** * Scenarios of the specification, run on the model *)

(** A job is added, the scheduler started, the interval fires and the
    action succeeds seven milliseconds later. *)
Example status_transition_scenario :
  let add := Call (CallAddJob "j1" "Job1" "1m" (ActionRef 0)) in
  let w0 := run [add] (initial 1000) in
  let w1 := run [Call CallStart; Fire 0%nat ReturnedPromise] w0 in
  let w2 := run [Tick 7; Settle 0%nat Fulfilled] w1 in
  status <$> job_of w0 "j1" = Some Pending /\
  status <$> job_of w1 "j1" = Some Running /\
  status <$> job_of w2 "j1" = Some Completed /\
  lastRun <$> job_of w2 "j1" = Some (Some 1007) /\
  nextRun <$> job_of w2 "j1" = Some (Some 61000).
Proof. vm_compute. by repeat split. Qed.

(** The same with an action that fails: the job ends [Failed], keeps its
    interval and has no [lastRun]. *)
Example failure_scenario :
  let w := run [Call (CallAddJob "j1" "Job1" "1m" (ActionRef 0));
                Call CallStart; Fire 0%nat ReturnedPromise;
                Tick 7; Settle 0%nat Rejected] (initial 1000) in
  status <$> job_of w "j1" = Some Failed /\
  lastRun <$> job_of w "j1" = Some None /\
  timers w !! 0%nat = Some {| t_job := 0%nat; t_period := 60000 |} /\
  effects w = [Invoked (ActionRef 0); ConsoleError "j1"].
Proof. vm_compute. by repeat split. Qed.

(** The defect the specification points at: [addJob] on an id that is
    present, while running, leaves the interval of the replaced object
    armed.  Not even [stop] disarms it, and when it fires it runs the old
    action. *)
Example duplicate_id_leaves_interval_armed :
  let w := run [Call (CallAddJob "a" "first" "1m" (ActionRef 1));
                Call CallStart;
                Call (CallAddJob "a" "second" "2h" (ActionRef 2));
                Call CallStop] (initial 0) in
  map_get "a" (jobs w) = Some 1%nat /\
  timers w !! 0%nat = Some {| t_job := 0%nat; t_period := 60000 |} /\
  effects (exec (Fire 0%nat ReturnedPromise) w) = [Invoked (ActionRef 1)].
Proof. vm_compute. by repeat split. Qed.

(** A schedule whose interval lies above every finite double: for a one
    followed by 304 zeros the source's products overflow, [parseSchedule]
    returns [Infinity] and Node arms the interval with a period of 1 ms;
    with one zero less the result is finite. *)
Example parseSchedule_infinity :
  Double.parseSchedule "10000000000000000000000000000000000000000000000000000000000000000000000000000000000000000000000000000000000000000000000000000000000000000000000000000000000000000000000000000000000000000000000000000000000000000000000000000000000000000000000000000000000000000000000000000000000000000000000000000000000000000" = Double.PosInfinity /\
  Double.delay (Double.parseSchedule "10000000000000000000000000000000000000000000000000000000000000000000000000000000000000000000000000000000000000000000000000000000000000000000000000000000000000000000000000000000000000000000000000000000000000000000000000000000000000000000000000000000000000000000000000000000000000000000000000000000000000000") = 1 /\
  Double.parseSchedule "1000000000000000000000000000000000000000000000000000000000000000000000000000000000000000000000000000000000000000000000000000000000000000000000000000000000000000000000000000000000000000000000000000000000000000000000000000000000000000000000000000000000000000000000000000000000000000000000000000000000000000" <> Double.PosInfinity.
Proof.
  split; [reflexivity|]. split; [reflexivity|].
  intros H. vm_compute in H. discriminate H.
Qed.

(** * Further properties of the code *)

(** ** Lookups in the insertion-ordered map *)

Lemma elem_map_get k l (m : list (string * loc)) :
  NoDup (map fst m) -> (k, l) ∈ m -> map_get k m = Some l.
Proof.
  induction m as [|[k' l'] m IH]; cbn [map_get map fst].
  - intros _ Hin. by apply elem_of_nil in Hin.
  - intros Hnd Hin. apply NoDup_cons in Hnd as [Hnotin Hnd].
    apply elem_of_cons in Hin as [[= -> ->]|Hin].
    + by rewrite String.eqb_refl.
    + destruct (String.eqb_spec k k') as [->|Hne]; [|auto].
      exfalso. apply Hnotin.
      apply (list_elem_of_fmap_2 fst) in Hin. exact Hin.
Qed.

Lemma map_set_here k l (m : list (string * loc)) : (k, l) ∈ map_set k l m.
Proof.
  induction m as [|[k0 l0] m IH]; cbn [map_set]; [left|].
  destruct (String.eqb_spec k k0); [left | by right].
Qed.

Lemma map_set_other k l (m : list (string * loc)) k' l' :
  k' <> k -> (k', l') ∈ m -> (k', l') ∈ map_set k l m.
Proof.
  intros Hne. induction m as [|[k0 l0] m IH]; cbn [map_set].
  - intros Hin. by apply elem_of_nil in Hin.
  - intros Hin. apply elem_of_cons in Hin as [[= -> ->]|Hin].
    + destruct (String.eqb_spec k k0); [done|left].
    + destruct (String.eqb_spec k k0); right; auto.
Qed.

Lemma map_delete_other k (m : list (string * loc)) k' l' :
  k' <> k -> (k', l') ∈ m -> (k', l') ∈ map_delete k m.
Proof.
  intros Hne. induction m as [|[k0 l0] m IH]; cbn [map_delete]; [done|].
  intros Hin. apply elem_of_cons in Hin as [[= -> ->]|Hin].
  - destruct (String.eqb_spec k k0); [congruence|left].
  - destruct (String.eqb_spec k k0); [done|right; auto].
Qed.

Lemma map_get_delete k (m : list (string * loc)) k' :
  NoDup (map fst m) ->
  map_get k' (map_delete k m) = if decide (k' = k) then None else map_get k' m.
Proof.
  induction m as [|[k0 l0] m IH]; cbn [map_delete map_get map fst].
  - intros _. by case_decide.
  - intros Hnd. apply NoDup_cons in Hnd as [Hnotin Hnd].
    destruct (String.eqb_spec k k0) as [->|Hne].
    + case_decide as Heq.
      * subst k'. by apply map_get_None.
      * by destruct (String.eqb_spec k' k0).
    + cbn [map_get]. rewrite IH by done.
      destruct (String.eqb_spec k' k0) as [->|?]; [|done].
      by rewrite decide_False.
Qed.

Lemma filter_all {A} (P : A -> Prop) `{!forall x, Decision (P x)} (xs : list A) :
  Forall P xs -> filter P xs = xs.
Proof.
  induction 1 as [|x xs Hx _ IH]; [done|].
  by rewrite filter_cons_True, IH.
Qed.

Lemma map_delete_filter k (m : list (string * loc)) :
  NoDup (map fst m) -> map_delete k m = filter (fun kl => fst kl <> k) m.
Proof.
  induction m as [|[k0 l0] m IH]; cbn [map_delete map fst]; [done|].
  intros Hnd. apply NoDup_cons in Hnd as [Hnotin Hnd].
  destruct (String.eqb_spec k k0) as [->|Hne].
  - rewrite filter_cons_False by (cbn; auto).
    symmetry. apply filter_all. apply Forall_forall.
    intros [k' l'] Hin Heq. cbn in Heq. subst k'. apply Hnotin.
    apply (list_elem_of_fmap_2 fst) in Hin. exact Hin.
  - rewrite filter_cons_True by (cbn; congruence). by rewrite IH.
Qed.

Lemma map_delete_set_fresh k l (m : list (string * loc)) :
  map_get k m = None -> map_delete k (map_set k l m) = m.
Proof.
  induction m as [|[k0 l0] m IH]; cbn [map_get map_set map_delete].
  - by rewrite String.eqb_refl.
  - destruct (String.eqb_spec k k0) as [->|Hne]; [done|].
    intros Hget. cbn [map_delete].
    destruct (String.eqb_spec k k0); [done|]. by rewrite IH.
Qed.

Lemma NoDup_map_values (m : list (string * loc)) :
  NoDup (map fst m) ->
  (forall k k' l, (k, l) ∈ m -> (k', l) ∈ m -> k = k') ->
  NoDup (map_values m).
Proof.
  unfold map_values.
  induction m as [|[k l] m IH]; cbn [map fst snd]; [constructor|].
  intros Hnd Hinj. apply NoDup_cons in Hnd as [Hnotin Hnd].
  apply NoDup_cons. split.
  - intros Hin. change (map snd m) with (map_values m) in Hin.
    apply elem_map_values in Hin as [k' Hin].
    apply Hnotin. rewrite (Hinj k k' l); [|left|by right].
    apply (list_elem_of_fmap_2 fst) in Hin. exact Hin.
  - apply IH; [done|]. intros k1 k2 l' H1 H2.
    apply (Hinj k1 k2 l'); by right.
Qed.

(** X5.  In every reachable world the keys of the registry are pairwise
    distinct, no job object is stored under two keys, and the object stored
    under a key carries that key as its [id] and is what [getJob] returns. *)
Theorem registry_keys_unique (w : World) :
  reachable w ->
  NoDup (map fst (jobs w)) /\
  NoDup (map_values (jobs w)) /\
  forall k l, (k, l) ∈ jobs w ->
    getJob k w = (Normal (Some l), w) /\
    exists j, objects w !! l = Some j /\ id j = k.
Proof.
  intros [Hwf _]%reachable_inv. split; [apply Hwf|]. split.
  - apply NoDup_map_values; [apply Hwf|].
    intros k k' l. by apply wf_stored_inj.
  - intros k l Hin. split; [|by apply (wf_stored _ Hwf)].
    unfold getJob, gets. rewrite (elem_map_get k l); [done|apply Hwf|done].
Qed.

Lemma registry_keys_unique_witness :
  let w := run [Call (CallAddJob "a" "A" "1m" (ActionRef 0));
                Call (CallAddJob "b" "B" "2h" (ActionRef 1));
                Call (CallAddJob "a" "A2" "1d" (ActionRef 2))] (initial 0) in
  NoDup (map fst (jobs w)) /\ NoDup (map_values (jobs w)).
Proof.
  intros w. destruct (registry_keys_unique w) as (H1 & H2 & _).
  - apply reachable_run.
  - by split.
Defined.

(** ** What happens to job objects *)

Lemma fold_left_invariant {A} (I : World -> Prop) (g : World -> A -> World) xs w :
  (forall w' x, I w' -> I (g w' x)) -> I w -> I (fold_left g xs w).
Proof.
  intros Hstep. revert w. induction xs as [|x xs IH]; intros w Hw; [done|].
  cbn [fold_left]. by apply IH, Hstep.
Qed.

Lemma timer_callback_objects job r (w : World) :
  objects (snd (timer_callback job r w))
  = if enabled (objects w !!! job)
    then alter (match r with
                | ThrewSync => set_status Failed ∘ set_status Running
                | ReturnedPromise => set_status Running
                end) job (objects w)
    else objects w.
Proof.
  unfold timer_callback, mbind, M_bind, mret, M_ret, load, store, emit,
    modify, gets.
  cbv beta iota zeta. destruct (enabled (objects w !!! job)); cbn [negb].
  - destruct r; cbv beta iota zeta; wsimpl; [|done]. by rewrite alter_alter_eq.
  - done.
Qed.

Lemma timer_callback_resume_objects job o (w : World) :
  objects (snd (timer_callback_resume job o w))
  = alter (match o with
           | Fulfilled => set_lastRun (Some (clock w)) ∘ set_status Completed
           | Rejected => set_status Failed
           end) job (objects w).
Proof.
  unfold timer_callback_resume, mbind, M_bind, mret, M_ret, load, store, emit,
    date_now, modify, gets.
  destruct o; cbv beta iota zeta; wsimpl; [|done]. by rewrite alter_alter_eq.
Qed.

(** A property of job objects that every assignment of the code keeps and
    that a newly built job has holds of every object, always. *)
Section ObjectInvariant.

Variable Q : ScheduledJob -> Prop.
Hypothesis Q_new : forall i n s a t, Q (new_job i n s a t).
Hypothesis Q_enabled : forall b j, Q j -> Q (set_enabled b j).
Hypothesis Q_nextRun : forall t j, Q j -> Q (set_nextRun (Some t) j).
Hypothesis Q_intervalId : forall h j, Q j -> Q (set_intervalId h j).
Hypothesis Q_running : forall j, Q j -> Q (set_status Running j).
Hypothesis Q_failed : forall j, Q j -> Q (set_status Failed j).
Hypothesis Q_fulfilled :
  forall t j, Q j -> Q (set_lastRun (Some t) (set_status Completed j)).

Lemma all_objects_alter f job (w w' : World) :
  (forall j, Q j -> Q (f j)) -> objects w' = alter f job (objects w) ->
  all_objects Q w -> all_objects Q w'.
Proof.
  intros Hf Ho Hall l j'. rewrite Ho.
  intros [[-> (j & Hl & ->)]|[_ Hl]]%lookup_alter_Some; [|by eapply Hall].
  apply Hf. by eapply Hall.
Qed.

Lemma all_objects_same (w w' : World) :
  objects w' = objects w -> all_objects Q w -> all_objects Q w'.
Proof. unfold all_objects. by intros ->. Qed.

Lemma all_objects_arm job (w : World) :
  all_objects Q w -> all_objects Q (arm job w).
Proof.
  intros Hall. eapply (all_objects_alter _ job
    (with_objects (alter (set_intervalId (Some (next_timeout w))) job)
       (next_loc w) w)); [|reflexivity|].
  - apply Q_nextRun.
  - eapply all_objects_alter; [|reflexivity|exact Hall]. apply Q_intervalId.
Qed.

Lemma all_objects_disarm job (w : World) :
  all_objects Q w -> all_objects Q (disarm job w).
Proof.
  intros Hall. unfold disarm. destruct (intervalId _); [|done].
  eapply all_objects_alter; [|reflexivity|exact Hall]. apply Q_intervalId.
Qed.

Lemma all_objects_call c (w : World) :
  all_objects Q w -> all_objects Q (call c w).
Proof.
  intros Hall. destruct c as [i n s a|i| | |i|i|i| |st]; cbn [call].
  - rewrite addJob_eq. cbn [snd]. rewrite added_unfold.
    assert (Hreg : all_objects Q
              (with_jobs (map_set i (next_loc w))
                 (with_objects (insert (next_loc w) (new_job i n s a (clock w)))
                    (S (next_loc w)) w))).
    { intros l j. wsimpl.
      intros [[_ <-]|[_ Hl]]%lookup_insert_Some; [apply Q_new|by eapply Hall]. }
    destruct (running w); [by apply all_objects_arm|done].
  - rewrite removeJob_eq. destruct (map_get i (jobs w)); [|done].
    cbn [snd]. eapply all_objects_same; [|exact Hall].
    unfold removed. by destruct (intervalId _).
  - rewrite start_eq. cbn [snd]. unfold started.
    apply fold_left_invariant; [|done].
    intros w' x Hw'. unfold start_step.
    destruct (enabled _); [by apply all_objects_arm|done].
  - rewrite stop_eq. cbn [snd]. unfold stopped.
    apply fold_left_invariant; [|done].
    intros w' x. apply all_objects_disarm.
  - rewrite enableJob_eq. destruct (map_get i (jobs w)) as [job|]; [|done].
    cbn [snd]. unfold enabled_job.
    assert (Hen : all_objects Q
              (with_objects (alter (set_enabled true) job) (next_loc w) w)).
    { eapply all_objects_alter; [|reflexivity|exact Hall]. apply Q_enabled. }
    destruct (running w); [by apply all_objects_arm|done].
  - rewrite disableJob_eq. destruct (map_get i (jobs w)) as [job|]; [|done].
    cbn [snd]. unfold disabled_job. apply all_objects_disarm.
    eapply all_objects_alter; [|reflexivity|exact Hall]. apply Q_enabled.
  - done.
  - done.
  - rewrite getJobsByStatus_eq. done.
Qed.

Lemma all_objects_exec e (w : World) :
  all_objects Q w -> all_objects Q (exec e w).
Proof.
  intros Hall. destruct e as [c|d|h r|k o|a xs]; cbn [exec].
  - by apply all_objects_call.
  - done.
  - destruct (timers w !! h) as [t|]; [|done].
    pose proof (timer_callback_objects (t_job t) r w) as Ho.
    destruct (enabled _); [|by eapply all_objects_same].
    eapply all_objects_alter; [|exact Ho|exact Hall].
    destruct r; cbn; auto.
  - destruct (inflight w !! k) as [job|]; [|done].
    eapply all_objects_alter;
      [|apply timer_callback_resume_objects|exact Hall].
    destruct o; cbn; auto.
  - by destruct (arrays w !! a).
Qed.

Lemma reachable_all_objects (w : World) : reachable w -> all_objects Q w.
Proof.
  induction 1 as [t0|e w _ IH].
  - intros l j. cbn. by rewrite lookup_empty.
  - by apply all_objects_exec.
Qed.

End ObjectInvariant.

Lemma status_ok_reachable (w : World) : reachable w -> all_objects status_ok w.
Proof.
  apply reachable_all_objects; unfold status_ok; cbn.
  - intros _ _ s _ t. repeat split; eauto; discriminate.
  - done.
  - intros t j (? & ? & ? & _). eauto.
  - done.
  - intros j (? & ? & ? & ?). repeat split; (done || discriminate).
  - intros j (? & ? & ? & ?). repeat split; (done || discriminate).
  - intros t j (? & ? & ? & ?). repeat split; eauto; discriminate.
Qed.

(** X8.  In every reachable world, every job object has a [nextRun]; none
    has status [cancelled]; a job that is still [pending] has no [lastRun]
    and a [completed] one has a [lastRun]; and [getJobsByStatus] for
    [cancelled] returns an empty array. *)
Theorem status_invariant (w : World) :
  reachable w ->
  (forall l j, objects w !! l = Some j ->
     status j <> Cancelled /\
     (status j = Pending -> lastRun j = None) /\
     (status j = Completed -> is_Some (lastRun j)) /\
     is_Some (nextRun j)) /\
  exists b, fst (getJobsByStatus Cancelled w) = Normal b /\
    arrays (snd (getJobsByStatus Cancelled w)) !! b = Some [].
Proof.
  intros Hreach. pose proof (status_ok_reachable w Hreach) as Hok.
  destruct (reachable_inv w Hreach) as [Hwf _].
  split; [exact Hok|].
  exists (S (next_aref w)). rewrite getJobsByStatus_eq. cbn [fst snd]. wsimpl.
  split; [done|]. rewrite lookup_insert_eq. f_equal.
  destruct (filter _ _) as [|l rest] eqn:Hf; [done|].
  assert (Hin : l ∈ filter (fun l => status (objects w !!! l) = Cancelled)
                  (map_values (jobs w))) by (rewrite Hf; left).
  apply list_elem_of_filter in Hin as [Hst [k Hin]%elem_map_values].
  destruct (wf_stored _ Hwf k l Hin) as (j & Hl & _).
  rewrite (lookup_total_correct _ _ _ Hl) in Hst.
  by destruct (Hok l j Hl) as [Hne _].
Qed.

Lemma status_invariant_witness :
  let w := run [Call (CallAddJob "j1" "Job1" "1m" (ActionRef 0));
                Call CallStart; Fire 0%nat ReturnedPromise;
                Tick 3; Settle 0%nat Fulfilled; Call CallStop] (initial 0) in
  status (objects w !!! 0%nat) <> Cancelled /\
  is_Some (lastRun (objects w !!! 0%nat)).
Proof.
  intros w. destruct (status_invariant w) as [Hobj _].
  - apply reachable_run.
  - destruct (Hobj 0%nat (objects w !!! 0%nat)) as (H1 & _ & H3 & _).
    + vm_compute. reflexivity.
    + split; [exact H1|]. apply H3. vm_compute. reflexivity.
Defined.

(** A relation between the old and the new value of a job object that
    every assignment of the methods respects relates each object of a world
    to the same object after any method call. *)
Section ObjectRelation.

Variable P : ScheduledJob -> ScheduledJob -> Prop.
Hypothesis P_refl : forall j, P j j.
Hypothesis P_trans : forall j1 j2 j3, P j1 j2 -> P j2 j3 -> P j1 j3.
Hypothesis P_enabled : forall b j, P j (set_enabled b j).
Hypothesis P_nextRun : forall t j, P j (set_nextRun t j).
Hypothesis P_intervalId : forall h j, P j (set_intervalId h j).

Lemma evolves_refl (w w' : World) : objects w' = objects w -> evolves P w w'.
Proof. intros Ho l j Hl. exists j. by rewrite Ho. Qed.

Lemma evolves_trans (w1 w2 w3 : World) :
  evolves P w1 w2 -> evolves P w2 w3 -> evolves P w1 w3.
Proof.
  intros H12 H23 l j1 Hl1.
  destruct (H12 l j1 Hl1) as (j2 & Hl2 & HP12).
  destruct (H23 l j2 Hl2) as (j3 & Hl3 & HP23).
  exists j3. split; [done|]. by eapply P_trans.
Qed.

Lemma evolves_alter f job (w w' : World) :
  (forall j, P j (f j)) -> objects w' = alter f job (objects w) ->
  evolves P w w'.
Proof.
  intros Hf Ho l j Hl. rewrite Ho. destruct (decide (job = l)) as [->|Hne].
  - exists (f j). by rewrite lookup_alter_eq, Hl.
  - exists j. by rewrite lookup_alter_ne.
Qed.

Lemma evolves_arm job (w : World) : evolves P w (arm job w).
Proof.
  eapply evolves_trans.
  - apply (evolves_alter (set_intervalId (Some (next_timeout w))) job w
             (with_objects (alter (set_intervalId (Some (next_timeout w))) job)
                (next_loc w) w)); [apply P_intervalId|reflexivity].
  - eapply evolves_alter; [apply P_nextRun|reflexivity].
Qed.

Lemma evolves_disarm job (w : World) : evolves P w (disarm job w).
Proof.
  unfold disarm. destruct (intervalId _); [|by apply evolves_refl].
  eapply evolves_alter; [apply P_intervalId|reflexivity].
Qed.

Lemma evolves_fold {A} (g : World -> A -> World) xs (w : World) :
  (forall w' x, evolves P w' (g w' x)) -> evolves P w (fold_left g xs w).
Proof.
  intros Hstep. revert w. induction xs as [|x xs IH]; intros w.
  - by apply evolves_refl.
  - cbn [fold_left]. eapply evolves_trans; [apply Hstep|apply IH].
Qed.

Lemma evolves_call c (w : World) : wf w -> evolves P w (call c w).
Proof.
  intros Hwf. destruct c as [i n s a|i| | |i|i|i| |st]; cbn [call].
  - rewrite addJob_eq. cbn [snd]. rewrite added_unfold.
    assert (Hreg : evolves P w
              (with_jobs (map_set i (next_loc w))
                 (with_objects (insert (next_loc w) (new_job i n s a (clock w)))
                    (S (next_loc w)) w))).
    { intros l j Hl. exists j. split; [|done]. wsimpl.
      rewrite lookup_insert_ne; [done|].
      apply (wf_fresh_loc _ Hwf) in Hl. lia. }
    destruct (running w); [|done].
    eapply evolves_trans; [exact Hreg|apply evolves_arm].
  - rewrite removeJob_eq. destruct (map_get i (jobs w)); [|by apply evolves_refl].
    cbn [snd]. apply evolves_refl. unfold removed. by destruct (intervalId _).
  - rewrite start_eq. cbn [snd]. unfold started.
    eapply evolves_trans; [apply (evolves_refl w (with_running true w)); done|].
    apply evolves_fold. intros w' x. unfold start_step.
    destruct (enabled _); [apply evolves_arm|by apply evolves_refl].
  - rewrite stop_eq. cbn [snd]. unfold stopped.
    eapply evolves_trans; [apply (evolves_refl w (with_running false w)); done|].
    apply evolves_fold. intros w' x. apply evolves_disarm.
  - rewrite enableJob_eq.
    destruct (map_get i (jobs w)) as [job|]; [|by apply evolves_refl].
    cbn [snd]. unfold enabled_job.
    assert (Hen : evolves P w
              (with_objects (alter (set_enabled true) job) (next_loc w) w)).
    { eapply evolves_alter; [apply P_enabled|reflexivity]. }
    destruct (running w); [|done].
    eapply evolves_trans; [exact Hen|apply evolves_arm].
  - rewrite disableJob_eq.
    destruct (map_get i (jobs w)) as [job|]; [|by apply evolves_refl].
    cbn [snd]. unfold disabled_job.
    eapply evolves_trans; [|apply evolves_disarm].
    eapply evolves_alter; [apply P_enabled|reflexivity].
  - by apply evolves_refl.
  - by apply evolves_refl.
  - rewrite getJobsByStatus_eq. by apply evolves_refl.
Qed.

(** With the assignments of the timer callback respected as well, the
    relation holds across every event. *)
Hypothesis P_status : forall st j, P j (set_status st j).
Hypothesis P_lastRun : forall t j, P j (set_lastRun t j).

Lemma evolves_exec e (w : World) : wf w -> evolves P w (exec e w).
Proof.
  intros Hwf. destruct e as [c|d|h r|k o|a xs]; cbn [exec].
  - by apply evolves_call.
  - by apply evolves_refl.
  - destruct (timers w !! h) as [t|]; [|by apply evolves_refl].
    pose proof (timer_callback_objects (t_job t) r w) as Ho.
    destruct (enabled _); [|by apply evolves_refl].
    eapply evolves_alter; [|exact Ho].
    intros j. destruct r; cbn; [|apply P_status].
    eapply P_trans; apply P_status.
  - destruct (inflight w !! k) as [job|]; [|by apply evolves_refl].
    eapply evolves_trans;
      [apply (evolves_refl w (with_inflight (delete k) w)); done|].
    eapply evolves_alter; [|apply timer_callback_resume_objects].
    intros j. destruct o; cbn; [|apply P_status].
    eapply P_trans; [apply P_status|apply P_lastRun].
  - destruct (arrays w !! a); by apply evolves_refl.
Qed.

Lemma evolves_run tr (w : World) : reachable w -> evolves P w (run tr w).
Proof.
  unfold run. revert w. induction tr as [|e tr IH]; intros w Hreach.
  - by apply evolves_refl.
  - cbn [fold_left]. eapply evolves_trans.
    + apply evolves_exec. by apply reachable_inv.
    + apply IH. by constructor.
Qed.

End ObjectRelation.

Lemma same_identity_refl j : same_identity j j.
Proof. by repeat split. Qed.

Lemma same_identity_trans j1 j2 j3 :
  same_identity j1 j2 -> same_identity j2 j3 -> same_identity j1 j3.
Proof.
  unfold same_identity. intros (? & ? & ? & ?) (? & ? & ? & ?).
  repeat split; congruence.
Qed.

(** X9.  A job object, once created, is never dropped from the store and
    its [id], [name], [schedule] and [action] never change, whatever
    happens afterwards: method calls, clock movements, firings,
    settlements, even the removal of the job from the registry. *)
Theorem identity_is_immutable (w : World) (tr : list Event) l j :
  reachable w -> objects w !! l = Some j ->
  exists j', objects (run tr w) !! l = Some j' /\
    id j' = id j /\ name j' = name j /\ schedule j' = schedule j /\
    action j' = action j.
Proof.
  intros Hreach Hl.
  apply (evolves_run same_identity same_identity_refl same_identity_trans);
    try done; intros; apply same_identity_refl.
Qed.

Lemma identity_is_immutable_witness :
  let w := run [Call (CallAddJob "j1" "Job1" "1m" (ActionRef 7));
                Call CallStart] (initial 0) in
  let tr := [Fire 0%nat ReturnedPromise; Call (CallRemoveJob "j1");
             Settle 0%nat Rejected] in
  exists j', objects (run tr w) !! 0%nat = Some j' /\
    id j' = "j1" /\ name j' = "Job1" /\ schedule j' = "1m" /\
    action j' = ActionRef 7.
Proof.
  intros w tr.
  apply (identity_is_immutable w tr 0%nat
           {| id := "j1"; name := "Job1"; schedule := "1m";
              action := ActionRef 7; enabled := true; lastRun := None;
              nextRun := Some 60000; status := Pending;
              intervalId := Some 0%nat |}).
  - apply reachable_run.
  - vm_compute. reflexivity.
Defined.

Lemma effects_frame_call c (w : World) :
  effects (call c w) = effects w /\ inflight (call c w) = inflight w /\
  clock (call c w) = clock w.
Proof.
  destruct c as [i n s a|i| | |i|i|i| |st]; cbn [call]; try done.
  - rewrite addJob_eq. cbn [snd]. unfold added. by destruct (running w).
  - rewrite removeJob_eq. destruct (map_get i (jobs w)); [|done].
    cbn [snd]. unfold removed. by destruct (intervalId _).
  - rewrite start_eq. cbn [snd].
    by destruct (started_frame w) as (_ & _ & _ & _ & _ & -> & -> & ->).
  - rewrite stop_eq. cbn [snd].
    by destruct (stopped_frame w) as (_ & _ & _ & _ & _ & _ & -> & -> & ->).
  - rewrite enableJob_eq. destruct (map_get i (jobs w)); [|done].
    cbn [snd]. unfold enabled_job. by destruct (running w).
  - rewrite disableJob_eq. destruct (map_get i (jobs w)) as [job|]; [|done].
    cbn [snd]. unfold disabled_job.
    by destruct (disarm_frame job
         (with_objects (alter (set_enabled false) job) (next_loc w) w))
      as (_ & _ & _ & _ & _ & _ & -> & -> & ->).
Qed.

(** X7.  No method of the scheduler runs an action, logs, or touches a
    callback that is waiting for its action: the only thing that ever
    invokes an action is a timer firing.  Nor does any method write the
    [status] or the [lastRun] of a job that exists: not even [stop],
    [disableJob] or [removeJob] change how a job is reported. *)
Theorem methods_leave_outcomes (w : World) (c : MethodCall) :
  reachable w ->
  effects (call c w) = effects w /\
  inflight (call c w) = inflight w /\
  forall l j, objects w !! l = Some j ->
    exists j', objects (call c w) !! l = Some j' /\
      status j' = status j /\ lastRun j' = lastRun j.
Proof.
  intros [Hwf _]%reachable_inv.
  destruct (effects_frame_call c w) as (He & Hi & _).
  split; [done|]. split; [done|].
  by apply (evolves_call same_outcome);
    [|intros j1 j2 j3 [? ?] [? ?]; split; congruence|..].
Qed.

Lemma methods_leave_outcomes_witness :
  let w := run [Call (CallAddJob "j1" "Job1" "1m" (ActionRef 7));
                Call CallStart; Fire 0%nat ReturnedPromise] (initial 0) in
  effects (call CallStop w) = effects w /\
  exists j', objects (call CallStop w) !! 0%nat = Some j' /\
    status j' = Running.
Proof.
  intros w. destruct (methods_leave_outcomes w CallStop) as (He & _ & Hobj).
  - apply reachable_run.
  - split; [exact He|].
    destruct (Hobj 0%nat (objects w !!! 0%nat)) as (j' & Hl & Hs & _).
    + vm_compute. reflexivity.
    + exists j'. split; [exact Hl|]. rewrite Hs. vm_compute. reflexivity.
Defined.

(** ** The period of armed intervals *)

Lemma periods_arm job (w : World) j :
  objects w !! job = Some j -> periods_ok w -> periods_ok (arm job w).
Proof.
  intros Hjob Hp h t [[-> ->]|(_ & _ & Hth)]%(arm_timers job w j Hjob).
  - cbn [t_job t_period]. rewrite (arm_objects job w j Hjob), decide_True by done.
    eexists. split; [reflexivity|done].
  - destruct (Hp h t Hth) as (j' & Hl & Hper).
    rewrite (arm_objects job w j Hjob). case_decide as Heq; [|eauto].
    rewrite <- Heq in Hl. assert (j' = j) as -> by congruence.
    eexists. split; [reflexivity|done].
Qed.

Lemma periods_disarm job (w : World) : periods_ok w -> periods_ok (disarm job w).
Proof.
  intros Hp. destruct (objects w !! job) as [j|] eqn:Hjob;
    [|by rewrite disarm_dangling].
  intros h t [_ Hth]%(disarm_timers job w j Hjob).
  destruct (Hp h t Hth) as (j' & Hl & Hper).
  rewrite (disarm_objects job w j Hjob). case_decide as Heq; [|eauto].
  rewrite <- Heq in Hl. assert (j' = j) as -> by congruence.
  eexists. split; [reflexivity|done].
Qed.

Lemma periods_alter f job (w w' : World) :
  (forall j, schedule (f j) = schedule j) ->
  objects w' = alter f job (objects w) ->
  (forall h t, timers w' !! h = Some t -> timers w !! h = Some t) ->
  periods_ok w -> periods_ok w'.
Proof.
  intros Hf Ho Ht Hp h t Hth%Ht. destruct (Hp h t Hth) as (j & Hl & Hper).
  rewrite Ho. destruct (decide (job = t_job t)) as [Heq|Hne].
  - exists (f j). rewrite <- Heq in *. rewrite lookup_alter_eq, Hl.
    split; [done|]. by rewrite Hf.
  - exists j. by rewrite lookup_alter_ne.
Qed.

Lemma periods_shrink (w w' : World) :
  objects w' = objects w ->
  (forall h t, timers w' !! h = Some t -> timers w !! h = Some t) ->
  periods_ok w -> periods_ok w'.
Proof.
  intros Ho Ht Hp h t Hth%Ht. rewrite Ho. exact (Hp h t Hth).
Qed.

Lemma periods_start_step (w : World) x :
  periods_ok w -> periods_ok (start_step w x).
Proof.
  intros Hp. unfold start_step.
  destruct (objects w !! x) as [j|] eqn:Hx.
  - rewrite (lookup_total_correct _ _ _ Hx).
    destruct (enabled j); [by eapply periods_arm|done].
  - by rewrite lookup_total_alt, Hx.
Qed.

Lemma periods_call c (w : World) :
  wf w -> periods_ok w -> periods_ok (call c w).
Proof.
  intros Hwf Hp. destruct c as [i n s a|i| | |i|i|i| |st]; cbn [call].
  - rewrite addJob_eq. cbn [snd]. rewrite added_unfold.
    pose proof (registered_lookup i n s a w) as Hl.
    assert (Hreg : periods_ok
              (with_jobs (map_set i (next_loc w))
                 (with_objects (insert (next_loc w) (new_job i n s a (clock w)))
                    (S (next_loc w)) w))).
    { intros h t Hth. wsimpl. destruct (Hp h t Hth) as (j & Hj & Hper).
      exists j. split; [|done]. rewrite lookup_insert_ne; [done|].
      apply (wf_fresh_loc _ Hwf) in Hj. lia. }
    destruct (running w); [by eapply periods_arm|done].
  - rewrite removeJob_eq. destruct (map_get i (jobs w)) as [job|]; [|done].
    cbn [snd]. apply (periods_shrink w); [| |done].
    + unfold removed. by destruct (intervalId _).
    + intros h t. unfold removed. destruct (intervalId _); wsimpl; [|done].
      by intros [_ ?]%lookup_delete_Some.
  - rewrite start_eq. cbn [snd]. unfold started.
    apply fold_left_invariant; [|done].
    intros w' x. apply periods_start_step.
  - rewrite stop_eq. cbn [snd]. unfold stopped.
    apply fold_left_invariant; [|done].
    intros w' x. apply periods_disarm.
  - rewrite enableJob_eq.
    destruct (map_get i (jobs w)) as [job|] eqn:Hget; [|done].
    cbn [snd]. unfold enabled_job. apply map_get_elem in Hget.
    destruct (wf_stored _ Hwf _ _ Hget) as (j & Hl & _).
    assert (Hen : periods_ok
              (with_objects (alter (set_enabled true) job) (next_loc w) w)).
    { eapply periods_alter; [|reflexivity| |exact Hp]; done. }
    destruct (running w); [|done].
    eapply periods_arm; [|exact Hen]. wsimpl. by rewrite lookup_alter_eq, Hl.
  - rewrite disableJob_eq. destruct (map_get i (jobs w)) as [job|]; [|done].
    cbn [snd]. unfold disabled_job. apply periods_disarm.
    eapply periods_alter; [|reflexivity| |exact Hp]; done.
  - done.
  - done.
  - by rewrite getJobsByStatus_eq.
Qed.

Lemma periods_exec e (w : World) :
  wf w -> periods_ok w -> periods_ok (exec e w).
Proof.
  intros Hwf Hp. destruct e as [c|d|h r|k o|a xs]; cbn [exec].
  - by apply periods_call.
  - done.
  - destruct (timers w !! h) as [t|]; [|done].
    pose proof (timer_callback_objects (t_job t) r w) as Ho.
    pose proof (timer_callback_update (t_job t) r w) as (_ & _ & Ht & _).
    destruct (enabled _).
    + eapply periods_alter; [|exact Ho|by rewrite Ht|exact Hp].
      by destruct r.
    + eapply periods_shrink; [exact Ho|by rewrite Ht|exact Hp].
  - destruct (inflight w !! k) as [job|]; [|done].
    pose proof (timer_callback_resume_update job o (with_inflight (delete k) w))
      as (_ & _ & Ht & _).
    eapply periods_alter;
      [|apply timer_callback_resume_objects|by rewrite Ht|exact Hp].
    by destruct o.
  - by destruct (arrays w !! a).
Qed.

Lemma reachable_periods (w : World) : reachable w -> periods_ok w.
Proof.
  induction 1 as [t0|e w Hreach IH].
  - intros h t. cbn. by rewrite lookup_empty.
  - apply periods_exec; [by apply reachable_inv|done].
Qed.

Lemma parseSchedule_minutes (s : string) : (60000 | parseSchedule s).
Proof.
  destruct (regex_match s) as [[ds u]|] eqn:Hm.
  - apply regex_match_sound in Hm.
    rewrite (parseSchedule_matched _ _ _ Hm).
    destruct Hm as (_ & _ & Hu & _).
    destruct Hu as [->| [->| [->| ->]]]; cbn [unit_ms Ascii.eqb];
      cbn; apply Z.divide_mul_r.
    + by exists 1.
    + by exists 1.
    + by exists 60.
    + by exists 1440.
  - unfold parseSchedule. rewrite Hm. by exists 1.
Qed.

(** X6.  In every reachable world, an armed interval belongs to a job
    object that remembers its handle, and it repeats with the period Node
    gives the delay that the source's [parseSchedule] computes for that
    job's schedule.  That period is the exact interval of the schedule when
    the interval is between 1 and [TIMEOUT_MAX], and then a whole number of
    minutes; it is 1 otherwise, as for ["0"] and for ["25d"]. *)
Theorem armed_period (w : World) (h : Timeout) (t : Timer) :
  reachable w -> timers w !! h = Some t ->
  exists j, objects w !! t_job t = Some j /\ intervalId j = Some h /\
    t_period t = Double.delay (Double.parseSchedule (schedule j)) /\
    t_period t = timer_delay (parseSchedule (schedule j)) /\
    1 <= t_period t <= TIMEOUT_MAX /\
    (1 <= parseSchedule (schedule j) <= TIMEOUT_MAX ->
       t_period t = parseSchedule (schedule j) /\ (60000 | t_period t)) /\
    (~ 1 <= parseSchedule (schedule j) <= TIMEOUT_MAX -> t_period t = 1).
Proof.
  intros Hreach Hth. destruct (reachable_inv w Hreach) as [Hwf _].
  destruct (wf_timers _ Hwf h t Hth) as (j & Hl & Hh).
  destruct (reachable_periods w Hreach h t Hth) as (j' & Hl' & Hper).
  assert (j' = j) as -> by congruence.
  exists j. split_and!; try done.
  - by rewrite parseSchedule_delay.
  - rewrite Hper. apply timer_delay_range.
  - rewrite Hper. apply timer_delay_range.
  - intros Hin. rewrite Hper, (timer_delay_in_range _ Hin).
    split; [done|]. apply parseSchedule_minutes.
  - intros Hout. rewrite Hper. unfold timer_delay.
    destruct (Z.leb_spec 1 (parseSchedule (schedule j))),
             (Z.leb_spec (parseSchedule (schedule j)) TIMEOUT_MAX);
      cbn [andb]; [lia|done..].
Qed.

Lemma armed_period_witness :
  let w := run [Call (CallAddJob "j1" "Job1" "2h" (ActionRef 0));
                Call (CallAddJob "j2" "Job2" "25d" (ActionRef 1));
                Call CallStart; Call (CallDisableJob "j1");
                Call (CallEnableJob "j1")] (initial 0) in
  (exists j, objects w !! 0%nat = Some j /\ intervalId j = Some 2%nat /\
     schedule j = "2h"%string /\
     7200000 = Double.delay (Double.parseSchedule (schedule j))) /\
  (exists j, objects w !! 1%nat = Some j /\ intervalId j = Some 1%nat /\
     schedule j = "25d"%string /\
     1 = Double.delay (Double.parseSchedule (schedule j))).
Proof.
  intros w. split.
  - destruct (armed_period w 2%nat {| t_job := 0%nat; t_period := 7200000 |})
      as (j & Hl & Hh & Hper & _).
    + apply reachable_run.
    + vm_compute. reflexivity.
    + exists j. split; [exact Hl|]. split; [exact Hh|]. split; [|exact Hper].
      vm_compute in Hl. by injection Hl as <-.
  - destruct (armed_period w 1%nat {| t_job := 1%nat; t_period := 1 |})
      as (j & Hl & Hh & Hper & _).
    + apply reachable_run.
    + vm_compute. reflexivity.
    + exists j. split; [exact Hl|]. split; [exact Hh|]. split; [|exact Hper].
      vm_compute in Hl. by injection Hl as <-.
Defined.

(** ** What each method does to a job that is present *)

Lemma wf_not_own (w : World) k l j h t :
  wf w -> (k, l) ∈ jobs w -> objects w !! l = Some j ->
  timers w !! h = Some t ->
  (intervalId j <> Some h <-> t_job t <> l).
Proof.
  intros Hwf Hin Hl Hth. split.
  - intros Hne Htl. destruct (wf_timers _ Hwf h t Hth) as (j' & Hl' & Hh).
    rewrite Htl in Hl'. congruence.
  - intros Hne Hh. apply Hne.
    by apply (wf_own_handle w k l j Hwf Hin Hl h t).
Qed.

Lemma set_intervalId_same (j : ScheduledJob) :
  set_intervalId (intervalId j) j = j.
Proof. by destruct j. Qed.

(** X1.  [removeJob] on an id that is present returns [true]; afterwards
    [getJob] finds nothing under that id while every other id maps to what
    it mapped to, the remaining entries keeping their order; exactly the
    intervals armed for the removed job are disarmed; and no job object
    changes, nor does the list of callbacks waiting for their action, so a
    run in flight still completes. *)
Theorem removeJob_present (w : World) (id0 : string) (l : loc) :
  reachable w -> map_get id0 (jobs w) = Some l ->
  let w' := snd (removeJob id0 w) in
  fst (removeJob id0 w) = Normal true /\
  getJob id0 w' = (Normal None, w') /\
  (forall k, k <> id0 -> map_get k (jobs w') = map_get k (jobs w)) /\
  jobs w' = filter (fun kl => fst kl <> id0) (jobs w) /\
  objects w' = objects w /\
  running w' = running w /\
  (forall h t, timers w' !! h = Some t <->
               timers w !! h = Some t /\ t_job t <> l) /\
  inflight w' = inflight w.
Proof.
  intros [Hwf _]%reachable_inv Hget. cbv zeta.
  rewrite removeJob_eq, Hget. cbn [fst snd].
  apply map_get_elem in Hget as Hin.
  destruct (wf_stored _ Hwf _ _ Hin) as (j & Hl & _).
  assert (Hjobs : jobs (removed id0 l w) = map_delete id0 (jobs w))
    by (unfold removed; by destruct (intervalId _)).
  split_and!.
  - done.
  - unfold getJob, gets. rewrite Hjobs, map_get_delete by apply Hwf.
    by rewrite decide_True.
  - intros k Hne. rewrite Hjobs, map_get_delete by apply Hwf.
    by rewrite decide_False.
  - rewrite Hjobs. apply map_delete_filter, Hwf.
  - unfold removed. by destruct (intervalId _).
  - unfold removed. by destruct (intervalId _).
  - intros h t. unfold removed. rewrite (lookup_total_correct _ _ _ Hl).
    destruct (intervalId j) as [h0|] eqn:Hh0; wsimpl.
    + rewrite lookup_delete_Some. split.
      * intros [Hne Hth]. split; [done|].
        apply (wf_not_own w id0 l j h t Hwf Hin Hl Hth). congruence.
      * intros [Hth Hne]. split; [|done].
        apply (wf_not_own w id0 l j h t Hwf Hin Hl Hth) in Hne. congruence.
    + split; [|by intros [? _]]. intros Hth. split; [done|].
      apply (wf_not_own w id0 l j h t Hwf Hin Hl Hth). congruence.
  - unfold removed. by destruct (intervalId _).
Qed.

Lemma removeJob_present_witness :
  let w := run [Call (CallAddJob "a" "A" "1m" (ActionRef 0));
                Call (CallAddJob "b" "B" "2h" (ActionRef 1));
                Call CallStart] (initial 0) in
  fst (removeJob "a" w) = Normal true /\
  getJob "a" (snd (removeJob "a" w)) = (Normal None, snd (removeJob "a" w)) /\
  map_get "b" (jobs (snd (removeJob "a" w))) = map_get "b" (jobs w).
Proof.
  intros w. destruct (removeJob_present w "a" 0%nat) as (H1 & H2 & H3 & _).
  - apply reachable_run.
  - reflexivity.
  - split; [exact H1|]. split; [exact H2|]. by apply H3.
Defined.

(** X3.  [disableJob] on an id that is present returns [true]; the job
    keeps every field but [enabled], now false, and its handle, now
    cleared; exactly the intervals armed for it are disarmed, whether the
    scheduler is running or not; nothing else changes. *)
Theorem disableJob_present (w : World) (id0 : string) (l : loc) (j : ScheduledJob) :
  reachable w -> map_get id0 (jobs w) = Some l -> objects w !! l = Some j ->
  let w' := snd (disableJob id0 w) in
  fst (disableJob id0 w) = Normal true /\
  jobs w' = jobs w /\
  running w' = running w /\
  objects w' = <[l := set_intervalId None (set_enabled false j)]> (objects w) /\
  (forall h t, timers w' !! h = Some t <->
               timers w !! h = Some t /\ t_job t <> l) /\
  inflight w' = inflight w.
Proof.
  intros [Hwf _]%reachable_inv Hget Hl. cbv zeta.
  rewrite disableJob_eq, Hget. cbn [fst snd].
  apply map_get_elem in Hget as Hin. unfold disabled_job.
  set (w1 := with_objects (alter (set_enabled false) l) (next_loc w) w).
  assert (Hl1 : objects w1 !! l = Some (set_enabled false j)).
  { unfold w1. wsimpl. by rewrite lookup_alter_eq, Hl. }
  destruct (disarm_frame l w1) as (Hj & Hr & _ & _ & _ & _ & Hi & _).
  split_and!; try done.
  - apply map_eq. intros l'. rewrite (disarm_objects l w1 _ Hl1).
    destruct (decide (l = l')) as [<-|Hne].
    + by rewrite lookup_insert_eq.
    + rewrite lookup_insert_ne by done. unfold w1. wsimpl.
      by rewrite lookup_alter_ne.
  - intros h t. rewrite (disarm_timers l w1 _ Hl1). cbn [intervalId set_enabled].
    change (timers w1) with (timers w). split.
    + intros [Hne Hth]. split; [done|].
      by apply (wf_not_own w id0 l j h t Hwf Hin Hl Hth).
    + intros [Hth Hne]. split; [|done].
      by apply (wf_not_own w id0 l j h t Hwf Hin Hl Hth).
Qed.

Lemma disableJob_present_witness :
  let w := run [Call (CallAddJob "a" "A" "1m" (ActionRef 0));
                Call CallStart] (initial 0) in
  fst (disableJob "a" w) = Normal true /\
  enabled <$> objects (snd (disableJob "a" w)) !! 0%nat = Some false /\
  nextRun <$> objects (snd (disableJob "a" w)) !! 0%nat = Some (Some 60000).
Proof.
  intros w.
  destruct (disableJob_present w "a" 0%nat (objects w !!! 0%nat))
    as (H1 & _ & _ & Ho & _).
  - apply reachable_run.
  - reflexivity.
  - vm_compute. reflexivity.
  - split; [exact H1|]. rewrite Ho, lookup_insert_eq. by vm_compute.
Defined.

(** X2.  [enableJob] on an id that is present returns [true] and sets
    [enabled].  While the scheduler is stopped that is all it does.  While
    it is running the job's intervals are disarmed and one new interval is
    armed for it, with the period Node gives the delay of its schedule, and
    [nextRun] is set: within the integers a double holds exactly, to the
    current time plus the interval of the schedule.  Other jobs and their
    intervals are untouched. *)
Theorem enableJob_present (w : World) (id0 : string) (l : loc) (j : ScheduledJob) :
  reachable w -> map_get id0 (jobs w) = Some l -> objects w !! l = Some j ->
  let w' := snd (enableJob id0 w) in
  fst (enableJob id0 w) = Normal true /\
  jobs w' = jobs w /\
  running w' = running w /\
  (running w = false ->
     objects w' = <[l := set_enabled true j]> (objects w) /\
     timers w' = timers w) /\
  (running w = true ->
     (exists next,
        objects w'
        = <[l := set_nextRun (Some next)
                   (set_intervalId (Some (next_timeout w)) (set_enabled true j))]>
            (objects w) /\
        (exact_nextRun (clock w) (schedule j) ->
           next = clock w + parseSchedule (schedule j) /\
           Double.calculateNextRun (clock w) (schedule j) = Double.Finite next)) /\
     forall h t, timers w' !! h = Some t <->
       (h = next_timeout w /\
        t = {| t_job := l;
               t_period := Double.delay (Double.parseSchedule (schedule j)) |}) \/
       (timers w !! h = Some t /\ t_job t <> l)).
Proof.
  intros [Hwf _]%reachable_inv Hget Hl. cbv zeta.
  rewrite enableJob_eq, Hget. cbn [fst snd]. rewrite parseSchedule_delay.
  apply map_get_elem in Hget as Hin. unfold enabled_job.
  set (w1 := with_objects (alter (set_enabled true) l) (next_loc w) w).
  assert (Hl1 : objects w1 !! l = Some (set_enabled true j)).
  { unfold w1. wsimpl. by rewrite lookup_alter_eq, Hl. }
  assert (Ho1 : objects w1 = <[l := set_enabled true j]> (objects w)).
  { apply map_eq. intros l'. unfold w1. wsimpl.
    destruct (decide (l = l')) as [<-|Hne].
    - by rewrite lookup_alter_eq, lookup_insert_eq, Hl.
    - by rewrite lookup_alter_ne, lookup_insert_ne. }
  destruct (running w) eqn:Hr.
  - destruct (arm_frame l w1) as (Hj & Hr1 & _).
    split_and!; try done.
    intros _. split.
    + exists (clock w + parseSchedule (schedule j)). split.
      * apply map_eq. intros l'. rewrite (arm_objects l w1 _ Hl1).
        destruct (decide (l = l')) as [<-|Hne].
        -- by rewrite lookup_insert_eq.
        -- rewrite lookup_insert_ne by done. unfold w1. wsimpl.
           by rewrite lookup_alter_ne.
      * intros Hex. split; [done|]. by apply calculateNextRun_exact.
    + intros h t. rewrite (arm_timers l w1 _ Hl1).
      cbn [intervalId schedule set_enabled]. change (timers w1) with (timers w).
      change (next_timeout w1) with (next_timeout w). split.
      * intros [?|(_ & Hne & Hth)]; [by left|right]. split; [done|].
        by apply (wf_not_own w id0 l j h t Hwf Hin Hl Hth).
      * intros [?|[Hth Hne]]; [by left|right].
        split; [|split; [|done]].
        -- apply (wf_fresh_timer _ Hwf) in Hth. lia.
        -- by apply (wf_not_own w id0 l j h t Hwf Hin Hl Hth).
  - split_and!; try done.
Qed.

Lemma enableJob_present_witness :
  let w := run [Call (CallAddJob "a" "A" "1m" (ActionRef 0));
                Call (CallDisableJob "a"); Call CallStart; Tick 500]
             (initial 0) in
  fst (enableJob "a" w) = Normal true /\
  nextRun <$> objects (snd (enableJob "a" w)) !! 0%nat = Some (Some 60500) /\
  timers (snd (enableJob "a" w)) !! 0%nat
  = Some {| t_job := 0%nat; t_period := 60000 |}.
Proof.
  intros w.
  destruct (enableJob_present w "a" 0%nat (objects w !!! 0%nat))
    as (H1 & _ & _ & _ & Hrun).
  - apply reachable_run.
  - reflexivity.
  - vm_compute. reflexivity.
  - destruct Hrun as [(next & Ho & Hnext) Ht]; [reflexivity|].
    destruct Hnext as [Hnext _]; [repeat split; vm_compute; discriminate|].
    split; [exact H1|]. split.
    + rewrite Ho, lookup_insert_eq. cbn [fmap option_fmap option_map].
      rewrite Hnext. reflexivity.
    + apply Ht. left. by vm_compute.
Defined.

Lemma set_intervalId_inj (a b : ScheduledJob) :
  set_intervalId None a = set_intervalId None b ->
  intervalId a = intervalId b -> a = b.
Proof.
  destruct a, b. cbn. intros [= -> -> -> -> -> -> -> ->] ->. reflexivity.
Qed.

Lemma reachable_call c (w : World) : reachable w -> reachable (call c w).
Proof. intros Hreach. by apply (reachable_exec (Call c)). Qed.

(** X4.  [start] returns normally and sets the running flag.  A stored
    job that is disabled is left exactly as it was.  A stored job that is
    enabled gets a new handle, an interval armed for it with the period
    Node gives the delay of its schedule, and a new [nextRun]: within the
    integers a double holds exactly, the current time plus the interval of
    the schedule.  Its other fields are unchanged, and no action runs at
    [start]. *)
Theorem start_arms_enabled (w : World) :
  reachable w ->
  let w' := snd (start w) in
  fst (start w) = Normal tt /\
  running w' = true /\
  jobs w' = jobs w /\
  effects w' = effects w /\
  forall k l j, (k, l) ∈ jobs w -> objects w !! l = Some j ->
    if enabled j
    then exists h next, (next_timeout w <= h)%nat /\
           objects w' !! l
           = Some (set_nextRun (Some next) (set_intervalId (Some h) j)) /\
           (exact_nextRun (clock w) (schedule j) ->
              next = clock w + parseSchedule (schedule j) /\
              Double.calculateNextRun (clock w) (schedule j)
              = Double.Finite next) /\
           timers w' !! h
           = Some {| t_job := l;
                     t_period := Double.delay (Double.parseSchedule (schedule j)) |}
    else objects w' !! l = Some j.
Proof.
  intros Hreach. cbv zeta.
  pose proof (reachable_call CallStart w Hreach) as Hreach'.
  cbn [call] in Hreach'. rewrite start_eq in *. cbn [fst snd] in *.
  destruct (reachable_inv w Hreach) as [Hwf _].
  destruct (reachable_inv _ Hreach') as [Hwf' _].
  destruct (started_frame w) as (Hj & Hr & _ & _ & _ & _ & _ & He).
  split_and!; try done.
  intros k l j Hin Hl. rewrite ?start_eq. cbn [snd].
  destruct (started_loop w Hwf) as (_ & Harm & _ & Hq).
  assert (Hin' : (k, l) ∈ jobs (started w)) by (by rewrite Hj).
  destruct (wf_stored _ Hwf' k l Hin') as (j' & Hl' & _).
  destruct (Harm l j' Hl') as (j0 & Hl0 & Hen & Hi).
  assert (j0 = j) as -> by congruence.
  assert (Hview : set_intervalId None j'
                  = rearmed_view (clock w) true (set_intervalId None j)).
  { pose proof (start_loop_view (map_values (jobs w)) (with_running true w) l)
      as Hv.
    fold (started w) in Hv. wsimpl. rewrite Hl', Hl in Hv.
    rewrite bool_decide_eq_true_2 in Hv by (apply elem_map_values; eauto).
    cbn [fmap option_fmap option_map] in Hv. congruence. }
  unfold rearmed_view in Hview. cbn [enabled set_intervalId andb] in Hview.
  destruct (enabled j) eqn:Hej.
  - destruct (Hq k l Hin j' Hl') as (h & Hh & Hle); [congruence|].
    exists h, (clock w + parseSchedule (schedule j)). split; [done|].
    assert (Hj' : j' = set_nextRun
                         (Some (clock w + parseSchedule (schedule j)))
                         (set_intervalId (Some h) j)).
    { apply set_intervalId_inj; [|by rewrite Hh]. rewrite Hview.
      by destruct j. }
    split; [by rewrite Hl', Hj'|].
    split; [intros Hex; split; [done|]; by apply calculateNextRun_exact|].
    destruct (wf_handle _ Hwf' k l j' h Hin' Hl' Hh) as (t & Hth & Htl).
    destruct (reachable_periods _ Hreach' h t Hth) as (j'' & Hl'' & Hper).
    rewrite Htl, Hl' in Hl''. injection Hl'' as <-.
    rewrite parseSchedule_delay.
    etrans; [exact Hth|]. f_equal. destruct t. cbn in *. by subst.
  - rewrite Hl'. f_equal. apply set_intervalId_inj; [done|].
    destruct Hi as [?|[? _]]; congruence.
Qed.

Lemma start_arms_enabled_witness :
  let w := run [Call (CallAddJob "a" "A" "1m" (ActionRef 0));
                Call (CallAddJob "b" "B" "2h" (ActionRef 1));
                Call (CallDisableJob "b"); Tick 100] (initial 0) in
  (exists h, timers (snd (start w)) !! h
             = Some {| t_job := 0%nat; t_period := 60000 |} /\
             nextRun <$> objects (snd (start w)) !! 0%nat
             = Some (Some 60100)) /\
  objects (snd (start w)) !! 1%nat = objects w !! 1%nat.
Proof.
  intros w. destruct (start_arms_enabled w) as (_ & _ & _ & _ & Hjobs).
  - apply reachable_run.
  - split.
    + pose proof (Hjobs "a" 0%nat (objects w !!! 0%nat)) as Ha.
      destruct Ha as (h & next & _ & Ho & Hnext & Hth).
      * vm_compute. left.
      * vm_compute. reflexivity.
      * exists h. split; [exact Hth|].
        destruct Hnext as [Hnext _]; [repeat split; vm_compute; discriminate|].
        etrans; [exact (f_equal (fun o => nextRun <$> o) Ho)|].
        cbn [fmap option_fmap option_map]. rewrite Hnext. reflexivity.
    + pose proof (Hjobs "b" 1%nat (objects w !!! 1%nat)) as Hb.
      etrans; [apply Hb|].
      * vm_compute. right. left.
      * vm_compute. reflexivity.
      * vm_compute. reflexivity.
Defined.

(** ** How calls compose *)

Lemma with_running_same (w : World) b : running w = b -> with_running b w = w.
Proof. intros <-. by destruct w. Qed.

Lemma fold_left_fixed {A} (g : World -> A -> World) xs (w : World) :
  (forall x, x ∈ xs -> g w x = w) -> fold_left g xs w = w.
Proof.
  induction xs as [|x xs IH]; intros Hfix; [done|].
  cbn [fold_left]. rewrite Hfix by left.
  apply IH. intros y Hy. apply Hfix. by right.
Qed.

(** X10.  [stop] is idempotent: on a reachable world a second [stop]
    returns normally and changes nothing at all. *)
Theorem stop_idempotent (w : World) :
  reachable w ->
  stop (snd (stop w)) = (Normal tt, snd (stop w)).
Proof.
  intros [Hwf _]%reachable_inv. rewrite !stop_eq. cbn [snd]. f_equal.
  destruct (stopped_frame w) as (Hj & Hr & _).
  destruct (stopped_loop w Hwf) as (_ & _ & Hq).
  unfold stopped at 1. rewrite (with_running_same _ _ Hr), Hj.
  apply fold_left_fixed. intros l [k Hin]%elem_map_values.
  destruct (objects (stopped w) !! l) as [j|] eqn:Hl;
    [|by apply disarm_dangling].
  unfold disarm. rewrite (lookup_total_correct _ _ _ Hl).
  by rewrite (Hq k l Hin j Hl).
Qed.

Lemma stop_idempotent_witness :
  let w := run [Call (CallAddJob "a" "A" "1m" (ActionRef 0));
                Call CallStart] (initial 0) in
  stop (snd (stop w)) = (Normal tt, snd (stop w)).
Proof. intros w. apply (stop_idempotent w), reachable_run. Defined.

(** X11.  Adding a job under a fresh id and removing it again leaves the
    registry as it was: the same entries in the same order, the same
    running flag and the same armed intervals, with every earlier job
    object unchanged and no action run. *)
Theorem addJob_removeJob
    (w : World) (id0 name0 schedule0 : string) (action0 : Action) :
  reachable w -> id0 ∉ map fst (jobs w) ->
  let w1 := snd (addJob id0 name0 schedule0 action0 w) in
  let w2 := snd (removeJob id0 w1) in
  fst (removeJob id0 w1) = Normal true /\
  jobs w2 = jobs w /\
  running w2 = running w /\
  timers w2 = timers w /\
  (forall l j, objects w !! l = Some j -> objects w2 !! l = Some j) /\
  effects w2 = effects w.
Proof.
  intros [Hwf _]%reachable_inv Hfresh%map_get_None. cbv zeta.
  rewrite addJob_eq. cbn [snd].
  set (wa := added id0 name0 schedule0 action0 w).
  assert (Hja : jobs wa = map_set id0 (next_loc w) (jobs w))
    by (unfold wa, added; by destruct (running w)).
  assert (Hget : map_get id0 (jobs wa) = Some (next_loc w))
    by (by rewrite Hja, map_get_set, decide_True).
  rewrite removeJob_eq, Hget. cbn [fst snd].
  assert (Hrem : forall w',
    jobs (removed id0 (next_loc w) w') = map_delete id0 (jobs w') /\
    running (removed id0 (next_loc w) w') = running w' /\
    objects (removed id0 (next_loc w) w') = objects w' /\
    effects (removed id0 (next_loc w) w') = effects w' /\
    timers (removed id0 (next_loc w) w')
    = match intervalId (objects w' !!! next_loc w) with
      | Some h => delete h (timers w')
      | None => timers w'
      end).
  { intros w'. unfold removed. by destruct (intervalId _). }
  destruct (Hrem wa) as (-> & -> & -> & -> & ->). clear Hrem.
  pose proof (registered_lookup id0 name0 schedule0 action0 w) as Hl.
  assert (Hnone : timers w !! next_timeout w = None).
  { destruct (timers w !! next_timeout w) as [t|] eqn:Hth; [|done].
    apply (wf_fresh_timer _ Hwf) in Hth. lia. }
  assert (Hne : forall l j, objects w !! l = Some j -> next_loc w <> l).
  { intros l j Hj. apply (wf_fresh_loc _ Hwf) in Hj. lia. }
  rewrite Hja, (map_delete_set_fresh _ _ _ Hfresh).
  unfold wa. rewrite added_unfold. destruct (running w) eqn:Hr.
  - rewrite (lookup_total_correct _ _ _
               (eq_trans (arm_objects _ _ _ Hl _) (decide_True _ _ eq_refl))).
    cbn [intervalId set_nextRun set_intervalId].
    split_and!; try done.
    + unfold arm. wsimpl. rewrite (lookup_total_correct _ _ _ Hl).
      cbn [intervalId new_job]. by apply delete_insert_id.
    + intros l j Hj. rewrite (arm_objects _ _ _ Hl).
      rewrite decide_False by (by eapply Hne). wsimpl.
      rewrite lookup_insert_ne by (by eapply Hne). done.
  - rewrite (lookup_total_correct _ _ _ Hl). cbn [intervalId new_job].
    split_and!; try done.
    intros l j Hj. wsimpl. rewrite lookup_insert_ne by (by eapply Hne). done.
Qed.

Lemma addJob_removeJob_witness :
  let w := run [Call (CallAddJob "a" "A" "1m" (ActionRef 0));
                Call CallStart] (initial 0) in
  let w2 := snd (removeJob "b" (snd (addJob "b" "B" "2h" (ActionRef 1) w))) in
  jobs w2 = jobs w /\ timers w2 = timers w.
Proof.
  intros w w2.
  destruct (addJob_removeJob w "b" "B" "2h" (ActionRef 1))
    as (_ & Hj & _ & Ht & _).
  - apply reachable_run.
  - vm_compute. intros Hin.
    apply list_elem_of_singleton in Hin. discriminate Hin.
  - by split.
Defined.

(** ** Hosts that do not reuse an id while running *)

Lemma reachable_guarded_reachable (w : World) :
  reachable_guarded w -> reachable w.
Proof. induction 1; by constructor. Qed.

Lemma reachable_guarded_run tr t0 :
  all_guarded tr (initial t0) = true ->
  reachable_guarded (run tr (initial t0)).
Proof.
  unfold run. generalize (reachable_guarded_initial t0).
  generalize (initial t0).
  induction tr as [|e tr IH]; intros w Hw; [done|].
  cbn [all_guarded fold_left]. intros [Hg Hrest]%andb_true_iff.
  apply IH; [by constructor|done].
Qed.

Lemma no_leak_shrink (w w' : World) :
  jobs w' = jobs w ->
  (forall h t, timers w' !! h = Some t -> timers w !! h = Some t) ->
  no_leak w -> no_leak w'.
Proof. intros Hj Ht Hn h t Hth%Ht. rewrite Hj. exact (Hn h t Hth). Qed.

Lemma disarm_shrink job (w : World) h t :
  timers (disarm job w) !! h = Some t -> timers w !! h = Some t.
Proof.
  unfold disarm. destruct (intervalId _); wsimpl; [|done].
  by intros [_ ?]%lookup_delete_Some.
Qed.

Lemma no_leak_arm job (w : World) j k :
  objects w !! job = Some j -> (k, job) ∈ jobs w ->
  no_leak w -> no_leak (arm job w).
Proof.
  intros Hjob Hin Hn h t [[-> ->]|(_ & _ & Hth)]%(arm_timers job w j Hjob).
  - by exists k.
  - exact (Hn h t Hth).
Qed.

Lemma no_leak_start_step (w : World) x k :
  (k, x) ∈ jobs w -> no_leak w -> no_leak (start_step w x).
Proof.
  intros Hin Hn. unfold start_step.
  destruct (objects w !! x) as [j|] eqn:Hx.
  - rewrite (lookup_total_correct _ _ _ Hx).
    destruct (enabled j); [by eapply no_leak_arm|done].
  - by rewrite lookup_total_alt, Hx.
Qed.

Lemma no_leak_call c (w : World) :
  wf w -> parity (running w) w -> guarded (Call c) w = true ->
  no_leak w -> no_leak (call c w).
Proof.
  intros Hwf Hp Hg Hn. destruct c as [i n s a|i| | |i|i|i| |st]; cbn [call].
  - rewrite addJob_eq. cbn [snd]. rewrite added_unfold.
    pose proof (registered_lookup i n s a w) as Hl.
    assert (Hreg : no_leak
              (with_jobs (map_set i (next_loc w))
                 (with_objects (insert (next_loc w) (new_job i n s a (clock w)))
                    (S (next_loc w)) w))).
    { intros h t Hth. wsimpl. destruct (Hn h t Hth) as [k Hin].
      destruct (decide (k = i)) as [->|Hne];
        [|exists k; by apply map_set_other].
      exfalso. cbn [guarded] in Hg.
      apply orb_true_iff in Hg as [Hg|Hg].
      - apply negb_true_iff, bool_decide_eq_false in Hg. apply Hg.
        rewrite (elem_map_get i (t_job t)); [eauto|apply Hwf|done].
      - apply negb_true_iff in Hg.
        destruct (wf_timers _ Hwf h t Hth) as (j & Hj & Hh).
        destruct (proj1 (Hp i (t_job t) j Hin Hj)) as [Hr _]; [eauto|].
        congruence. }
    destruct (running w); [|done].
    eapply no_leak_arm; [exact Hl| |exact Hreg]. wsimpl. apply map_set_here.
  - rewrite removeJob_eq.
    destruct (map_get i (jobs w)) as [job|] eqn:Hget; [|done]. cbn [snd].
    apply map_get_elem in Hget as Hin0.
    destruct (wf_stored _ Hwf _ _ Hin0) as (j0 & Hl0 & _).
    intros h t. unfold removed. rewrite (lookup_total_correct _ _ _ Hl0).
    assert (Hkeep : timers w !! h = Some t -> intervalId j0 <> Some h ->
              exists k, (k, t_job t) ∈ map_delete i (jobs w)).
    { intros Hth Hne. destruct (Hn h t Hth) as [k Hin]. exists k.
      apply map_delete_other; [|done]. intros ->.
      assert (t_job t = job) as Htl.
      { rewrite (elem_map_get i (t_job t)) in Hget; [|apply Hwf|done].
        congruence. }
      by apply (wf_not_own w i job j0 h t Hwf Hin0 Hl0 Hth) in Hne. }
    destruct (intervalId j0) as [h0|]; wsimpl.
    + intros [Hne Hth]%lookup_delete_Some. apply Hkeep; [done|congruence].
    + intros Hth. by apply Hkeep.
  - rewrite start_eq. cbn [snd]. unfold started.
    destruct (fold_left_loop start_step
                (fun w' => no_leak w' /\ jobs w' = jobs w)
                (fun _ _ => True) (fun _ _ => True) (map_values (jobs w)))
      with (w := with_running true w) as ((Hn' & _) & _); try done.
    intros w' x [k Hin]%elem_map_values [Hn' Hj]. split; [|done].
    destruct (start_step_frame w' x) as (Hj' & _). split; [|congruence].
    apply (no_leak_start_step w' x k); [by rewrite Hj|done].
  - rewrite stop_eq. cbn [snd].
    apply (no_leak_shrink w); [by destruct (stopped_frame w)| |done].
    intros h t Hth. by apply stop_loop_shrink in Hth.
  - rewrite enableJob_eq.
    destruct (map_get i (jobs w)) as [job|] eqn:Hget; [|done]. cbn [snd].
    apply map_get_elem in Hget as Hin.
    destruct (wf_stored _ Hwf _ _ Hin) as (j & Hl & _).
    unfold enabled_job. destruct (running w); [|done].
    eapply (no_leak_arm job _ (set_enabled true j) i); [|done|done].
    wsimpl. by rewrite lookup_alter_eq, Hl.
  - rewrite disableJob_eq.
    destruct (map_get i (jobs w)) as [job|]; [|done]. cbn [snd].
    unfold disabled_job.
    eapply no_leak_shrink; [| |exact Hn].
    + by destruct (disarm_frame job
           (with_objects (alter (set_enabled false) job) (next_loc w) w)).
    + intros h t Hth%disarm_shrink. exact Hth.
  - done.
  - done.
  - by rewrite getJobsByStatus_eq.
Qed.

Lemma no_leak_exec e (w : World) :
  wf w -> parity (running w) w -> guarded e w = true ->
  no_leak w -> no_leak (exec e w).
Proof.
  intros Hwf Hp Hg Hn. destruct e as [c|d|h r|k o|a xs]; cbn [exec].
  - by apply no_leak_call.
  - done.
  - destruct (timers w !! h) as [t|]; [|done].
    destruct (timer_callback_update (t_job t) r w) as (Hj & _ & Ht & _).
    apply (no_leak_shrink w); [done|by rewrite Ht|done].
  - destruct (inflight w !! k) as [job|]; [|done].
    destruct (timer_callback_resume_update job o (with_inflight (delete k) w))
      as (Hj & _ & Ht & _).
    apply (no_leak_shrink w); [done|by rewrite Ht|done].
  - by destruct (arrays w !! a).
Qed.

Lemma reachable_guarded_no_leak (w : World) : reachable_guarded w -> no_leak w.
Proof.
  induction 1 as [t0|e w Hreach IH Hg].
  - intros h t. cbn. by rewrite lookup_empty.
  - apply reachable_guarded_reachable, reachable_inv in Hreach as [Hwf Hp].
    by apply no_leak_exec.
Qed.

(** X12.  As long as the host never calls [addJob] on an id that is
    present while the scheduler is running, every armed interval runs for a
    job that is in the registry; [stop] then leaves no interval armed at
    all, so that nothing can fire afterwards until the next [start]. *)
Theorem stop_disarms_everything (w : World) :
  reachable_guarded w ->
  (forall h t, timers w !! h = Some t -> exists k, (k, t_job t) ∈ jobs w) /\
  timers (snd (stop w)) = ∅ /\
  forall h r, exec (Fire h r) (snd (stop w)) = snd (stop w).
Proof.
  intros Hg. pose proof (reachable_guarded_no_leak w Hg) as Hn.
  apply reachable_guarded_reachable, reachable_inv in Hg as [Hwf _].
  split; [exact Hn|].
  assert (Hempty : timers (snd (stop w)) = ∅).
  { rewrite stop_eq. cbn [snd]. apply map_empty. intros h.
    destruct (timers (stopped w) !! h) as [t|] eqn:Hth; [|done]. exfalso.
    destruct (stopped_loop w Hwf) as (Hwf' & _ & Hq).
    pose proof (stop_loop_shrink _ _ _ _ Hth) as Hth0.
    destruct (Hn h t Hth0) as [k Hin].
    destruct (wf_timers _ Hwf' h t Hth) as (j & Hl & Hh).
    rewrite (Hq k (t_job t) Hin j Hl) in Hh. discriminate Hh. }
  split; [exact Hempty|].
  intros h r. cbn [exec]. by rewrite Hempty, lookup_empty.
Qed.

Lemma stop_disarms_everything_witness :
  let w := run [Call (CallAddJob "a" "A" "1m" (ActionRef 0));
                Call CallStart;
                Call (CallAddJob "b" "B" "2h" (ActionRef 1));
                Call (CallRemoveJob "a");
                Call (CallAddJob "a" "A2" "1d" (ActionRef 2))] (initial 0) in
  timers (snd (stop w)) = ∅.
Proof.
  intros w. destruct (stop_disarms_everything w) as (_ & Hempty & _).
  - apply reachable_guarded_run. vm_compute. reflexivity.
  - exact Hempty.
Defined.

(** ** More about [parseSchedule] *)

Section ParsingMore.

Local Open Scope char_scope.

Lemma digit_not_unit (c : ascii) : is_digit c = true -> is_unit c = false.
Proof.
  intros Hd. destruct (is_unit c) eqn:Hu; [|done].
  apply is_unit_inv in Hu as [->| [->| ->]]; discriminate Hd.
Qed.

Lemma unit_suffix_units (u : option ascii) c :
  (u = None \/ u = Some "m" \/ u = Some "h" \/ u = Some "d") ->
  c ∈ unit_suffix u -> is_unit c = true.
Proof.
  intros [->| [->| [->| ->]]]; cbn [unit_suffix];
    [by intros ?%elem_of_nil|..];
    by intros ->%list_elem_of_singleton.
Qed.

Lemma parseSchedule_unmatched (s : string) :
  regex_match s = None -> parseSchedule s = 60000.
Proof. intros Hm. unfold parseSchedule. by rewrite Hm. Qed.

(** X13.  [parseSchedule] is strict and silent: a schedule gets the
    60000 ms default as soon as it contains one character that is neither
    a digit nor one of [m], [h], [d] (a sign, a space, a decimal point, an
    upper-case unit), or a unit letter anywhere but in last position, or
    when it is empty or starts with something else than a digit. *)
Theorem parseSchedule_strict (s : string) :
  (forall c, c ∈ list_ascii_of_string s -> foreign c = true ->
     parseSchedule s = 60000) /\
  (forall pre c post, list_ascii_of_string s = pre ++ c :: post ->
     is_unit c = true -> post <> [] -> parseSchedule s = 60000) /\
  (head (list_ascii_of_string s) = None -> parseSchedule s = 60000) /\
  (forall c, head (list_ascii_of_string s) = Some c -> is_digit c = false ->
     parseSchedule s = 60000).
Proof.
  assert (Hcases : regex_match s = None \/ exists ds u, Grammar s ds u).
  { destruct (regex_match s) as [[ds u]|] eqn:Hm; [right|by left].
    exists ds, u. by apply regex_match_sound. }
  split_and!.
  - intros c Hin Hf.
    destruct Hcases as [Hm|(ds & u & Hne & Hall & Hu & Hs)];
      [by apply parseSchedule_unmatched|].
    exfalso. rewrite Hs in Hin. unfold foreign in Hf.
    apply andb_true_iff in Hf as [Hnd Hnu]. apply negb_true_iff in Hnd, Hnu.
    apply elem_of_app in Hin as [Hin|Hin].
    + rewrite Forall_forall in Hall. apply Hall in Hin. congruence.
    + apply (unit_suffix_units u c Hu) in Hin. congruence.
  - intros pre c post Hsplit Hc Hpost.
    destruct Hcases as [Hm|(ds & u & Hne & Hall & Hu & Hs)];
      [by apply parseSchedule_unmatched|].
    exfalso. rewrite Hs in Hsplit.
    assert (Hnotin : c ∉ ds).
    { intros Hin. rewrite Forall_forall in Hall.
      apply Hall, digit_not_unit in Hin. congruence. }
    destruct (exists_last Hpost) as (post' & x & ->).
    destruct Hu as [->| Hu].
    + cbn [unit_suffix] in Hsplit. rewrite app_nil_r in Hsplit.
      apply Hnotin. rewrite Hsplit. apply elem_of_app. right. left.
    + assert (exists u', unit_suffix u = [u']) as [u' Hsuf]
        by (destruct Hu as [->| [->| ->]]; eauto).
      rewrite Hsuf in Hsplit.
      change (pre ++ c :: post' ++ [x]) with (pre ++ (c :: post') ++ [x])
        in Hsplit.
      rewrite app_assoc in Hsplit. apply app_inj_tail in Hsplit as [Hds _].
      apply Hnotin. rewrite Hds. apply elem_of_app. right. left.
  - intros Hhead.
    destruct Hcases as [Hm|(ds & u & Hne & Hall & Hu & Hs)];
      [by apply parseSchedule_unmatched|].
    exfalso. rewrite Hs in Hhead. by destruct ds.
  - intros c Hhead Hc.
    destruct Hcases as [Hm|(ds & u & Hne & Hall & Hu & Hs)];
      [by apply parseSchedule_unmatched|].
    exfalso. rewrite Hs in Hhead. destruct ds as [|d ds]; [done|].
    cbn in Hhead. injection Hhead as ->.
    apply Forall_inv in Hall. congruence.
Qed.

Lemma parseSchedule_strict_witness :
  parseSchedule "5 m" = 60000 /\ parseSchedule "5mh" = 60000 /\
  parseSchedule "" = 60000 /\ parseSchedule "h2" = 60000.
Proof.
  split_and!.
  - apply (proj1 (parseSchedule_strict "5 m") " ").
    + right. left.
    + reflexivity.
  - apply (proj1 (proj2 (parseSchedule_strict "5mh")) ["5"] "m" ["h"]);
      done.
  - by apply (proj1 (proj2 (proj2 (parseSchedule_strict "")))).
  - by apply (proj2 (proj2 (proj2 (parseSchedule_strict "h2"))) "h").
Defined.

Lemma zero_digit (c : ascii) :
  is_digit c = true -> digit_val c = 0 -> c = "0".
Proof.
  unfold digit_val. intros _ Hv.
  assert (Hn : N_of_ascii c = 48%N) by lia.
  rewrite <- (ascii_N_embedding c), Hn. reflexivity.
Qed.

Lemma decimal_value_zero (ds : list ascii) :
  Forall (fun c => is_digit c = true) ds ->
  decimal_value ds = 0 -> Forall (fun c => c = "0") ds.
Proof.
  induction 1 as [|c ds Hc Hall IH]; cbn [decimal_value]; [constructor|].
  intros Hz. pose proof (digit_val_range c Hc) as Hr.
  pose proof (decimal_value_nonneg ds Hall) as Hnn.
  assert (0 < 10 ^ Z.of_nat (length ds)) by (apply Z.pow_pos_nonneg; lia).
  assert (digit_val c = 0) by nia.
  constructor; [by apply zero_digit|]. apply IH. nia.
Qed.

Lemma decimal_value_zeros (ds : list ascii) :
  Forall (fun c => c = "0") ds -> decimal_value ds = 0.
Proof.
  induction 1 as [|c ds -> _ IH]; cbn [decimal_value]; [done|].
  rewrite IH. change (digit_val "0") with 0. lia.
Qed.

Lemma unit_ms_pos (u : option ascii) : 60000 <= unit_ms u.
Proof.
  destruct u as [c|]; cbn [unit_ms]; [|lia].
  destruct (Ascii.eqb c "h"); [lia|]. destruct (Ascii.eqb c "d"); lia.
Qed.

(** X14.  An interval is either zero or at least one minute.  It is zero
    exactly for the schedules made of zeros only, with or without a unit:
    no other schedule, well formed or not, makes a job fire without
    delay. *)
Theorem parseSchedule_zero_iff (s : string) :
  (parseSchedule s = 0 \/ 60000 <= parseSchedule s) /\
  (parseSchedule s = 0 <->
   exists ds u, Grammar s ds u /\ Forall (fun c => c = "0") ds).
Proof.
  destruct (regex_match s) as [[ds u]|] eqn:Hm.
  - apply regex_match_sound in Hm as HG.
    pose proof HG as (_ & Hall & _ & _).
    rewrite (parseSchedule_matched _ _ _ HG).
    pose proof (decimal_value_nonneg ds Hall) as Hnn.
    pose proof (unit_ms_pos u) as Hu.
    split.
    { destruct (decide (decimal_value ds = 0)) as [->|Hne]; [left; lia|].
      right. nia. }
    split.
    + intros Hz. exists ds, u. split; [done|].
      apply decimal_value_zero; [done|nia].
    + intros (ds' & u' & HG' & Hz).
      apply regex_match_complete in HG, HG'.
      assert (ds' = ds) as -> by congruence.
      rewrite (decimal_value_zeros ds Hz). lia.
  - rewrite (parseSchedule_unmatched s Hm). split; [right; lia|]. split.
    + discriminate.
    + intros (ds & u & HG & _). apply regex_match_complete in HG. congruence.
Qed.

Lemma parseSchedule_zero_iff_witness :
  parseSchedule "00h" = 0 /\
  exists ds u, Grammar "0" ds u /\ Forall (fun c => c = "0") ds.
Proof.
  split.
  - apply (proj2 (proj2 (parseSchedule_zero_iff "00h"))).
    exists ["0"; "0"], (Some "h"). split.
    + apply regex_match_sound. reflexivity.
    + by repeat constructor.
  - apply (proj1 (proj2 (parseSchedule_zero_iff "0"))). reflexivity.
Defined.

End ParsingMore.

(** ** Armed intervals and the [enabled] flag *)

Lemma armed_enabled_arm job (w : World) j :
  objects w !! job = Some j -> enabled j = true ->
  armed_enabled w -> armed_enabled (arm job w).
Proof.
  intros Hjob Hen Ha h t j'.
  intros [[-> ->]|(_ & _ & Hth)]%(arm_timers job w j Hjob);
    rewrite (arm_objects job w j Hjob).
  - cbn [t_job]. rewrite decide_True by done. by intros [= <-].
  - case_decide; [by intros [= <-]|]. by apply (Ha h t).
Qed.

Lemma armed_enabled_disarm job (w : World) :
  armed_enabled w -> armed_enabled (disarm job w).
Proof.
  intros Ha. destruct (objects w !! job) as [j|] eqn:Hjob;
    [|by rewrite disarm_dangling].
  intros h t j' [_ Hth]%(disarm_timers job w j Hjob).
  rewrite (disarm_objects job w j Hjob). case_decide as Heq.
  - intros [= <-]. cbn. apply (Ha h t j Hth). by rewrite <- Heq.
  - by apply (Ha h t).
Qed.

Lemma armed_enabled_alter f job (w w' : World) :
  (forall j, enabled j = true -> enabled (f j) = true) ->
  objects w' = alter f job (objects w) ->
  (forall h t, timers w' !! h = Some t -> timers w !! h = Some t) ->
  armed_enabled w -> armed_enabled w'.
Proof.
  intros Hf Ho Ht Ha h t j' Hth%Ht. rewrite Ho.
  intros [[Heq (j & Hl & ->)]|[_ Hl]]%lookup_alter_Some.
  - apply Hf. by apply (Ha h t j Hth).
  - by apply (Ha h t).
Qed.

Lemma armed_enabled_shrink (w w' : World) :
  objects w' = objects w ->
  (forall h t, timers w' !! h = Some t -> timers w !! h = Some t) ->
  armed_enabled w -> armed_enabled w'.
Proof.
  intros Ho Ht Ha h t j Hth%Ht. rewrite Ho. by apply (Ha h t).
Qed.

Lemma armed_enabled_start_step (w : World) x :
  armed_enabled w -> armed_enabled (start_step w x).
Proof.
  intros Ha. unfold start_step.
  destruct (objects w !! x) as [j|] eqn:Hx.
  - rewrite (lookup_total_correct _ _ _ Hx).
    destruct (enabled j) eqn:Hen; [by eapply armed_enabled_arm|done].
  - by rewrite lookup_total_alt, Hx.
Qed.

Lemma armed_enabled_call c (w : World) :
  wf w -> armed_enabled w -> armed_enabled (call c w).
Proof.
  intros Hwf Ha. destruct c as [i n s a|i| | |i|i|i| |st]; cbn [call].
  - rewrite addJob_eq. cbn [snd]. rewrite added_unfold.
    pose proof (registered_lookup i n s a w) as Hl.
    assert (Hreg : armed_enabled
              (with_jobs (map_set i (next_loc w))
                 (with_objects (insert (next_loc w) (new_job i n s a (clock w)))
                    (S (next_loc w)) w))).
    { intros h t j Hth. wsimpl.
      intros [[_ <-]|[_ Hj]]%lookup_insert_Some; [done|].
      by apply (Ha h t). }
    destruct (running w); [by eapply armed_enabled_arm|done].
  - rewrite removeJob_eq. destruct (map_get i (jobs w)) as [job|]; [|done].
    cbn [snd]. apply (armed_enabled_shrink w); [| |done].
    + unfold removed. by destruct (intervalId _).
    + intros h t. unfold removed. destruct (intervalId _); wsimpl; [|done].
      by intros [_ ?]%lookup_delete_Some.
  - rewrite start_eq. cbn [snd]. unfold started.
    apply fold_left_invariant; [|done].
    intros w' x. apply armed_enabled_start_step.
  - rewrite stop_eq. cbn [snd]. unfold stopped.
    apply fold_left_invariant; [|done].
    intros w' x. apply armed_enabled_disarm.
  - rewrite enableJob_eq.
    destruct (map_get i (jobs w)) as [job|] eqn:Hget; [|done].
    cbn [snd]. unfold enabled_job. apply map_get_elem in Hget.
    destruct (wf_stored _ Hwf _ _ Hget) as (j & Hl & _).
    assert (Hen : armed_enabled
              (with_objects (alter (set_enabled true) job) (next_loc w) w)).
    { eapply armed_enabled_alter; [|reflexivity| |exact Ha]; done. }
    destruct (running w); [|done].
    eapply (armed_enabled_arm job _ (set_enabled true j)); [|done|exact Hen].
    wsimpl. by rewrite lookup_alter_eq, Hl.
  - rewrite disableJob_eq.
    destruct (map_get i (jobs w)) as [job|] eqn:Hget; [|done].
    cbn [snd]. unfold disabled_job. apply map_get_elem in Hget as Hin.
    destruct (wf_stored _ Hwf _ _ Hin) as (j & Hl & _).
    set (w1 := with_objects (alter (set_enabled false) job) (next_loc w) w).
    assert (Hl1 : objects w1 !! job = Some (set_enabled false j)).
    { unfold w1. wsimpl. by rewrite lookup_alter_eq, Hl. }
    intros h t j' [Hne Hth]%(disarm_timers job w1 _ Hl1).
    change (timers w1) with (timers w) in Hth. cbn in Hne.
    apply (wf_not_own w i job j h t Hwf Hin Hl Hth) in Hne.
    rewrite (disarm_objects job w1 _ Hl1), decide_False by done.
    unfold w1. wsimpl. rewrite lookup_alter_ne by done.
    by apply (Ha h t).
  - done.
  - done.
  - by rewrite getJobsByStatus_eq.
Qed.

Lemma armed_enabled_exec e (w : World) :
  wf w -> armed_enabled w -> armed_enabled (exec e w).
Proof.
  intros Hwf Ha. destruct e as [c|d|h r|k o|a xs]; cbn [exec].
  - by apply armed_enabled_call.
  - done.
  - destruct (timers w !! h) as [t|]; [|done].
    pose proof (timer_callback_objects (t_job t) r w) as Ho.
    pose proof (timer_callback_update (t_job t) r w) as (_ & _ & Ht & _).
    destruct (enabled _).
    + eapply armed_enabled_alter; [|exact Ho|by rewrite Ht|exact Ha].
      by destruct r.
    + eapply armed_enabled_shrink; [exact Ho|by rewrite Ht|exact Ha].
  - destruct (inflight w !! k) as [job|]; [|done].
    pose proof (timer_callback_resume_update job o (with_inflight (delete k) w))
      as (_ & _ & Ht & _).
    eapply armed_enabled_alter;
      [|apply timer_callback_resume_objects|by rewrite Ht|exact Ha].
    by destruct o.
  - by destruct (arrays w !! a).
Qed.

Lemma reachable_armed_enabled (w : World) : reachable w -> armed_enabled w.
Proof.
  induction 1 as [t0|e w Hreach IH].
  - intros h t j. cbn. by rewrite lookup_empty.
  - apply armed_enabled_exec; [by apply reachable_inv|done].
Qed.

(** X15.  As long as job objects are written through the methods only, an
    armed interval always belongs to an enabled job, because disabling a
    job disarms it at once.  So the [enabled] test at the head of the
    callback never skips: every firing sets the status to [running] and
    invokes the action, even when an earlier run of the same job is still
    in flight. *)
Theorem firing_always_runs (w : World) (h : Timeout) (t : Timer) :
  reachable w -> timers w !! h = Some t ->
  exists j, objects w !! t_job t = Some j /\ enabled j = true /\
    let w' := exec (Fire h ReturnedPromise) w in
    objects w' !! t_job t = Some (set_status Running j) /\
    effects w' = effects w ++ [Invoked (action j)] /\
    inflight w' = inflight w ++ [t_job t].
Proof.
  intros Hreach Hth. destruct (reachable_inv w Hreach) as [Hwf _].
  destruct (wf_timers _ Hwf h t Hth) as (j & Hl & _).
  pose proof (reachable_armed_enabled w Hreach h t j Hth Hl) as Hen.
  exists j. split; [done|]. split; [done|]. cbv zeta. cbn [exec]. rewrite Hth.
  unfold timer_callback, mbind, M_bind, mret, M_ret, load, store, emit,
    modify, gets.
  rewrite (lookup_total_correct _ _ _ Hl), Hen.
  cbv beta iota zeta. cbn [negb]. wsimpl.
  by rewrite lookup_alter_eq, Hl.
Qed.

Lemma firing_always_runs_witness :
  let w := run [Call (CallAddJob "a" "A" "1m" (ActionRef 3));
                Call CallStart; Fire 0%nat ReturnedPromise] (initial 0) in
  exists j, objects w !! 0%nat = Some j /\
    effects (exec (Fire 0%nat ReturnedPromise) w)
    = effects w ++ [Invoked (action j)].
Proof.
  intros w.
  destruct (firing_always_runs w 0%nat {| t_job := 0%nat; t_period := 60000 |})
    as (j & Hl & _ & _ & He & _).
  - apply reachable_run.
  - vm_compute. reflexivity.
  - exists j. by split.
Defined.

(** ** Pausing and resuming *)

(** X16.  Stopping and starting again gives the caller the same view as
    starting without the stop in between: every job keeps its status, its
    [lastRun] and its [enabled] flag across the stop, and the second
    [start] recomputes [nextRun] of the enabled jobs from the time it is
    called. *)
Theorem restart_observable (w : World) (now : Z) :
  observable (snd (start (with_clock now (snd (stop w)))))
  = observable (snd (start (with_clock now w))).
Proof.
  rewrite !start_eq, stop_eq. cbn [snd]. rewrite !started_observable. wsimpl.
  destruct (stopped_frame w) as (-> & _).
  f_equal. apply map_ext_in. intros [k l] _. cbn [fst snd]. do 2 f_equal.
  apply (stop_loop_view (map_values (jobs w)) (with_running false w) l).
Qed.

Lemma enabled_job_view l (w : World) l' :
  set_intervalId None <$> objects (enabled_job l w) !! l'
  = (if decide (l = l') then enable_view (running w) (clock w) else fun o => o)
      <$> (set_intervalId None <$> objects w !! l').
Proof.
  unfold enabled_job.
  set (w1 := with_objects (alter (set_enabled true) l) (next_loc w) w).
  assert (Hw1 : objects w1 !! l' = (if decide (l = l')
                  then set_enabled true else fun o => o) <$> objects w !! l').
  { unfold w1. wsimpl. rewrite lookup_alter. case_decide; [by subst|].
    by destruct (objects w !! l'). }
  destruct (running w) eqn:Hr; cbn [enable_view].
  - destruct (objects w1 !! l) as [j1|] eqn:Hl1.
    + rewrite (arm_objects l w1 j1 Hl1). case_decide as Heq.
      * subst l'. rewrite Hl1 in Hw1. rewrite ?decide_True in Hw1 by done.
        destruct (objects w !! l) as [j|]; [|done].
        injection Hw1 as ->. reflexivity.
      * rewrite Hw1, ?decide_False by done. by destruct (objects w !! l').
    + assert (Hsame : objects (arm l w1) !! l' = objects w1 !! l').
      { unfold arm. wsimpl. destruct (decide (l = l')) as [<-|Hne].
        - by rewrite !lookup_alter_eq, Hl1.
        - by rewrite !lookup_alter_ne. }
      rewrite Hsame, Hw1. case_decide as Heq; [|by destruct (objects w !! l')].
      subst l'. rewrite Hl1 in Hw1. rewrite ?decide_True in Hw1 by done.
      by destruct (objects w !! l).
  - rewrite Hw1. case_decide; by destruct (objects w !! l').
Qed.

Lemma disabled_job_view l (w : World) l' :
  set_intervalId None <$> objects (disabled_job l w) !! l'
  = (if decide (l = l') then set_enabled false else fun o => o)
      <$> (set_intervalId None <$> objects w !! l').
Proof.
  unfold disabled_job.
  set (w1 := with_objects (alter (set_enabled false) l) (next_loc w) w).
  assert (Hw1 : objects w1 !! l' = (if decide (l = l')
                  then set_enabled false else fun o => o) <$> objects w !! l').
  { unfold w1. wsimpl. rewrite lookup_alter. case_decide; [by subst|].
    by destruct (objects w !! l'). }
  destruct (objects w1 !! l) as [j1|] eqn:Hl1.
  - rewrite (disarm_objects l w1 j1 Hl1). case_decide as Heq.
    + subst l'. rewrite Hl1 in Hw1. rewrite ?decide_True in Hw1 by done.
      destruct (objects w !! l) as [j|]; [|done].
      injection Hw1 as ->. reflexivity.
    + rewrite Hw1, ?decide_False by done. by destruct (objects w !! l').
  - rewrite disarm_dangling, Hw1 by done.
    case_decide; by destruct (objects w !! l').
Qed.

(** X17.  Disabling a job and enabling it again gives the caller the same
    view as enabling it without the pause: status and [lastRun] survive the
    pause, and while the scheduler is running [nextRun] is recomputed from
    the time of the [enableJob] call. *)
Theorem resume_observable (w : World) (id0 : string) (now : Z) :
  observable (snd (enableJob id0 (with_clock now (snd (disableJob id0 w)))))
  = observable (snd (enableJob id0 (with_clock now w))).
Proof.
  rewrite disableJob_eq, !enableJob_eq. wsimpl.
  destruct (map_get id0 (jobs w)) as [l|] eqn:Hget; cbn [snd]; wsimpl;
    [|by rewrite Hget].
  assert (Hfr : jobs (disabled_job l w) = jobs w /\
                running (disabled_job l w) = running w).
  { unfold disabled_job.
    by destruct (disarm_frame l
         (with_objects (alter (set_enabled false) l) (next_loc w) w))
      as (-> & -> & _). }
  destruct Hfr as [Hj Hr]. rewrite Hj, Hget. cbn [snd].
  assert (Hen : forall w', jobs (enabled_job l w') = jobs w' /\
                           running (enabled_job l w') = running w').
  { intros w'. unfold enabled_job. destruct (running w') eqn:E; by split. }
  unfold observable.
  destruct (Hen (with_clock now (disabled_job l w))) as [-> ->].
  destruct (Hen (with_clock now w)) as [-> ->]. wsimpl. rewrite Hj, Hr.
  f_equal. apply map_ext_in. intros [k l'] _. cbn [fst snd]. f_equal.
  rewrite !enabled_job_view. wsimpl. rewrite Hr, disabled_job_view.
  destruct (objects w !! l') as [j|]; [|done]. cbn. f_equal.
  case_decide; [|done]. unfold enable_view.
  by destruct (running w), j.
Qed.
